(** * Ensemble answer server: a shallow embedding of [src/api/index.ts]
      and of the REST variant in [src/unnamed/part_000].

    The development follows the layout of the TypeScript source:
    string utilities, the regular expressions the source uses (run by a
    small backtracking matcher with the priorities of the ECMAScript
    matcher), [JSON.parse], the error formatter, the prompt builder, the
    answer parser, the retrying provider call, the two voting functions,
    the ensemble runner, and the request handler with its answer cache.

    Modelling conventions.
    - A JavaScript string is a [string]: one [ascii] per UTF-16 code unit.
      The embedding is exact on 7-bit text; code units from 128 on are
      carried through unchanged (no case mapping, never white space).
    - [console.log] / [console.error] produce no value and are left out.
    - A thrown [Error] is a record of its [name] and [message]; code that
      may throw returns a sum.
    - An object literal used as a dictionary is the list of its own
      properties; a lookup of a name of [Object.prototype] that the object
      does not own finds the inherited member.
    - The outside world (provider answers, the clock) is an explicit
      oracle argument, and the calls a function makes are returned as a
      trace, so that "how many attempts were made" is a statement about
      a value. *)

From Stdlib Require Import ZArith Ascii String List Bool Lia.
From stdpp Require Import gmap strings list pretty.

Local Open Scope string_scope.
Local Open Scope list_scope.
Local Open Scope Z_scope.
Local Open Scope nat_scope.

(* ================================================================== *)
(** * JavaScript strings *)
(* ================================================================== *)

Module Js.

(** The double-quote character and the empty string, named so that the
    literals below stay readable. *)
Definition dquote : ascii := ascii_of_nat 34.
Definition DQ : string := String dquote EmptyString.
Definition quoted (s : string) : string := DQ +:+ s +:+ DQ.
Definition LF : string := String (ascii_of_nat 10) EmptyString.

Definition code (c : ascii) : nat := nat_of_ascii c.

Definition in_range (lo hi : nat) (c : ascii) : bool :=
  (lo <=? code c) && (code c <=? hi).

Definition is_upper (c : ascii) : bool := in_range 65 90 c.
Definition is_lower (c : ascii) : bool := in_range 97 122 c.
Definition is_digit (c : ascii) : bool := in_range 48 57 c.

(** [WhiteSpace] and [LineTerminator] of ECMAScript below 128: TAB, LF,
    VT, FF, CR and SP. This is the set used by [trim] and by [\s]. *)
Definition is_space (c : ascii) : bool :=
  in_range 9 13 c || (code c =? 32).

(** Line terminators below 128 (what [.] refuses). *)
Definition is_line_terminator (c : ascii) : bool :=
  (code c =? 10) || (code c =? 13).

Definition upper_char (c : ascii) : ascii :=
  if is_lower c then ascii_of_nat (code c - 32) else c.
Definition lower_char (c : ascii) : ascii :=
  if is_upper c then ascii_of_nat (code c + 32) else c.

Fixpoint map_string (f : ascii -> ascii) (s : string) : string :=
  match s with
  | EmptyString => EmptyString
  | String c t => String (f c) (map_string f t)
  end.

Definition toUpperCase : string -> string := map_string upper_char.
Definition toLowerCase : string -> string := map_string lower_char.

Fixpoint trimStart (s : string) : string :=
  match s with
  | String c t => if is_space c then trimStart t else s
  | EmptyString => EmptyString
  end.

(** [trimEnd] keeps a character when it is not white space or when
    something that is kept follows it. *)
Fixpoint trimEnd (s : string) : string :=
  match s with
  | EmptyString => EmptyString
  | String c t =>
      match trimEnd t with
      | EmptyString => if is_space c then EmptyString else String c EmptyString
      | t' => String c t'
      end
  end.

Definition trim (s : string) : string := trimEnd (trimStart s).

(** Truthiness of a string. *)
Definition truthy (s : string) : bool :=
  match s with EmptyString => false | _ => true end.

Fixpoint includes (s sub : string) : bool :=
  String.prefix sub s ||
  match s with
  | EmptyString => false
  | String _ t => includes t sub
  end.

(** [s.substring(0, n)] *)
Definition take (n : nat) (s : string) : string := String.substring 0 n s.

Fixpoint drop (n : nat) (s : string) : string :=
  match n, s with
  | S n', String _ t => drop n' t
  | _, _ => s
  end.

Fixpoint join (sep : string) (l : list string) : string :=
  match l with
  | [] => EmptyString
  | [x] => x
  | x :: t => x +:+ sep +:+ join sep t
  end.

Fixpoint concat (l : list string) : string :=
  match l with
  | [] => EmptyString
  | x :: t => x +:+ concat t
  end.

(** Comparison of strings by code units, the default order of
    [Array.prototype.sort]. *)
Fixpoint ltb (a b : string) : bool :=
  match a, b with
  | _, EmptyString => false
  | EmptyString, String _ _ => true
  | String x a', String y b' =>
      (code x <? code y) || ((code x =? code y) && ltb a' b')
  end.

Definition leb (a b : string) : bool := negb (ltb b a).

(** [[...new Set(l)]]: the first occurrence of every element, in order. *)
Fixpoint dedup (seen : list string) (l : list string) : list string :=
  match l with
  | [] => []
  | x :: t =>
      if existsb (String.eqb x) seen then dedup seen t
      else x :: dedup (x :: seen) t
  end.

Definition unique (l : list string) : list string := dedup [] l.

(** A stable insertion sort: [Array.prototype.sort] is stable, and only
    the order it produces is observable. [before a b] says that [a] may
    stay in front of [b] ([compare(a, b) <= 0]). *)
Section Sort.
Context {A : Type} (before : A -> A -> bool).

Fixpoint insert_sorted (x : A) (l : list A) : list A :=
  match l with
  | [] => [x]
  | y :: t => if before x y then x :: l else y :: insert_sorted x t
  end.

Definition sort (l : list A) : list A :=
  fold_right insert_sorted [] l.
End Sort.

(** ** Plain objects used as dictionaries

    An object literal [{}] filled by assignment is kept as the list of
    its own properties in the order of creation. [Object.entries] lists
    the keys that are array indices first, in increasing order, and then
    the other keys in the order of creation.

    An object literal inherits the members of [Object.prototype]: for
    one of the names below, [d[key]] on an object that does not own
    [key] is the inherited member, a function (for [__proto__] the
    prototype itself), hence truthy, and without the members that the
    code gives its own values. *)

Definition object_prototype_names : list string :=
  [ "constructor"; "__defineGetter__"; "__defineSetter__";
    "hasOwnProperty"; "__lookupGetter__"; "__lookupSetter__";
    "isPrototypeOf"; "propertyIsEnumerable"; "toString"; "valueOf";
    "__proto__"; "toLocaleString" ].

Definition inherited (key : string) : bool :=
  existsb (String.eqb key) object_prototype_names.

Fixpoint decimal_value (acc : N) (s : string) : N :=
  match s with
  | EmptyString => acc
  | String c t => decimal_value (10 * acc + N.of_nat (code c - 48))%N t
  end.

Fixpoint only_digits (s : string) : bool :=
  match s with
  | EmptyString => true
  | String c t => is_digit c && only_digits t
  end.

(** A canonical numeric string below 2^32 - 1. *)
Definition array_index (key : string) : option N :=
  match key with
  | EmptyString => None
  | String "0" EmptyString => Some 0%N
  | String "0" _ => None
  | _ =>
      if only_digits key && (String.length key <=? 10)
         && (decimal_value 0 key <? 4294967295)%N
      then Some (decimal_value 0 key) else None
  end.

Section Dictionary.
Context {V : Type}.

Fixpoint lookup_key (key : string) (d : list (string * V)) : option V :=
  match d with
  | [] => None
  | (k, v) :: t => if String.eqb k key then Some v else lookup_key key t
  end.

(** [d[key] = f(d[key])], creating the property from [init] first when
    it is missing. *)
Fixpoint upsert (key : string) (init : V) (f : V -> V)
    (d : list (string * V)) : list (string * V) :=
  match d with
  | [] => [(key, f init)]
  | (k, v) :: t =>
      if String.eqb k key then (k, f v) :: t
      else (k, v) :: upsert key init f t
  end.

Definition index_before (a b : N * (string * V)) : bool :=
  (fst a <=? fst b)%N.

Definition entries (d : list (string * V)) : list (string * V) :=
  map snd
    (sort index_before
       (omap (fun kv => match array_index (fst kv) with
                        | Some i => Some (i, kv)
                        | None => None
                        end) d))
  ++ filter (fun kv => array_index (fst kv) = None) d.
End Dictionary.

(** [l.sort()] on strings. *)
Definition sort_strings : list string -> list string := sort leb.

End Js.

(* ================================================================== *)
(** * Regular expressions *)
(* ================================================================== *)

(** The source uses a dozen regular expressions. They are kept as syntax
    and run by one backtracking matcher, so that each pattern below can
    be read against the literal in the source. The matcher follows the
    ECMAScript one: alternatives left to right, greedy quantifiers try
    one more iteration first, lazy ones try to stop first, an iteration
    that consumes nothing is refused, and a search tries the start
    positions from left to right. *)

Module Regex.
Import Js.

(** Character sets. *)
Inductive cset : Type :=
| CChar (c : ascii)               (* a literal character *)
| CRange (lo hi : ascii)          (* [lo-hi] *)
| CSpace                          (* \s *)
| CWord                           (* \w *)
| CDot                            (* .  *)
| CAny                            (* [\s\S] *)
| CUnion (a b : cset).

Fixpoint cset_mem (cs : cset) (c : ascii) : bool :=
  match cs with
  | CChar x => Ascii.eqb x c
  | CRange lo hi => in_range (code lo) (code hi) c
  | CSpace => is_space c
  | CWord => is_upper c || is_lower c || is_digit c || (code c =? 95)
  | CDot => negb (is_line_terminator c)
  | CAny => true
  | CUnion a b => cset_mem a c || cset_mem b c
  end.

(** With the [i] flag two characters match when their canonical (upper
    case) forms agree; below 128 the characters with the canonical form
    of [c] are [c], its upper case and its lower case. *)
Definition cset_match (icase : bool) (cs : cset) (c : ascii) : bool :=
  if icase
  then cset_mem cs c || cset_mem cs (upper_char c) || cset_mem cs (lower_char c)
  else cset_mem cs c.

Inductive regex : Type :=
| Eps
| Set_ (cs : cset)
| Seq (r1 r2 : regex)
| Alt (r1 r2 : regex)
| Star (greedy : bool) (r : regex)     (* r* and r*? *)
| Group (n : nat) (r : regex)          (* the n-th capturing group *)
| Bol                                  (* ^ without the m flag *)
| Eol.                                 (* $ without the m flag *)

Definition Plus (greedy : bool) (r : regex) : regex := Seq r (Star greedy r).
Definition Opt (r : regex) : regex := Alt r Eps.

Fixpoint Lit (s : string) : regex :=
  match s with
  | EmptyString => Eps
  | String c EmptyString => Set_ (CChar c)
  | String c t => Seq (Set_ (CChar c)) (Lit t)
  end.

Definition captures := list (nat * string).

Fixpoint capture (n : nat) (caps : captures) : option string :=
  match caps with
  | [] => None
  | (m, s) :: t => if Nat.eqb n m then Some s else capture n t
  end.

Section Matcher.
Context {R : Type} (icase : bool).

(** A matcher: given where it stands and what remains to be matched (the
    continuation), the first way to succeed. *)
Definition matcher : Type :=
  bool -> string -> captures ->
  (bool -> string -> captures -> option R) -> option R.

(** The iterations of [r*] and [r*?] for the matcher [m] of [r]. [fuel]
    bounds the number of iterations; as an iteration must consume a
    character, the length of the input is enough. *)
Fixpoint star_loop (m : matcher) (greedy : bool)
    (k : bool -> string -> captures -> option R)
    (fuel : nat) (bol : bool) (s : string) (caps : captures) : option R :=
  match fuel with
  | O => k bol s caps
  | S fuel' =>
      let again (_ : unit) :=
        m bol s caps (fun b s' c' =>
          if String.length s' <? String.length s
          then star_loop m greedy k fuel' b s' c' else None) in
      if greedy then
        match again tt with
        | Some x => Some x
        | None => k bol s caps
        end
      else
        match k bol s caps with
        | Some x => Some x
        | None => again tt
        end
  end.

(** [run r bol s caps k]: match [r] at the front of [s]; [bol] tells
    whether [s] is the whole input; [k] is what remains to be matched.
    The first way that makes [k] succeed is the result. *)
Fixpoint run (r : regex) : matcher :=
  fun bol s caps k =>
  match r with
  | Eps => k bol s caps
  | Set_ cs =>
      match s with
      | String c t => if cset_match icase cs c then k false t caps else None
      | EmptyString => None
      end
  | Seq r1 r2 => run r1 bol s caps (fun b s' c' => run r2 b s' c' k)
  | Alt r1 r2 =>
      match run r1 bol s caps k with
      | Some x => Some x
      | None => run r2 bol s caps k
      end
  | Star greedy r1 =>
      star_loop (run r1) greedy k (String.length s) bol s caps
  | Group n r1 =>
      run r1 bol s caps (fun b s' c' =>
        k b s' ((n, take (String.length s - String.length s') s) :: c'))
  | Bol => if bol then k bol s caps else None
  | Eol => match s with EmptyString => k bol s caps | _ => None end
  end.
End Matcher.

(** A successful match: where it starts, the matched text, the input
    after it, and the captures. *)
Record found : Type := Found {
  f_index : nat;
  f_text : string;
  f_rest : string;
  f_caps : captures
}.

(** Match at the front of [s] only. *)
Definition match_here (icase : bool) (r : regex) (bol : bool) (s : string)
  : option (string * string * captures) :=
  run icase r bol s []
    (fun _ s' c => Some (take (String.length s - String.length s') s, s', c)).

(** [r.exec(s)]: the leftmost match. *)
Fixpoint exec_from (icase : bool) (r : regex) (i : nat) (s : string)
  : option found :=
  match match_here icase r (Nat.eqb i 0) s with
  | Some (m, rest, c) => Some (Found i m rest c)
  | None =>
      match s with
      | EmptyString => None
      | String _ t => exec_from icase r (S i) t
      end
  end.

Definition exec (icase : bool) (r : regex) (s : string) : option found :=
  exec_from icase r 0 s.

(** [r.test(s)] *)
Definition test (icase : bool) (r : regex) (s : string) : bool :=
  match exec icase r s with Some _ => true | None => false end.

(** The scan shared by [s.match(/r/g)] and [s.replace(/r/g, ..)]: the
    input cut into the texts between matches and the matches, left to
    right. After an empty match the scan moves on by one character. *)
Inductive piece : Type :=
| Kept (c : ascii)
| Matched (m : string).

Fixpoint scan (icase : bool) (r : regex) (fuel : nat) (bol : bool) (s : string)
  : list piece :=
  match fuel with
  | O => []
  | S fuel' =>
      match match_here icase r bol s with
      | Some (m, rest, _) =>
          match m, s with
          | EmptyString, String c t =>
              Matched m :: Kept c :: scan icase r fuel' false t
          | EmptyString, EmptyString => [Matched m]
          | _, _ => Matched m :: scan icase r fuel' false rest
          end
      | None =>
          match s with
          | EmptyString => []
          | String c t => Kept c :: scan icase r fuel' false t
          end
      end
  end.

Definition pieces (icase : bool) (r : regex) (s : string) : list piece :=
  scan icase r (S (String.length s)) true s.

(** [s.match(/r/g)]: every match, or [null] when there is none. *)
Definition match_all (icase : bool) (r : regex) (s : string)
  : option (list string) :=
  match omap (fun p => match p with Matched m => Some m | Kept _ => None end)
             (pieces icase r s) with
  | [] => None
  | l => Some l
  end.

(** [s.replace(/r/g, by)] for a replacement text without [$] patterns. *)
Definition replace_all (icase : bool) (r : regex) (by_ : string) (s : string)
  : string :=
  Js.concat (map (fun p => match p with
                           | Matched _ => by_
                           | Kept c => String c EmptyString
                           end) (pieces icase r s)).

(** [s.replace(/r/, by)] without the [g] flag: the leftmost match only. *)
Definition replace_first (icase : bool) (r : regex) (by_ : string) (s : string)
  : string :=
  match exec icase r s with
  | Some m => take (f_index m) s +:+ by_ +:+ f_rest m
  | None => s
  end.

(** [s.split(/r/)] for a pattern without capturing groups whose matches
    are never empty (SplitMatcher of the specification: at each position
    the pattern is tried at that position only). [cur] is the piece
    being collected. *)
Fixpoint split_loop (icase : bool) (r : regex) (fuel : nat) (bol : bool)
    (cur : string) (s : string) : list string :=
  match fuel with
  | O => [cur +:+ s]
  | S fuel' =>
      match s with
      | EmptyString => [cur]
      | String c t =>
          match match_here icase r bol s with
          | Some (String _ _, rest, _) =>
              cur :: split_loop icase r fuel' false EmptyString rest
          | _ =>
              split_loop icase r fuel' false (cur +:+ String c EmptyString) t
          end
      end
  end.

Definition split (icase : bool) (r : regex) (s : string) : list string :=
  match s with
  | EmptyString =>
      match match_here icase r true s with Some _ => [] | None => [s] end
  | _ => split_loop icase r (String.length s) true EmptyString s
  end.

End Regex.

(* ================================================================== *)
(** * JSON.parse and the values it produces *)
(* ================================================================== *)

Module Json.
Import Js.

(** The values [JSON.parse] can return, and [undefined], which reading a
    missing property gives. A number keeps its literal: the source only
    converts numbers to strings and compares them with constants. *)
#[warnings="-register-all"]
Inductive value : Type :=
| Undefined
| Null
| Boolean (b : bool)
| Number (literal : string)
| Str (s : string)
| Array (elements : list value)
| Object (members : list (string * value)).

Inductive result (A : Type) : Type :=
| Parsed (a : A) (rest : string)
| SyntaxError
| OutOfFuel.
Arguments Parsed {A} a rest.
Arguments SyntaxError {A}.
Arguments OutOfFuel {A}.

(** JSON white space: TAB, LF, CR, SP. *)
Definition is_json_space (c : ascii) : bool :=
  (code c =? 9) || (code c =? 10) || (code c =? 13) || (code c =? 32).

Fixpoint skip_space (s : string) : string :=
  match s with
  | String c t => if is_json_space c then skip_space t else s
  | EmptyString => EmptyString
  end.

Definition hex_digit (c : ascii) : option nat :=
  if is_digit c then Some (code c - 48)
  else if in_range 65 70 c then Some (code c - 55)
  else if in_range 97 102 c then Some (code c - 87)
  else None.

(** The code unit written [\uXXXX]; one that does not fit a character of
    the model is replaced by a question mark. *)
Definition unit_of_hex (a b c d : nat) : ascii :=
  let n := ((a * 16 + b) * 16 + c) * 16 + d in
  if n <? 256 then ascii_of_nat n else "?"%char.

Definition escape (c : ascii) : option ascii :=
  if Ascii.eqb c dquote then Some dquote
  else if Ascii.eqb c "\" then Some "\"%char
  else if Ascii.eqb c "/" then Some "/"%char
  else if Ascii.eqb c "b" then Some (ascii_of_nat 8)
  else if Ascii.eqb c "f" then Some (ascii_of_nat 12)
  else if Ascii.eqb c "n" then Some (ascii_of_nat 10)
  else if Ascii.eqb c "r" then Some (ascii_of_nat 13)
  else if Ascii.eqb c "t" then Some (ascii_of_nat 9)
  else None.

(** The four hexadecimal digits of a [\u] escape. *)
Definition hex4 (s : string) : option (ascii * string) :=
  match s with
  | String h1 (String h2 (String h3 (String h4 rest))) =>
      match hex_digit h1, hex_digit h2, hex_digit h3, hex_digit h4 with
      | Some a, Some b, Some c, Some d => Some (unit_of_hex a b c d, rest)
      | _, _, _, _ => None
      end
  | _ => None
  end.

(** The characters of a string literal after its opening quote. [fuel]
    bounds the number of characters read; the length of the input is
    enough. *)
Fixpoint parse_chars_with (fuel : nat) (s : string) : result string :=
  match fuel with
  | O => match s with EmptyString => SyntaxError | _ => OutOfFuel end
  | S fuel' =>
      match s with
      | EmptyString => SyntaxError
      | String c t =>
          if Ascii.eqb c dquote then Parsed EmptyString t
          else if Ascii.eqb c "\" then
            match t with
            | EmptyString => SyntaxError
            | String e t' =>
                let unit :=
                  if Ascii.eqb e "u" then hex4 t'
                  else match escape e with
                       | Some x => Some (x, t')
                       | None => None
                       end in
                match unit with
                | Some (x, t'') =>
                    match parse_chars_with fuel' t'' with
                    | Parsed r rest => Parsed (String x r) rest
                    | err => err
                    end
                | None => SyntaxError
                end
            end
          else if code c <? 32 then SyntaxError
          else
            match parse_chars_with fuel' t with
            | Parsed r rest => Parsed (String c r) rest
            | err => err
            end
      end
  end.

Definition parse_chars (s : string) : result string :=
  parse_chars_with (String.length s) s.

(** [Some rest] when [s] is [c] followed by [rest]. *)
Definition starts_with (c : ascii) (s : string) : option string :=
  match s with
  | String x rest => if Ascii.eqb x c then Some rest else None
  | EmptyString => None
  end.

Definition strip_prefix (p s : string) : option string :=
  if String.prefix p s then Some (drop (String.length p) s) else None.

(** Digits at the front of [s]: the digits and what follows. *)
Fixpoint digits (s : string) : string * string :=
  match s with
  | String c t =>
      if is_digit c then let (d, r) := digits t in (String c d, r)
      else (EmptyString, s)
  | EmptyString => (EmptyString, EmptyString)
  end.

(** At least one digit. *)
Definition digits1 (s : string) : option (string * string) :=
  match digits s with
  | (EmptyString, _) => None
  | (d, r) => Some (d, r)
  end.

(** The integer part of a number: [0], or digits that do not start
    with [0]. *)
Definition integer_part (s : string) : option (string * string) :=
  match starts_with "0" s with
  | Some rest => Some ("0", rest)
  | None => digits1 s
  end.

(** The optional fraction: a dot and at least one digit. *)
Definition fraction_part (s : string) : option (string * string) :=
  match starts_with "." s with
  | Some t =>
      match digits1 t with
      | Some (d, r) => Some ("." +:+ d, r)
      | None => None
      end
  | None => Some (EmptyString, s)
  end.

(** The optional exponent: [e] or [E], an optional sign, at least one
    digit. *)
Definition exponent_part (s : string) : option (string * string) :=
  let marked (e : string) (t : string) :=
    let (sign, t1) :=
      match starts_with "+" t, starts_with "-" t with
      | Some u, _ => ("+", u)
      | None, Some u => ("-", u)
      | None, None => (EmptyString, t)
      end in
    match digits1 t1 with
    | Some (d, r) => Some (e +:+ sign +:+ d, r)
    | None => None
    end in
  match starts_with "e" s, starts_with "E" s with
  | Some t, _ => marked "e" t
  | None, Some t => marked "E" t
  | None, None => Some (EmptyString, s)
  end.

(** A number literal: an optional minus sign, the integer part, the
    optional fraction and the optional exponent. The literal is returned
    as written. *)
Definition parse_number (s : string) : result string :=
  let (sign, s1) :=
    match starts_with "-" s with
    | Some t => ("-", t)
    | None => (EmptyString, s)
    end in
  match integer_part s1 with
  | None => SyntaxError
  | Some (i, s2) =>
      match fraction_part s2 with
      | None => SyntaxError
      | Some (f, s3) =>
          match exponent_part s3 with
          | None => SyntaxError
          | Some (e, s4) => Parsed (sign +:+ i +:+ f +:+ e) s4
          end
      end
  end.

(** A value that is neither an object nor an array. *)
Definition parse_scalar (s : string) : result value :=
  match starts_with dquote s with
  | Some t =>
      match parse_chars t with
      | Parsed x rest => Parsed (Str x) rest
      | SyntaxError => SyntaxError
      | OutOfFuel => OutOfFuel
      end
  | None =>
      match strip_prefix "true" s, strip_prefix "false" s,
            strip_prefix "null" s with
      | Some rest, _, _ => Parsed (Boolean true) rest
      | _, Some rest, _ => Parsed (Boolean false) rest
      | _, _, Some rest => Parsed Null rest
      | _, _, _ =>
          match parse_number s with
          | Parsed n rest => Parsed (Number n) rest
          | SyntaxError => SyntaxError
          | OutOfFuel => OutOfFuel
          end
      end
  end.

(** One value at the front of [s] (after white space). Arrays and
    objects take one unit of fuel per element and per nesting level. *)
Fixpoint parse_value (fuel : nat) (s : string) : result value :=
  match fuel with
  | O => OutOfFuel
  | S fuel' =>
      let s' := skip_space s in
      match starts_with "{" s', starts_with "[" s' with
      | Some t, _ =>
          match starts_with "}" (skip_space t) with
          | Some rest => Parsed (Object []) rest
          | None => parse_members fuel' t []
          end
      | None, Some t =>
          match starts_with "]" (skip_space t) with
          | Some rest => Parsed (Array []) rest
          | None => parse_elements fuel' t []
          end
      | None, None => parse_scalar s'
      end
  end

with parse_elements (fuel : nat) (s : string) (acc : list value)
  : result value :=
  match fuel with
  | O => OutOfFuel
  | S fuel' =>
      match parse_value fuel' s with
      | Parsed v s1 =>
          match starts_with "," (skip_space s1),
                starts_with "]" (skip_space s1) with
          | Some s2, _ => parse_elements fuel' s2 (v :: acc)
          | None, Some rest => Parsed (Array (rev (v :: acc))) rest
          | None, None => SyntaxError
          end
      | e => e
      end
  end

with parse_members (fuel : nat) (s : string) (acc : list (string * value))
  : result value :=
  match fuel with
  | O => OutOfFuel
  | S fuel' =>
      match starts_with dquote (skip_space s) with
      | Some t =>
          match parse_chars t with
          | Parsed key s1 =>
              match starts_with ":" (skip_space s1) with
              | Some s2 =>
                  match parse_value fuel' s2 with
                  | Parsed v s3 =>
                      match starts_with "," (skip_space s3),
                            starts_with "}" (skip_space s3) with
                      | Some s4, _ => parse_members fuel' s4 ((key, v) :: acc)
                      | None, Some rest =>
                          Parsed (Object (rev ((key, v) :: acc))) rest
                      | None, None => SyntaxError
                      end
                  | e => e
                  end
              | None => SyntaxError
              end
          | SyntaxError => SyntaxError
          | OutOfFuel => OutOfFuel
          end
      | None => SyntaxError
      end
  end.

(** [JSON.parse(text)]: [None] when it throws a [SyntaxError]. Two units
    of fuel per character are enough ([parse_total] below). *)
Definition parse_with (fuel : nat) (text : string) : result value :=
  match parse_value fuel text with
  | Parsed v rest =>
      match skip_space rest with
      | EmptyString => Parsed v EmptyString
      | _ => SyntaxError
      end
  | e => e
  end.

Definition enough (text : string) : nat := 2 * String.length text + 2.

Definition parse (text : string) : option value :=
  match parse_with (enough text) text with
  | Parsed v _ => Some v
  | _ => None
  end.

(** ** Reading parsed values *)

(** [v.key] for a key that is no property of the prototypes: the value
    of the last member with that key; [None] is the [TypeError] that
    reading a property of [null] or [undefined] throws. *)
Fixpoint last_member (key : string) (ms : list (string * value))
  : option value :=
  match ms with
  | [] => None
  | (k, v) :: t =>
      match last_member key t with
      | Some w => Some w
      | None => if String.eqb k key then Some v else None
      end
  end.

Definition get (v : value) (key : string) : option value :=
  match v with
  | Undefined | Null => None
  | Object ms =>
      match last_member key ms with
      | Some w => Some w
      | None => Some Undefined
      end
  | _ => Some Undefined
  end.

(** [v?.key] *)
Definition get_opt (v : value) (key : string) : value :=
  match get v key with
  | Some w => w
  | None => Undefined
  end.

Definition has_member (key : string) (ms : list (string * value)) : bool :=
  existsb (fun m => String.eqb (fst m) key) ms.

Fixpoint digits_value (acc : Z) (s : string) : Z :=
  match s with
  | EmptyString => acc
  | String c t => digits_value (10 * acc + Z.of_nat (code c - 48))%Z t
  end.

Fixpoint all_digits (s : string) : bool :=
  match s with
  | EmptyString => true
  | String c t => is_digit c && all_digits t
  end.

(** The literals of integers that a double holds exactly: an optional
    sign and digits only, of magnitude at most 2^53. *)
Definition exact_integer (lit : string) : option Z :=
  let (neg, d) :=
    match lit with
    | String "-" t => (true, t)
    | _ => (false, lit)
    end in
  if all_digits d && truthy d && (digits_value 0 d <=? 2 ^ 53)%Z
  then Some (if neg then - digits_value 0 d else digits_value 0 d)%Z
  else None.

Section Values.
(** [Number::toString] of the double a literal denotes, for the
    literals outside [exact_integer] (fractions, exponents, integers
    beyond 2^53): rounding to a double and printing it back are not
    modelled, and every result holds whatever this function is. *)
Variable float_toString : string -> string.

(** For an exact integer the printed form is the literal itself (JSON
    allows no leading zeros), except that [-0] prints as [0]. *)
Definition number_toString (lit : string) : string :=
  match exact_integer lit with
  | Some 0%Z => "0"
  | Some _ => lit
  | None => float_toString lit
  end.

(** [v === n] for a number constant [n]: doubles other than zeros are
    printed injectively. *)
Definition is_number (v : value) (printed : string) : bool :=
  match v with
  | Number lit => String.eqb (number_toString lit) printed
  | _ => false
  end.

Definition is_string (v : value) (s : string) : bool :=
  match v with
  | Str x => String.eqb x s
  | _ => false
  end.

(** Truthiness: [undefined], [null], [false], zero and the empty
    string are falsy. *)
Definition truthy_value (v : value) : bool :=
  match v with
  | Undefined | Null => false
  | Boolean b => b
  | Number lit => negb (String.eqb (number_toString lit) "0")
  | Str s => truthy s
  | Array _ | Object _ => true
  end.

(** [String(v)]; [None] is a [TypeError]. An array prints its elements
    separated by commas, [null] and [undefined] elements as nothing.
    An object without a member called [toString] prints through
    [Object.prototype.toString]; with such a member (never callable in
    parsed JSON) the conversion finds no usable method and throws. *)
Fixpoint toString (v : value) : option string :=
  match v with
  | Undefined => Some "undefined"
  | Null => Some "null"
  | Boolean true => Some "true"
  | Boolean false => Some "false"
  | Number lit => Some (number_toString lit)
  | Str s => Some s
  | Array l =>
      (fix elements (l : list value) : option string :=
         match l with
         | [] => Some EmptyString
         | x :: t =>
             let sx :=
               match x with
               | Undefined | Null => Some EmptyString
               | _ => toString x
               end in
             match sx, t with
             | None, _ => None
             | Some a, [] => Some a
             | Some a, _ :: _ =>
                 match elements t with
                 | Some b => Some (a +:+ "," +:+ b)
                 | None => None
                 end
             end
         end) l
  | Object ms =>
      if has_member "toString" ms then None else Some "[object Object]"
  end.

(** The value of a digit in a radix up to 36. *)
Definition digit_value (radix : nat) (c : ascii) : option Z :=
  let d :=
    if is_digit c then Some (code c - 48)
    else if is_lower c then Some (code c - 87)
    else if is_upper c then Some (code c - 55)
    else None in
  match d with
  | Some n => if n <? radix then Some (Z.of_nat n) else None
  | None => None
  end.

(** The value of the longest run of digits at the front of [s]; [acc]
    is [None] until a digit has been read. *)
Fixpoint leading_digits (radix : nat) (acc : option Z) (s : string)
  : option Z :=
  match s with
  | EmptyString => acc
  | String c t =>
      match digit_value radix c with
      | Some d =>
          leading_digits radix
            (Some (Z.of_nat radix * default 0%Z acc + d)%Z) t
      | None => acc
      end
  end.

(** [parseInt(s)] with no radix argument; [None] is [NaN]. Leading
    white space is skipped, a sign is read, a [0x] prefix selects
    radix 16, and the longest run of digits is the value. *)
Definition parseInt_string (s : string) : option Z :=
  let s1 := trimStart s in
  let (neg, s2) :=
    match s1 with
    | String "-" t => (true, t)
    | String "+" t => (false, t)
    | _ => (false, s1)
    end in
  let (radix, s3) :=
    if String.prefix "0x" s2 || String.prefix "0X" s2
    then (16, drop 2 s2) else (10, s2) in
  match leading_digits radix None s3 with
  | Some n => Some (if neg then - n else n)%Z
  | None => None
  end.

(** [parseInt(v)]: the outer [None] is a [TypeError] of [String(v)]. *)
Definition parseInt (v : value) : option (option Z) :=
  match toString v with
  | Some s => Some (parseInt_string s)
  | None => None
  end.

(** [n || d] for a number [n]: [NaN] and zero are falsy. *)
Definition or_number (n : option Z) (d : Z) : Z :=
  match n with
  | Some 0%Z | None => d
  | Some x => x
  end.
End Values.

End Json.

(* ================================================================== *)
(** * Configuration, state and types ([src/api/index.ts]) *)
(* ================================================================== *)

Import Js.

(** Worker 1, worker 2, worker 3 and the judge. *)
Definition MODELS : list string :=
  [ "gemini-3-flash-preview"; "gemini-2.0-flash-001";
    "gemini-2.5-flash-lite"; "gemini-2.5-pro" ].

(** [MODELS[i]], read at the indices 0 to 3 only. *)
Definition MODELS_at (i : nat) : string := nth i MODELS "undefined".

Definition ENSEMBLE_MODE : bool := true.
Definition CONFIDENCE_THRESHOLD : Z := 90.
Definition TTL_MS : Z := 120 * 1000.

Record QuestionOption : Type := {
  label : string;
  text : string
}.

Record QuestionInput : Type := {
  question : string;
  options : option (list QuestionOption);
  type : option string;
  number : option Z;
  image : option string
}.

(** [string | QuestionInput] *)
Inductive PromptInput : Type :=
| AsString (s : string)
| AsObject (q : QuestionInput).

(** [ModelResult] is built in two shapes only: a success carries
    [answer], [confidence] and [raw], a failure carries [error]. *)
Inductive ModelResult : Type :=
| Success (answer : string) (confidence : Z) (model : string) (raw : string)
| Failure (model : string) (error : string).

Definition success (r : ModelResult) : bool :=
  match r with Success _ _ _ _ => true | Failure _ _ => false end.

Definition model (r : ModelResult) : string :=
  match r with Success _ _ m _ => m | Failure m _ => m end.

Definition answer (r : ModelResult) : option string :=
  match r with Success a _ _ _ => Some a | Failure _ _ => None end.

Definition confidence (r : ModelResult) : option Z :=
  match r with Success _ c _ _ => Some c | Failure _ _ => None end.

Record VoteSummary : Type := {
  vs_count : nat;
  vs_avgConfidence : Z
}.

Record ModelAnswer : Type := {
  ma_model : string;
  ma_answer : string;
  ma_confidence : Z
}.

Record VotingResult : Type := {
  finalAnswer : string;
  finalConfidence : Z;
  votes : option (list (string * VoteSummary));
  modelAnswers : option (list ModelAnswer);
  method : string
}.

(** A thrown [Error]. *)
Record JsError : Type := {
  name : string;
  message : string
}.

Definition new_Error (msg : string) : JsError :=
  {| name := "Error"; message := msg |}.

(** The [TypeError] of a member read on [undefined] or [null], in the
    words of V8, the engine of the platform. *)
Definition cannot_read (base member : string) : JsError :=
  {| name := "TypeError";
     message := "Cannot read properties of " +:+ base
                +:+ " (reading '" +:+ member +:+ "')" |}.

(** [Math.round(total / count)] for integers, [count] positive: the
    nearest integer, a tie going up. *)
Definition round_div (total : Z) (count : nat) : Z :=
  ((2 * total + Z.of_nat count) / (2 * Z.of_nat count))%Z.

(** One entry of the answer cache [recentAnswers]. *)
Record CacheEntry : Type := {
  ce_answer : string;
  ce_ts : Z
}.

(* ================================================================== *)
(** * Utilities *)
(* ================================================================== *)

Import Regex.

Definition any_text (greedy : bool) : regex := Star greedy (Set_ CAny).
Definition spaces : regex := Star true (Set_ CSpace).
Definition letter_A_F : regex := Set_ (CRange "A" "F").

(** [/\s+\n/g] *)
Definition re_space_before_newline : regex :=
  Seq (Plus true (Set_ CSpace)) (Lit LF).
(** [/\n\s+/g] *)
Definition re_space_after_newline : regex :=
  Seq (Lit LF) (Plus true (Set_ CSpace)).
(** [/[ \t]+/g] *)
Definition re_blanks : regex :=
  Plus true (Set_ (CUnion (CChar " ") (CChar (ascii_of_nat 9)))).
(** [/[.。…]+$/g]; the ideographic full stop and the ellipsis are code
    units beyond the characters of the model, which leaves the dot. *)
Definition re_trailing_dots : regex :=
  Seq (Plus true (Set_ (CChar "."))) Eol.

Definition normalizePrompt (s : string) : string :=
  trim
    (replace_all false re_trailing_dots EmptyString
      (replace_all false re_blanks " "
        (replace_all false re_space_after_newline LF
          (replace_all false re_space_before_newline LF s)))).

(** [vacuum()]: every entry older than [TTL_MS] at time [now] is
    deleted. *)
Definition vacuum (now : Z) (recentAnswers : gmap string CacheEntry)
  : gmap string CacheEntry :=
  filter (fun kv => ~ (now - ce_ts kv.2 > TTL_MS)%Z) recentAnswers.

Section Server.

(** [Number::toString] outside the exactly modelled integers, see
    [Json.number_toString]. *)
Variable float_toString : string -> string.

(* ================================================================== *)
(** * Error formatter *)
(* ================================================================== *)

(** [/\{"error".*\}/] *)
Definition re_error_object : regex :=
  Seq (Lit ("{" +:+ quoted "error")) (Seq (Star true (Set_ CDot)) (Lit "}")).

(** [String(error.message || error || "Unknown error")] for an [Error]:
    an error with an empty message prints as its name. *)
Definition error_text (e : JsError) : string :=
  if truthy (message e) then message e
  else if truthy (name e) then name e
  else EmptyString.

(** The first block of [formatError]: the verdict read from a JSON error
    object inside the message; [None] when the block returns nothing
    (no such object, a parse error, or no rule applies). *)
Definition formatError_json (msg : string) : option string :=
  if includes msg ("{" +:+ quoted "error") then
    match exec false re_error_object msg with
    | Some jsonMatch =>
        match Json.parse (f_text jsonMatch) with
        | Some parsed =>
            let err := Json.get_opt parsed "error" in
            let code := Json.get_opt err "code" in
            let status := Json.get_opt err "status" in
            if Json.is_number float_toString code "503"
               || Json.is_string status "UNAVAILABLE"
            then Some "🔄 Server Sibuk"
            else if Json.is_number float_toString code "429"
            then Some "⏳ Rate limit"
            else if Json.is_number float_toString code "400"
                    && includes msg "API key expired"
            then Some "🔑 API key expired"
            else if Json.is_number float_toString code "400"
                    && includes msg "API_KEY_INVALID"
            then Some "🔑 API key invalid"
            else if Json.is_number float_toString code "401"
            then Some "🔑 API key salah"
            else if Json.is_number float_toString code "404"
            then Some "❓ Model tidak ada"
            else None
        | None => None
        end
    | None => None
    end
  else None.

Definition formatError (error : JsError) : string :=
  let msg := error_text error in
  match formatError_json msg with
  | Some verdict => verdict
  | None =>
      if includes msg "503" || includes msg "overload"
         || includes msg "UNAVAILABLE"
      then "🔄 Server sibuk"
      else if includes msg "429" || includes msg "RESOURCE_EXHAUSTED"
              || includes msg "quota"
      then "⏳ Rate limit"
      else if includes msg "timeout" || includes msg "DEADLINE_EXCEEDED"
      then "⏰ Timeout"
      else if includes msg "API key expired"
      then "🔑 API key expired"
      else if includes msg "401" || includes msg "API_KEY"
              || includes msg "authentication"
      then "🔑 API key invalid"
      else if includes msg "404" || includes msg "not found"
      then "❓ Model tidak ada"
      else if includes msg "SAFETY" || includes msg "blocked"
      then "🚫 Diblokir safety"
      else if includes msg "ECONNREFUSED" || includes msg "network"
      then "📡 Network error"
      else if includes msg "Empty response" || includes msg "parse failure"
      then "📭 Jawaban kosong"
      else take 30 msg +:+
           (if 30 <? String.length msg then "..." else EmptyString)
  end.

(* ================================================================== *)
(** * Prompt builder *)
(* ================================================================== *)

(** The fixed text returned for a plain string. *)
Definition string_prompt : string :=
  Js.concat
    [ "You are a MikroTik certification exam expert operating in ";
      quoted "DEEP THINKING MODE"; "."; LF;
      LF;
      "PROTOCOL:"; LF;
      "1.  **Analyze**: Read the question and every single option carefully."; LF;
      "2.  **Evaluate**: For EACH option, write a detailed explanation why it is correct or incorrect."; LF;
      "3.  **Reasoning**: You MUST provide thorough reasoning (at least 5-10 sentences). Do NOT be lazy."; LF;
      "4.  **Conclusion**: Final Answer must be determined only after analysis."; LF;
      LF;
      "FORMAT:"; LF;
      "Reasoning:"; LF;
      "[Your detailed step-by-step analysis here...]"; LF;
      LF;
      "JSON:"; LF;
      "{"; quoted "answer"; ": "; quoted "A"; ", "; quoted "confidence"; ": 95}"; LF ].

Definition object_preamble : string :=
  Js.concat
    [ "You are a MikroTik certification exam expert."; LF; LF;
      "Goal: Provide the most accurate answer based on deep technical reasoning."; LF; LF;
      "INSTRUCTIONS:"; LF;
      "1. Analyze the Question: Identify key constraints (e.g., ";
        quoted "invalid"; ", "; quoted "not"; ", "; quoted "public IP"; ")."; LF;
      "2. Analyze Options: Evaluate each option's technical validity."; LF;
      "3. Chain of Thought: Explain your step-by-step reasoning."; LF;
      "4. Final Output: Return the answer in strictly valid JSON."; LF; LF ].

(** [`${opt.label}. ${opt.text}\n`] *)
Definition option_line (opt : QuestionOption) : string :=
  label opt +:+ ". " +:+ text opt +:+ LF.

Definition type_line (t : option string) : string :=
  match t with
  | Some "checkbox" =>
      LF +:+ "Type: CHECKBOX (select ALL correct answers)" +:+ LF
  | Some "select" => LF +:+ "Type: TRUE/FALSE" +:+ LF
  | _ => LF +:+ "Type: SINGLE CHOICE" +:+ LF
  end.

(** The block added when [input.options] is a non-empty array. *)
Definition options_block (input : QuestionInput) : string :=
  match options input with
  | Some (o :: os) =>
      "Options:" +:+ LF +:+ Js.concat (map option_line (o :: os))
      +:+ type_line (type input)
  | _ => EmptyString
  end.

Definition output_format : string :=
  Js.concat
    [ LF; "Output Format:"; LF;
      "First, write your "; quoted "Reasoning: ..."; " block."; LF;
      "Then, write "; DQ; "JSON: {"; quoted "answer"; ": "; quoted "...";
        ", "; quoted "confidence"; ": ...}"; DQ; " on a new line."; LF ].

Definition image_note (input : QuestionInput) : string :=
  match image input with
  | Some (String _ _) =>
      LF +:+ "[IMAGE DETECTED] An image is provided with this question. Analyze the image carefully." +:+ LF
  | _ => EmptyString
  end.

Definition buildPrompt (input : PromptInput) : string :=
  match input with
  | AsString _ => string_prompt
  | AsObject input =>
      object_preamble
      +:+ "Question: " +:+ question input +:+ LF
      +:+ options_block input
      +:+ output_format
      +:+ image_note input
  end.

(* ================================================================== *)
(** * Response extraction *)
(* ================================================================== *)

(** What [extractText] looks at in a provider response: the [text]
    member (a string, or a function that returns a string or throws, or
    anything else) and [candidates[0].content.parts[0].text]. *)
Inductive TextMember : Type :=
| TextString (s : string)
| TextFunction (returns : option string)
| TextOther.

Record Response : Type := {
  resp_text : TextMember;
  resp_candidate_text : option string
}.

(** [string | null]; an exception inside is caught and gives [null]. *)
Definition extractText (response : Response) : option string :=
  match resp_text response with
  | TextString s => Some s
  | TextFunction r => r
  | TextOther =>
      match resp_candidate_text response with
      | Some (String c t) => Some (String c t)
      | _ => None
      end
  end.

(* ================================================================== *)
(** * Parse answer with confidence *)
(* ================================================================== *)

Record ParsedAnswer : Type := {
  pa_answer : string;
  pa_confidence : Z
}.

(** [/```json\n?|\n?```/g] *)
Definition re_fence_lines : regex :=
  Alt (Seq (Lit "```json") (Opt (Lit LF))) (Seq (Opt (Lit LF)) (Lit "```")).
(** [/\{[\s\S]*?"answer"[\s\S]*?\}/] *)
Definition re_answer_object : regex :=
  Seq (Lit "{") (Seq (any_text false)
    (Seq (Lit (quoted "answer")) (Seq (any_text false) (Lit "}")))).
(** [/```json|```/g] *)
Definition re_fence : regex := Alt (Lit "```json") (Lit "```").
(** [/^(true|false)$/i] *)
Definition re_boolean : regex :=
  Seq Bol (Seq (Group 1 (Alt (Lit "true") (Lit "false"))) Eol).
(** [/^\s*([A-F])(?:\s*[,\s]\s*([A-F]))*\s*$/i] *)
Definition re_letters_only : regex :=
  Seq Bol (Seq spaces (Seq (Group 1 letter_A_F)
    (Seq (Star true
            (Seq spaces (Seq (Set_ (CUnion (CChar ",") CSpace))
              (Seq spaces (Group 2 letter_A_F)))))
         (Seq spaces Eol)))).
(** [/[A-F]/g] *)
Definition re_letter : regex := letter_A_F.
(** [/(?:answer|jawaban|option)\s*:?\s*(\*+)?\s*(G2)(?:T)/i] where the
    second group [G2] is [[A-F](?:,\s*[A-F])*] and the alternation [T]
    is white space, the end of the input, or a star. *)
Definition re_answer_phrase : regex :=
  Seq (Alt (Lit "answer") (Alt (Lit "jawaban") (Lit "option")))
    (Seq spaces (Seq (Opt (Lit ":")) (Seq spaces
      (Seq (Opt (Group 1 (Plus true (Lit "*")))) (Seq spaces
        (Seq (Group 2 (Seq letter_A_F
                (Star true (Seq (Lit ",") (Seq spaces letter_A_F)))))
             (Alt (Set_ CSpace) (Alt Eol (Lit "*"))))))))).

(** [Math.min(100, Math.max(0, n || 50))] *)
Definition clamp_confidence (n : option Z) : Z :=
  Z.min 100 (Z.max 0 (Json.or_number n 50)).

(** The object literal both JSON branches return:
    [{ answer: String(parsed.answer || "").toUpperCase(),
       confidence: Math.min(100, Math.max(0, parseInt(parsed.confidence) || 50)) }];
    [None] when evaluating it throws. *)
Definition answer_of_json (parsed : Json.value) : option ParsedAnswer :=
  match Json.get parsed "answer" with
  | None => None
  | Some a =>
      let a' := if Json.truthy_value float_toString a then a
                else Json.Str EmptyString in
      match Json.toString float_toString a' with
      | None => None
      | Some s =>
          match Json.parseInt float_toString
                  (Json.get_opt parsed "confidence") with
          | None => None
          | Some n =>
              Some {| pa_answer := toUpperCase s;
                      pa_confidence := clamp_confidence n |}
          end
      end
  end.

(** [[...new Set(letters)].sort().join(", ")] *)
Definition letter_set (letters : list string) : string :=
  join ", " (sort_strings (unique letters)).

(** The first [try] block: the whole text, fences removed, as JSON. *)
Definition parse_whole (text : string) : option ParsedAnswer :=
  match Json.parse (trim (replace_all false re_fence_lines EmptyString text)) with
  | Some parsed => answer_of_json parsed
  | None => None
  end.

(** The second block: the first match of [re_answer_object] as JSON. *)
Definition parse_embedded (text : string) : option ParsedAnswer :=
  match exec false re_answer_object text with
  | Some jsonMatch =>
      match Json.parse
              (trim (replace_all false re_fence EmptyString (f_text jsonMatch))) with
      | Some parsed => answer_of_json parsed
      | None => None
      end
  | None => None
  end.

(** The fallbacks after the two JSON blocks, in the order of the
    source: boolean word, letters only, answer phrase, short text. *)
Definition parse_boolean (text : string) : option ParsedAnswer :=
  if test true re_boolean text
  then Some {| pa_answer := toLowerCase text; pa_confidence := 85 |}
  else None.

Definition parse_letters_only (text : string) : option ParsedAnswer :=
  match exec true re_letters_only text with
  | Some _ =>
      match match_all false re_letter (toUpperCase text) with
      | Some letters =>
          if (0 <? length letters) && (length letters <=? 6)
          then Some {| pa_answer := letter_set letters; pa_confidence := 70 |}
          else None
      | None => None
      end
  | None => None
  end.

Definition parse_answer_phrase (text : string) : option ParsedAnswer :=
  match exec true re_answer_phrase text with
  | Some textAnswerMatch =>
      match capture 2 (f_caps textAnswerMatch) with
      | Some group2 =>
          match match_all false re_letter (toUpperCase group2) with
          | Some letters =>
              Some {| pa_answer := letter_set letters; pa_confidence := 65 |}
          | None => None
          end
      | None => None
      end
  | None => None
  end.

Definition parse_short_text (text : string) : option ParsedAnswer :=
  if String.length text <=? 10 then
    match match_all false re_letter (toUpperCase text) with
    | Some letters =>
        if (0 <? length letters) && (length letters <=? 4)
        then Some {| pa_answer := letter_set letters; pa_confidence := 60 |}
        else None
    | None => None
    end
  else None.

Definition first_of (l : list (option ParsedAnswer))
  : option ParsedAnswer :=
  fold_right (fun x acc => match x with Some p => Some p | None => acc end)
             None l.

Definition parseAnswerWithConfidence (rawText : option string)
  : ParsedAnswer :=
  match rawText with
  | None | Some EmptyString =>
      {| pa_answer := EmptyString; pa_confidence := 50 |}
  | Some rawText =>
      let text := trim rawText in
      match first_of [ parse_whole text; parse_embedded text;
                       parse_boolean text; parse_letters_only text;
                       parse_answer_phrase text; parse_short_text text ] with
      | Some p => p
      | None => {| pa_answer := EmptyString; pa_confidence := 0 |}
      end
  end.

(* ================================================================== *)
(** * Single model call, with retry *)
(* ================================================================== *)

(** The request handed to [generateContent]; the generation settings
    and the safety settings are constants and are left out. *)
Record GenerateContentRequest : Type := {
  gc_model : string;
  gc_prompt : string;
  gc_image : option string
}.

Inductive Attempt : Type :=
| Rejects (err : JsError)
| Resolves (response : Response).

(** The provider: what the [attempt]-th call with a request gives. *)
Definition Provider : Type := GenerateContentRequest -> nat -> Attempt.

(** What a call does besides returning: provider calls and waits. *)
Inductive Event : Type :=
| Called (request : GenerateContentRequest) (attempt : nat)
| Slept (ms : Z).

(** [/^data:image\/\w+;base64,/] *)
Definition re_data_header : regex :=
  Seq Bol (Seq (Lit "data:image/") (Seq (Plus true (Set_ CWord)) (Lit ";base64,"))).

Definition make_request (model prompt : string) (imageBase64 : option string)
  : GenerateContentRequest :=
  {| gc_model := model;
     gc_prompt := prompt;
     gc_image :=
       match imageBase64 with
       | Some (String c t) =>
           Some (replace_first false re_data_header EmptyString (String c t))
       | _ => None
       end |}.

Section SingleModel.
Variable provider : Provider.
Variables (model prompt : string) (imageBase64 : option string).
Variable retries : nat.

(** The body of the [try] block: the result it returns, or the error
    it throws. *)
Definition try_attempt (attempt : nat) : ModelResult + JsError :=
  match provider (make_request model prompt imageBase64) attempt with
  | Rejects err => inr err
  | Resolves response =>
      let rawText := extractText response in
      let parsed := parseAnswerWithConfidence rawText in
      match rawText with
      | Some raw =>
          if truthy raw && truthy (trim raw) && truthy (pa_answer parsed)
          then inl (Success (pa_answer parsed) (pa_confidence parsed) model raw)
          else inr (new_Error "Empty response or parse failure")
      | None => inr (new_Error "Empty response or parse failure")
      end
  end.

Definition isOverload (err : JsError) : bool :=
  includes (message err) "503" || includes (message err) "429"
  || includes (message err) "Overload".

(** The [for] loop from [attempt] on; [left] counts the iterations
    that remain, [retries - attempt + 1]. *)
Fixpoint attempts_from (left : nat) (attempt : nat)
  : ModelResult * list Event :=
  let call := Called (make_request model prompt imageBase64) attempt in
  match left with
  | O => (Failure model "Unknown error", [])
  | S left' =>
      match try_attempt attempt with
      | inl result => (result, [call])
      | inr err =>
          let isLastAttempt := Nat.eqb attempt retries in
          if isLastAttempt then
            (Failure model
               (if isOverload err then "Server Overload (Max Retries)"
                else formatError err),
             [call])
          else
            let waitTime :=
              if isOverload err then (2000 * Z.of_nat attempt)%Z
              else (1000 * Z.of_nat attempt)%Z in
            let (result, events) := attempts_from left' (S attempt) in
            (result, call :: Slept waitTime :: events)
      end
  end.

Definition callSingleModel : ModelResult * list Event :=
  attempts_from retries 1.
End SingleModel.

(* ================================================================== *)
(** * Answer normalization *)
(* ================================================================== *)

(** [/[\s,]+/] *)
Definition re_separators : regex :=
  Plus true (Set_ (CUnion CSpace (CChar ","))).
(** [/^[A-Z]$/] *)
Definition re_one_capital : regex :=
  Seq Bol (Seq (Set_ (CRange "A" "Z")) Eol).

Definition normalizeAnswer (answer : option string) : list string :=
  match answer with
  | None | Some EmptyString => []
  | Some answer =>
      let upperAnswer := trim (toUpperCase answer) in
      if String.eqb upperAnswer "TRUE" || String.eqb upperAnswer "FALSE"
      then [toLowerCase upperAnswer]
      else
        let labels :=
          filter (fun s => test false re_one_capital s = true)
                 (map trim (split false re_separators upperAnswer)) in
        sort_strings (unique labels)
  end.

(* ================================================================== *)
(** * Vote tallies shared by the two voting functions *)
(* ================================================================== *)

(** The value type of [answerCounts] and [voteCounts]. *)
Record VoteCount : Type := {
  vc_count : nat;
  vc_totalConfidence : Z;
  vc_models : list string
}.

Definition no_votes : VoteCount :=
  {| vc_count := 0; vc_totalConfidence := 0; vc_models := [] |}.

(** [d[key].count++; d[key].totalConfidence += c; d[key].models.push(m)] *)
Definition add_vote (c : Z) (m : string) (v : VoteCount) : VoteCount :=
  {| vc_count := S (vc_count v);
     vc_totalConfidence := (vc_totalConfidence v + c)%Z;
     vc_models := vc_models v ++ [m] |}.

(** An element of [sortedAnswers] and [sortedVotes]. *)
Record RankedAnswer : Type := {
  ra_answer : string;
  ra_count : nat;
  ra_avgConfidence : Z;
  ra_models : list string
}.

Definition rank (entry : string * VoteCount) : RankedAnswer :=
  {| ra_answer := fst entry;
     ra_count := vc_count (snd entry);
     ra_avgConfidence :=
       round_div (vc_totalConfidence (snd entry)) (vc_count (snd entry));
     ra_models := vc_models (snd entry) |}.

(** The comparator [(a, b) => b.count !== a.count ? b.count - a.count
    : b.avgConfidence - a.avgConfidence] is at most zero. *)
Definition ranked_before (a b : RankedAnswer) : bool :=
  if negb (Nat.eqb (ra_count b) (ra_count a))
  then ra_count b <=? ra_count a
  else (ra_avgConfidence b <=? ra_avgConfidence a)%Z.

Definition sort_ranked (d : list (string * VoteCount)) : list RankedAnswer :=
  sort ranked_before (map rank (entries d)).

(* ================================================================== *)
(** * Confidence-weighted voting ([_confidenceWeightedVote]) *)
(* ================================================================== *)

(** A successful result with the [unreliable] mark of step 1. *)
Record MarkedResult : Type := {
  mr_answer : string;
  mr_confidence : Z;
  mr_model : string;
  mr_unreliable : bool
}.

(** Step 1: a result that names four labels or more is capped at 40. *)
Definition mark (r : ModelResult) : option MarkedResult :=
  match r with
  | Success a c m _ =>
      let labels := normalizeAnswer (Some a) in
      if 4 <=? length labels
      then Some {| mr_answer := a; mr_confidence := Z.min c 40;
                   mr_model := m; mr_unreliable := true |}
      else Some {| mr_answer := a; mr_confidence := c;
                   mr_model := m; mr_unreliable := false |}
  | Failure _ _ => None
  end.

Definition reliableResults (modelResults : list ModelResult)
  : list MarkedResult :=
  omap mark modelResults.

(** Step 2: the tally, keyed by [r.answer.toUpperCase().trim()]. These
    keys hold no small letter, so that none is the name of a member of
    [Object.prototype]: every lookup is one of the object's own
    properties. *)
Definition answerCounts (rs : list MarkedResult) : list (string * VoteCount) :=
  fold_left
    (fun d r =>
       upsert (trim (toUpperCase (mr_answer r))) no_votes
              (add_vote (mr_confidence r) (mr_model r)) d)
    rs [].

(** [l.reduce((a, b) => a.confidence > b.confidence ? a : b)] *)
Definition best_marked (first : MarkedResult) (others : list MarkedResult)
  : MarkedResult :=
  fold_left
    (fun a b => if (mr_confidence b <? mr_confidence a)%Z then a else b)
    others first.

Definition summary (a : RankedAnswer) : string * VoteSummary :=
  (ra_answer a,
   {| vs_count := ra_count a; vs_avgConfidence := ra_avgConfidence a |}).

Definition _confidenceWeightedVote (modelResults : list ModelResult)
  : VotingResult + JsError :=
  match filter (fun r => success r = true) modelResults with
  | [] => inr (new_Error "All models failed in ensemble")
  | [Failure _ _] => inr (new_Error "All models failed in ensemble")
  | [Success a c m _] =>
      inl {| finalAnswer := a;
             finalConfidence := c;
             votes := Some [(a, {| vs_count := 1; vs_avgConfidence := c |})];
             modelAnswers :=
               Some [{| ma_model := m; ma_answer := a; ma_confidence := c |}];
             method := "single" |}
  | successfulResults =>
      let reliable := reliableResults successfulResults in
      let sortedAnswers := sort_ranked (answerCounts reliable) in
      let primary (i : nat) :=
        find (fun r => String.eqb (mr_model r) (MODELS_at i)
                       && negb (mr_unreliable r)) reliable in
      let decision : option (string * Z * string) :=
        match sortedAnswers with
        | topAnswer :: _ =>
            if 2 <=? ra_count topAnswer
            then Some (ra_answer topAnswer, ra_avgConfidence topAnswer,
                       "consensus")
            else None
        | [] => None
        end in
      let decision :=
        match decision with
        | Some d => Some d
        | None =>
            match primary 0, primary 1, reliable with
            | Some r, _, _ => Some (mr_answer r, mr_confidence r, "primary")
            | None, Some r, _ =>
                Some (mr_answer r, mr_confidence r, "secondary")
            | None, None, r :: rs =>
                let best := best_marked r rs in
                Some (mr_answer best, mr_confidence best, "fallback")
            | None, None, [] => None
            end
        end in
      match decision with
      | Some (a, c, m) =>
          inl {| finalAnswer := a;
                 finalConfidence := c;
                 votes := Some (map summary sortedAnswers);
                 modelAnswers :=
                   Some (map (fun r =>
                           {| ma_model :=
                                mr_model r +:+
                                (if mr_unreliable r then " ⚠️"
                                 else EmptyString);
                              ma_answer := mr_answer r;
                              ma_confidence := mr_confidence r |}) reliable);
                 method := m |}
      | None => inr (new_Error "Reduce of empty array with no initial value")
      end
  end.

(* ================================================================== *)
(** * Ensemble call, judge mode *)
(* ================================================================== *)

(** [/^TRUE$/i] and [/^FALSE$/i] *)
Definition re_TRUE : regex := Seq Bol (Seq (Lit "TRUE") Eol).
Definition re_FALSE : regex := Seq Bol (Seq (Lit "FALSE") Eol).

Definition option_says (word : string) (o : QuestionOption) : bool :=
  String.eqb (trim (toLowerCase (text o))) word.

(** The local function [normalize] of [callGeminiEnsemble]. *)
Definition normalize (ans : option string) (opts : list QuestionOption)
  : string :=
  match ans with
  | None | Some EmptyString => EmptyString
  | Some ans =>
      let a := toUpperCase (trim ans) in
      if test true re_TRUE a then "true"
      else if test true re_FALSE a then "false"
      else
        let true_false : option string :=
          if Nat.eqb (length opts) 2 then
            let optTexts := map (fun o => trim (toLowerCase (text o))) opts in
            let isTrueFalseQuestion :=
              existsb (String.eqb "true") optTexts
              || existsb (String.eqb "false") optTexts in
            if isTrueFalseQuestion then
              let trueOpt := find (option_says "true") opts in
              let falseOpt := find (option_says "false") opts in
              let labelled (o : option QuestionOption) (l : string) :=
                match o with
                | Some o => String.eqb (label o) l
                | None => false
                end in
              if String.eqb a "A" && labelled trueOpt "A" then Some "true"
              else if String.eqb a "A" && labelled falseOpt "A" then Some "false"
              else if String.eqb a "B" && labelled trueOpt "B" then Some "true"
              else if String.eqb a "B" && labelled falseOpt "B" then Some "false"
              else None
            else None
          else None in
        match true_false with
        | Some w => w
        | None =>
            match match_all false re_letter a with
            | Some letters => letter_set letters
            | None =>
                match find (fun o => truthy (text o)
                                     && String.eqb (toLowerCase (trim (text o)))
                                                   (toLowerCase a)) opts with
                | Some exact => label exact
                | None => a
                end
            end
        end
  end.

(** [results.map(r => r.success ? normalize(r.answer, options) : null)] *)
Definition normalizedAnswers (results : list ModelResult)
    (opts : list QuestionOption) : list (option string) :=
  map (fun r => if success r then Some (normalize (answer r) opts) else None)
      results.

(** The tally: every successful result with a non-empty normalized
    answer votes for that answer. [voteCounts] is an object literal: for
    an answer that is the name of a member of [Object.prototype] the
    test [!voteCounts[ans]] finds the inherited member and creates no
    property, [count] and [totalConfidence] are written on that member
    (nothing reads them there), and [voteCounts[ans].models.push] throws
    a [TypeError], which ends the loop and the round. *)
Definition voteCounts (results : list ModelResult)
    (opts : list QuestionOption) : list (string * VoteCount) + JsError :=
  fold_left
    (fun d ri =>
       match d, ri with
       | inl d, (Success _ c m _, Some (String x y)) =>
           if inherited (String x y) then inr (cannot_read "undefined" "push")
           else inl (upsert (String x y) no_votes (add_vote c m) d)
       | _, _ => d
       end)
    (combine results (normalizedAnswers results opts)) (inl []).

Definition sortedVotes (voteCounts : list (string * VoteCount))
  : list RankedAnswer :=
  sort_ranked voteCounts.

(** [(a, b) => b.confidence - a.confidence] is at most zero. *)
Definition confident_before (a b : ModelResult) : bool :=
  match confidence a, confidence b with
  | Some ca, Some cb => (cb <=? ca)%Z
  | _, _ => true
  end.

(** [results.filter(r => r.success).sort(..)[0]] *)
Definition best_worker (results : list ModelResult) : option ModelResult :=
  head (sort confident_before (filter (fun r => success r = true) results)).

Definition plain_result (a : string) (c : Z) (m : string) : VotingResult :=
  {| finalAnswer := a; finalConfidence := c;
     votes := None; modelAnswers := None; method := m |}.

Definition workers : list string := [MODELS_at 0; MODELS_at 1; MODELS_at 2].

Definition callGeminiEnsemble (provider : Provider) (prompt : string)
    (opts : list QuestionOption) (imageBase64 : option string)
  : (VotingResult + JsError) * list Event :=
  let calls :=
    map (fun model => callSingleModel provider model prompt imageBase64 3)
        workers in
  let results := map fst calls in
  let events := List.concat (map snd calls) in
  match voteCounts results opts with
  | inr thrown => (inr thrown, events)
  | inl voteCounts =>
      let majority :=
        match sortedVotes voteCounts with
        | topVote :: _ =>
            if 2 <=? ra_count topVote
            then Some (plain_result (ra_answer topVote)
                         (ra_avgConfidence topVote)
                         (if Nat.eqb (ra_count topVote) 3 then "unanimous"
                          else "majority"))
            else None
        | [] => None
        end in
      match majority with
      | Some v => (inl v, events)
      | None =>
          let (judgeResult, judgeEvents) :=
            callSingleModel provider (MODELS_at 3) prompt imageBase64 3 in
          let events := events ++ judgeEvents in
          match judgeResult with
          | Success a c _ _ => (inl (plain_result a c "judge"), events)
          | Failure _ _ =>
              match best_worker results with
              | Some (Success a c _ _) =>
                  (inl (plain_result a c "fallback_worker"), events)
              | _ =>
                  (inr (new_Error "All models failed including Judge"),
                   events)
              end
          end
      end
  end.

(* ================================================================== *)
(** * Failover call (the branch for [ENSEMBLE_MODE = false]) *)
(* ================================================================== *)

Fixpoint failover_from (provider : Provider) (prompt : string)
    (imageBase64 : option string) (models : list string)
  : (ModelResult + JsError) * list Event :=
  match models with
  | [] => (inr (new_Error "All models failed"), [])
  | model :: rest =>
      let (result, events) :=
        callSingleModel provider model prompt imageBase64 3 in
      if success result then (inl result, events)
      else
        let (r, ev) := failover_from provider prompt imageBase64 rest in
        (r, events ++ ev)
  end.

Definition callGeminiWithFailover (provider : Provider) (prompt : string)
    (imageBase64 : option string) : (ModelResult + JsError) * list Event :=
  failover_from provider prompt imageBase64 MODELS.

(* ================================================================== *)
(** * Request processing and the handler *)
(* ================================================================== *)

(** The module state: the answer cache and the request counter. *)
Record ServerState : Type := {
  recentAnswers : gmap string CacheEntry;
  requestCounter : nat
}.

(** [Date.now()]: the readings of the clock while one request is
    handled, in the order they are taken. *)
Definition Clock : Type := nat -> Z.

Record Processed : Type := {
  p_answer : string;
  p_duration : Z;
  p_confidence : Z
}.

Definition options_of (rawPrompt : PromptInput) : list QuestionOption :=
  match rawPrompt with
  | AsObject q => default [] (options q)
  | AsString _ => []
  end.

(** [rawPrompt.image] when it is a non-empty string. *)
Definition image_of (rawPrompt : PromptInput) : option string :=
  match rawPrompt with
  | AsObject q =>
      match image q with
      | Some (String c t) => Some (String c t)
      | _ => None
      end
  | AsString _ => None
  end.

(** [processRequestDirectly(key, rawPrompt, startTime)]; [tick] is the
    number of clock readings taken before the call. The result is the
    returned record or the error thrown, the new state, and the provider
    calls that were made. *)
Definition processRequestDirectly (provider : Provider) (clock : Clock)
    (tick : nat) (st : ServerState) (key : string) (rawPrompt : PromptInput)
    (startTime : Z) : (Processed + JsError) * ServerState * list Event :=
  let st1 := {| recentAnswers := recentAnswers st;
                requestCounter := S (requestCounter st) |} in
  let prompt := buildPrompt rawPrompt in
  let opts := options_of rawPrompt in
  let image := image_of rawPrompt in
  let resolved : (string * Z + JsError) * list Event :=
    if ENSEMBLE_MODE then
      match callGeminiEnsemble provider prompt opts image with
      | (inl voting, ev) => (inl (finalAnswer voting, finalConfidence voting), ev)
      | (inr e, ev) => (inr e, ev)
      end
    else
      match callGeminiWithFailover provider prompt image with
      | (inl (Success a c _ _), ev) => (inl (a, c), ev)
      | (inl (Failure _ _), ev) => (inr (new_Error "All models failed"), ev)
      | (inr e, ev) => (inr e, ev)
      end in
  match resolved with
  | (inl (finalAnswer, confidence), ev) =>
      let duration := (clock tick - startTime)%Z in
      let st2 :=
        {| recentAnswers :=
             <[ key := {| ce_answer := finalAnswer; ce_ts := clock (S tick) |} ]>
               (recentAnswers st1);
           requestCounter := requestCounter st1 |} in
      (inl {| p_answer := finalAnswer; p_duration := duration;
              p_confidence := confidence |}, st2, ev)
  | (inr err, ev) => (inr err, st1, ev)
  end.

(** [JSON.stringify] of a string. *)
Definition hex_char (n : nat) : ascii :=
  if n <? 10 then ascii_of_nat (48 + n) else ascii_of_nat (87 + n).

Fixpoint quote_chars (s : string) : string :=
  match s with
  | EmptyString => EmptyString
  | String c t =>
      (if Ascii.eqb c dquote then "\" +:+ DQ
       else if Ascii.eqb c "\" then "\\"
       else if code c =? 8 then "\b"
       else if code c =? 12 then "\f"
       else if code c =? 10 then "\n"
       else if code c =? 13 then "\r"
       else if code c =? 9 then "\t"
       else if code c <? 32 then
         "\u00" +:+ String (hex_char (code c / 16))
                      (String (hex_char (code c mod 16)) EmptyString)
       else String c EmptyString)
      +:+ quote_chars t
  end.

Definition stringify_string (s : string) : string :=
  DQ +:+ quote_chars s +:+ DQ.

(** [JSON.stringify(input.options)], the options being objects with the
    members [label] and [text] in this order; [undefined] when there are
    no options, which the concatenation prints as a word. *)
Definition stringify_options (o : option (list QuestionOption)) : string :=
  match o with
  | None => "undefined"
  | Some l =>
      "[" +:+
      join ","
        (map (fun o => "{" +:+ quoted "label" +:+ ":" +:+ stringify_string (label o)
                       +:+ "," +:+ quoted "text" +:+ ":" +:+ stringify_string (text o)
                       +:+ "}") l)
      +:+ "]"
  end.

(** The prompt as the handler keeps it, and the cache key. *)
Definition rawPrompt_of (input : PromptInput) : PromptInput :=
  match input with
  | AsString s => AsString (trim s)
  | AsObject q => AsObject q
  end.

Definition cache_key (input : PromptInput) : string :=
  match input with
  | AsString s => normalizePrompt (trim s)
  | AsObject q =>
      normalizePrompt (question q) +:+ "_" +:+ stringify_options (options q)
  end.

(** A request: its method and path, and what [await req.json()] followed
    by [body.prompt] gives: an exception, or the prompt ([None] when the
    member is missing). *)
Record Request : Type := {
  req_method : string;
  req_path : string;
  req_prompt : JsError + option PromptInput
}.

Inductive ResponseBody : Type :=
| NoBody
| Health (ok ensemble : bool) (confidenceThreshold : Z) (queue cache : nat)
| CachedAnswer (answer : string) (responseTimeMs : Z)
| FreshAnswer (answer : string) (responseTimeMs confidence : Z) (ensemble : bool)
| ErrorBody (error : string)
| TextBody (content : string).

Record HttpResponse : Type := {
  status : nat;
  body : ResponseBody
}.

(** [!input] *)
Definition missing_prompt (input : option PromptInput) : bool :=
  match input with
  | None | Some (AsString EmptyString) => true
  | Some _ => false
  end.

(** The route [POST /ask] from [vacuum()] on. *)
Definition ask (provider : Provider) (clock : Clock) (st : ServerState)
    (input : PromptInput) : HttpResponse * ServerState * list Event :=
  let rawPrompt := rawPrompt_of input in
  let key := cache_key input in
  let st1 := {| recentAnswers := vacuum (clock 0) (recentAnswers st);
                requestCounter := requestCounter st |} in
  let fresh (tick : nat) :=
    let startTime := clock tick in
    match processRequestDirectly provider clock (S tick) st1 key rawPrompt
            startTime with
    | (inl p, st2, ev) =>
        ({| status := 200;
            body := FreshAnswer (p_answer p) (p_duration p) (p_confidence p)
                      ENSEMBLE_MODE |}, st2, ev)
    | (inr e, st2, ev) =>
        ({| status := 400;
            body := ErrorBody (if truthy (message e) then message e
                               else "Invalid JSON") |}, st2, ev)
    end in
  match recentAnswers st1 !! key with
  | Some cached =>
      if (clock 1%nat - ce_ts cached <=? TTL_MS)%Z
      then ({| status := 200; body := CachedAnswer (ce_answer cached) 0%Z |},
            st1, [])
      else fresh 2
  | None => fresh 1
  end.

Definition handler (provider : Provider) (clock : Clock) (st : ServerState)
    (req : Request) : HttpResponse * ServerState * list Event :=
  if String.eqb (req_method req) "OPTIONS" then
    ({| status := 204; body := NoBody |}, st, [])
  else if String.eqb (req_method req) "GET"
          && (String.eqb (req_path req) "/health"
              || String.eqb (req_path req) "/") then
    ({| status := 200;
        body := Health true ENSEMBLE_MODE CONFIDENCE_THRESHOLD 0
                  (size (recentAnswers st)) |}, st, [])
  else if String.eqb (req_method req) "POST"
          && String.eqb (req_path req) "/ask" then
    match req_prompt req with
    | inl e =>
        ({| status := 400;
            body := ErrorBody (if truthy (message e) then message e
                               else "Invalid JSON") |}, st, [])
    | inr input =>
        match input with
        | Some (AsString EmptyString) | None =>
            ({| status := 400; body := ErrorBody "Prompt kosong." |}, st, [])
        | Some input => ask provider clock st input
        end
    end
  else ({| status := 404; body := TextBody "Not Found" |}, st, []).

End Server.

(* ================================================================== *)
(** * The REST variant ([src/unnamed/part_000], first file) *)
(* ================================================================== *)

Module Rest.

(** What [fetch] gives: a rejection, or a response with [ok], [status],
    its body as text, and the message of the error that [response.json()]
    rejects with when the body is not JSON. *)
Inductive FetchOutcome : Type :=
| FetchRejects (err : JsError)
| FetchResponds (ok : bool) (status : nat) (bodyText : string)
                (jsonError : string).

Definition Fetch : Type := GenerateContentRequest -> FetchOutcome.

(** The result record: [answer] is whatever the response holds as the
    text of the first part (any JSON value), [confidence] is 0. *)
Inductive RestResult : Type :=
| RestSuccess (answer : Json.value) (model : string)
| RestFailure (model : string) (error : string).

(** [v?.[0]] *)
Definition first_element (v : Json.value) : Json.value :=
  match v with
  | Json.Array (x :: _) => x
  | Json.Str (String c _) => Json.Str (String c EmptyString)
  | Json.Object ms => default Json.Undefined (Json.last_member "0" ms)
  | _ => Json.Undefined
  end.

Section Rest.
Variable float_toString : string -> string.

(** [data.candidates?.[0]?.content?.parts?.[0]?.text || ""] *)
Definition candidate_text (data : Json.value) : Json.value :=
  let t :=
    Json.get_opt
      (first_element
         (Json.get_opt
            (Json.get_opt (first_element (Json.get_opt data "candidates"))
                          "content")
            "parts"))
      "text" in
  if Json.truthy_value float_toString t then t else Json.Str EmptyString.

Definition callGeminiREST (apiKey : option string) (fetch : Fetch)
    (model prompt : string) (imageBase64 : option string)
  : RestResult * list Event :=
  match apiKey with
  | None | Some EmptyString => (RestFailure model "Missing API Key", [])
  | Some _ =>
      let request := make_request model prompt imageBase64 in
      (match fetch request with
       | FetchRejects e =>
           if String.eqb (name e) "AbortError"
           then RestFailure model "Timeout (15s limit)"
           else RestFailure model (message e)
       | FetchResponds ok status bodyText jsonError =>
           if negb ok then
             RestFailure model
               ("API Error " +:+ pretty status +:+ ": " +:+ bodyText)
           else
             match Json.parse bodyText with
             | None => RestFailure model jsonError
             | Some Json.Null =>
                 RestFailure model (message (cannot_read "null" "candidates"))
             | Some data => RestSuccess (candidate_text data) model
             end
       end, [Called request 1])
  end.
End Rest.

Definition rest_preamble : string :=
  Js.concat
    [ "You are a MikroTik certification exam expert operating in ";
      quoted "DEEP THINKING MODE"; "."; LF; LF;
      "PROTOCOL:"; LF;
      "1. Analyze: Read the question and every single option carefully (and image if provided)."; LF;
      "2. Evaluate: For EACH option, write a detailed explanation."; LF;
      "3. Conclusion: Final Answer must be determined only after analysis."; LF; LF ].

Definition rest_output_format : string :=
  Js.concat
    [ LF; "Output Format:"; LF;
      "Reasoning:"; LF; "[Your detailed analysis...]"; LF; LF;
      "JSON:"; LF;
      "{"; quoted "answer"; ": "; quoted "A"; ", "; quoted "confidence"; ": 95}"; LF ].

Definition buildPrompt (input : PromptInput) : string :=
  match input with
  | AsString s => s
  | AsObject input =>
      rest_preamble
      +:+ "Question: " +:+ question input +:+ LF
      +:+ Js.concat (map option_line (default [] (options input)))
      +:+ rest_output_format
  end.

End Rest.

(* ================================================================== *)
(** * Vocabulary of the statements *)
(* ================================================================== *)

(** The key under which [voteCounts] tallies a result, if it does. *)
Definition vote_key (opts : list QuestionOption) (r : ModelResult)
  : option string :=
  match r with
  | Success a _ _ _ =>
      if truthy (normalize (Some a) opts)
      then Some (normalize (Some a) opts) else None
  | Failure _ _ => None
  end.

(** No result is tallied under the name of a member of
    [Object.prototype]: the tally runs to its end. *)
Definition ordinary_keys (opts : list QuestionOption)
    (results : list ModelResult) : bool :=
  forallb (fun r => match vote_key opts r with
                    | Some key => negb (inherited key)
                    | None => true
                    end) results.

(** The results whose normalized answer is [key]. *)
Definition supporters (key : string) (results : list ModelResult)
    (opts : list QuestionOption) : list ModelResult :=
  filter (fun r => vote_key opts r = Some key) results.

(** The confidence of a result (0 for a failure, which has none). *)
Definition conf (r : ModelResult) : Z := default 0%Z (confidence r).

Definition confidence_sum (l : list ModelResult) : Z :=
  fold_right (fun r acc => (conf r + acc)%Z) 0%Z l.

Definition tally_of (l : list ModelResult) : VoteCount :=
  {| vc_count := length l;
     vc_totalConfidence := confidence_sum l;
     vc_models := map model l |}.

Definition tally_opt (l : list ModelResult) : option VoteCount :=
  match l with [] => None | _ => Some (tally_of l) end.

(** The results of the three workers of one round, in roster order. *)
Definition worker_results (float_toString : string -> string)
    (provider : Provider) (prompt : string) (imageBase64 : option string)
  : list ModelResult :=
  map (fun model =>
         fst (callSingleModel float_toString provider model prompt imageBase64 3))
      workers.

(** The result of the judge, were it called. *)
Definition judge_result (float_toString : string -> string)
    (provider : Provider) (prompt : string) (imageBase64 : option string)
  : ModelResult :=
  fst (callSingleModel float_toString provider (MODELS_at 3) prompt
         imageBase64 3).

(** The decision of a round once the tally [d] is made, from the worker
    results and the result of the judge. *)
Definition last_resort (results : list ModelResult) (judge : ModelResult)
  : VotingResult + JsError :=
  match judge, best_worker results with
  | Success a c _ _, _ => inl (plain_result a c "judge")
  | Failure _ _, Some (Success a c _ _) =>
      inl (plain_result a c "fallback_worker")
  | Failure _ _, _ => inr (new_Error "All models failed including Judge")
  end.

Definition after_tally (results : list ModelResult) (judge : ModelResult)
    (d : list (string * VoteCount)) : VotingResult + JsError :=
  match sortedVotes d with
  | topVote :: _ =>
      if 2 <=? ra_count topVote
      then inl (plain_result (ra_answer topVote) (ra_avgConfidence topVote)
                  (if Nat.eqb (ra_count topVote) 3 then "unanimous"
                   else "majority"))
      else last_resort results judge
  | [] => last_resort results judge
  end.

(** What a parser may answer on [s] with [fuel]: a rest shorter than
    [s], a syntax error, or a lack of fuel when [fuel] is below [need]. *)
Definition sound (r : Json.result Json.value) (s : string) (need fuel : nat) : Prop :=
  match r with
  | Json.Parsed _ rest => String.length rest < String.length s
  | Json.SyntaxError => True
  | Json.OutOfFuel => fuel < need
  end.


(** The attempt numbers of the provider calls in a trace. *)
Definition attempts_made (events : list Event) : list nat :=
  omap (fun ev => match ev with
                  | Called _ k => Some k
                  | Slept _ => None
                  end) events.

(** The envelope [callSingleModel] returns when the last attempt failed
    with [err]. *)
Definition exhausted (float_toString : string -> string) (model : string)
    (err : JsError) : ModelResult :=
  Failure model (if isOverload err then "Server Overload (Max Retries)"
                 else formatError float_toString err).

(** ** Scripted providers for the worked examples *)

(** [Number::toString] printing an inexact literal as it is written; the
    examples contain exact integers only. *)
Definition as_written : string -> string := fun literal => literal.

Definition reply (content : string) : Attempt :=
  Resolves {| resp_text := TextFunction (Some content);
              resp_candidate_text := None |}.

(** The JSON object [{"answer": "a", "confidence": c}] as text. *)
Definition answer_json (a c : string) : string :=
  "{" +:+ quoted "answer" +:+ ": " +:+ quoted a +:+ ", "
  +:+ quoted "confidence" +:+ ": " +:+ c +:+ "}".

Definition json_reply (a c : string) : Attempt := reply (answer_json a c).

Definition rejects (msg : string) : Attempt := Rejects (new_Error msg).

(** A provider that answers every attempt of a model in the same way. *)
Definition scripted (w1 w2 w3 judge : Attempt) : Provider :=
  fun request _ =>
    if String.eqb (gc_model request) (MODELS_at 0) then w1
    else if String.eqb (gc_model request) (MODELS_at 1) then w2
    else if String.eqb (gc_model request) (MODELS_at 2) then w3
    else judge.

(** A provider whose answer depends on the attempt number only. *)
Definition by_attempt (f : nat -> Attempt) : Provider := fun _ k => f k.

(** The provider calls of the round a prompt starts. *)
Definition round_events (float_toString : string -> string)
    (provider : Provider) (rawPrompt : PromptInput) : list Event :=
  snd (callGeminiEnsemble float_toString provider (buildPrompt rawPrompt)
         (options_of rawPrompt) (image_of rawPrompt)).

(** The state after [vacuum()]. *)
Definition vacuumed (clock : Clock) (st : ServerState) : ServerState :=
  {| recentAnswers := vacuum (clock 0) (recentAnswers st);
     requestCounter := requestCounter st |}.

(** The answer of [ask] when it does not serve from the cache: the
    outcome of the round started at clock reading [tick]. *)
Definition fresh_answer (float_toString : string -> string)
    (provider : Provider) (clock : Clock) (st : ServerState)
    (input : PromptInput) (tick : nat)
  : HttpResponse * ServerState * list Event :=
  let round :=
    processRequestDirectly float_toString provider clock (S tick)
      (vacuumed clock st) (cache_key input) (rawPrompt_of input)
      (clock tick) in
  (match fst (fst round) with
   | inl p =>
       {| status := 200;
          body := FreshAnswer (p_answer p) (p_duration p) (p_confidence p)
                    ENSEMBLE_MODE |}
   | inr e =>
       {| status := 400;
          body := ErrorBody (if truthy (message e) then message e
                             else "Invalid JSON") |}
   end, snd (fst round), snd round).

(** ** The rounds and requests of the worked examples *)

(** The round of the specification example: workers A(90), A(80), B(70). *)
Definition majority_round : Provider :=
  scripted (json_reply "A" "90") (json_reply "A" "80") (json_reply "B" "70")
           (rejects "unused").

(** Workers A(90), B(85), C(70) and a judge that is overloaded. *)
Definition split_round : Provider :=
  scripted (json_reply "A" "90") (json_reply "B" "85") (json_reply "C" "70")
           (rejects "503 Service Unavailable").

(** A worker that lists four letters with confidence 95 next to A(90)
    and B(85), and a judge that cannot be found. *)
Definition listing_round : Provider :=
  scripted (json_reply "A, B, C, D" "95") (json_reply "A" "90")
           (json_reply "B" "85") (rejects "404 not found").

(** Two workers answer with the text of the first option below and the
    third with the label of the second; the judge is not reached. *)
Definition inherited_round : Provider :=
  scripted (json_reply "RIP" "90") (json_reply "RIP" "80")
           (json_reply "B" "70") (rejects "unused").

(** Two options, the first of which is labelled with the name of a
    member of [Object.prototype]. *)
Definition inherited_options : list QuestionOption :=
  [ {| label := "constructor"; text := "RIP" |};
    {| label := "B"; text := "OSPF" |} ].

(** Every model rejects every attempt. *)
Definition dead_round : Provider :=
  scripted (rejects "ECONNREFUSED") (rejects "ECONNREFUSED")
           (rejects "ECONNREFUSED") (rejects "ECONNREFUSED").

(** An authentication failure, as the formatter classifies it. *)
Definition auth_failure : JsError :=
  new_Error "[401 Unauthorized] authentication failed".

(** A provider that refuses the key at every attempt. *)
Definition unauthorized : Provider := by_attempt (fun _ => Rejects auth_failure).

(** A text with braces in front of the JSON object. *)
Definition braces_first : string :=
  "Options {A, B} considered. Answer: A " +:+ answer_json "B" "90".

(** A reply with reasoning around the JSON object. *)
Definition reasoned_reply : string :=
  "Reasoning: A is wrong and C is wrong." +:+ LF
  +:+ "JSON: " +:+ answer_json "b" "95".

(** The options of a true/false question. *)
Definition true_false_options : list QuestionOption :=
  [ {| label := "A"; text := "True" |}; {| label := "B"; text := "False" |} ].

(** A letter vote and a literal vote for the same option. *)
Definition true_false_round : Provider :=
  scripted (json_reply "A" "90") (json_reply "true" "85")
           (json_reply "B" "70") (rejects "unused").

(** A request [POST /ask] with a prompt. *)
Definition ask_request (input : PromptInput) : Request :=
  {| req_method := "POST"; req_path := "/ask";
     req_prompt := inr (Some input) |}.

(** A cache that holds one answer, stored at time 0, a clock that reads
    200 seconds later, and a request for the same question. *)
Definition stale_question : PromptInput := AsString "What is 2+2?".

Definition stale_entry : CacheEntry := {| ce_answer := "C"; ce_ts := 0 |}.

Definition stale_state : ServerState :=
  {| recentAnswers := {[ "What is 2+2?" := stale_entry ]};
     requestCounter := 7 |}.

Definition late_clock : Clock := fun _ => 200000%Z.

(** Whether a string holds a given code unit. *)
Fixpoint has_char (c : ascii) (s : string) : bool :=
  match s with
  | EmptyString => false
  | String x t => Ascii.eqb x c || has_char c t
  end.

(** Text that a JSON string literal holds as it is, and that contains no
    closing brace and no back quote. *)
Fixpoint plain_text (s : string) : bool :=
  match s with
  | EmptyString => true
  | String x t =>
      negb (code x <? 32) && negb (Ascii.eqb x dquote)
      && negb (Ascii.eqb x "\") && negb (Ascii.eqb x "}")
      && negb (Ascii.eqb x "`") && plain_text t
  end.

(** The literal of a positive integer: a digit from 1 to 9, then
    digits. *)
Definition positive_literal (s : string) : bool :=
  match s with
  | String d t => in_range 49 57 d && Json.all_digits t
  | EmptyString => false
  end.

(** What separates ["answer"] from the closing brace in [answer_json]. *)
Definition answer_json_middle (a c : string) : string :=
  ": " +:+ quoted a +:+ ", " +:+ quoted "confidence" +:+ ": " +:+ c.

Definition line_feed : ascii := ascii_of_nat 10.

(* ================================================================== *)
(** * Vocabulary of the further properties *)
(* ================================================================== *)

(** A JSON value that has no member [key] and whose members can be
    read: everything but [null] and an object with that member. *)
Definition lacks_member (key : string) (v : Json.value) : bool :=
  match v with
  | Json.Object ms => negb (Json.has_member key ms)
  | Json.Undefined | Json.Null => false
  | _ => true
  end.

(** One of the letters A to F, as a string. *)
Definition answer_letter (s : string) : bool :=
  match s with
  | String c EmptyString => in_range 65 70 c
  | _ => false
  end.

(** Strings in strictly increasing order of their code units. *)
Fixpoint increasing (l : list string) : bool :=
  match l with
  | a :: (b :: _) as t => ltb a b && increasing t
  | _ => true
  end.

(** The waits in a trace, in milliseconds. *)
Definition waits (events : list Event) : list Z :=
  omap (fun ev => match ev with
                  | Slept ms => Some ms
                  | Called _ _ => None
                  end) events.

(** The requests of the provider calls in a trace. *)
Definition requests (events : list Event) : list GenerateContentRequest :=
  omap (fun ev => match ev with
                  | Called request _ => Some request
                  | Slept _ => None
                  end) events.

(** The wait that follows the failed attempt [attempt]. *)
Definition waitTime (err : JsError) (attempt : nat) : Z :=
  if isOverload err then (2000 * Z.of_nat attempt)%Z
  else (1000 * Z.of_nat attempt)%Z.

(** Characters of [\w] only. *)
Fixpoint word_text (s : string) : bool :=
  match s with
  | EmptyString => true
  | String c t => cset_mem CWord c && word_text t
  end.

(** One capital letter, as a string. *)
Definition capital_letter (s : string) : bool :=
  match s with
  | String c EmptyString => in_range 65 90 c
  | _ => false
  end.

(** Workers A(90), B(85), C(70) and a judge that answers B(88). *)
Definition judged_round : Provider :=
  scripted (json_reply "A" "90") (json_reply "B" "85") (json_reply "C" "70")
           (json_reply "B" "88").

(** The provider calls of a trace that go to [model]. *)
Definition calls_to (model : string) (events : list Event) : list nat :=
  omap (fun ev => match ev with
                  | Called request k =>
                      if String.eqb (gc_model request) model then Some k
                      else None
                  | Slept _ => None
                  end) events.

(** The trace of the three worker calls of one round. *)
Definition worker_events (float_toString : string -> string)
    (provider : Provider) (prompt : string) (imageBase64 : option string)
  : list Event :=
  List.concat
    (map (fun model =>
            snd (callSingleModel float_toString provider model prompt
                   imageBase64 3))
         workers).

(** The trace of the judge's call. *)
Definition judge_events (float_toString : string -> string)
    (provider : Provider) (prompt : string) (imageBase64 : option string)
  : list Event :=
  snd (callSingleModel float_toString provider (MODELS_at 3) prompt
         imageBase64 3).

(** The first model is not found, the second answers B(85). *)
Definition failover_round : Provider :=
  scripted (rejects "404 not found") (json_reply "B" "85")
           (rejects "unused") (rejects "unused").

(** Whether a string holds a small letter. *)
Fixpoint has_lower_case (s : string) : bool :=
  match s with
  | EmptyString => false
  | String c t => is_lower c || has_lower_case t
  end.

(** A question whose first option is labelled with the name of a member
    of [Object.prototype]. *)
Definition routing_question : QuestionInput :=
  {| question := "Which protocol counts hops?";
     options := Some inherited_options;
     type := None; number := None; image := None |}.

(** A question with options, and the same question sent again with an
    image, another type and another number. *)
Definition port_question : QuestionInput :=
  {| question := "Which port does Winbox use?";
     options := Some [ {| label := "A"; text := "8291" |};
                       {| label := "B"; text := "8728" |} ];
     type := None; number := Some 1%Z; image := None |}.

Definition port_question_again : QuestionInput :=
  {| question := "Which port does Winbox use?";
     options := Some [ {| label := "A"; text := "8291" |};
                       {| label := "B"; text := "8728" |} ];
     type := Some "checkbox"; number := Some 2%Z;
     image := Some "data:image/png;base64,iVBOR" |}.

Definition empty_state : ServerState :=
  {| recentAnswers := ∅; requestCounter := 0 |}.

Definition early_clock : Clock := fun _ => 1000%Z.
Definition minute_clock : Clock := fun _ => 61000%Z.

(** One request as the server meets it: the request, what the provider
    does while it is handled, and the readings of the clock. *)
Record Visit : Type := {
  v_request : Request;
  v_provider : Provider;
  v_clock : Clock
}.

(** The state after a series of requests, each handled to its end
    before the next one starts. *)
Definition serve (float_toString : string -> string) (st : ServerState)
    (visits : list Visit) : ServerState :=
  fold_left
    (fun st v =>
       snd (fst (handler float_toString (v_provider v) (v_clock v) st
                   (v_request v))))
    visits st.

(** An entry stored at [ts] is at most [TTL_MS] old when a request
    runs [vacuum] and when it looks its key up. *)
Definition young (ts : Z) (v : Visit) : Prop :=
  (v_clock v 0%nat - ts <= TTL_MS)%Z /\ (v_clock v 1%nat - ts <= TTL_MS)%Z.

(** Requests between the two questions of the example: another
    question, which no model answers, and a look at the health route. *)
Definition other_visit : Visit :=
  {| v_request := ask_request (AsString "What is 2+2?");
     v_provider := dead_round;
     v_clock := fun _ => 30000%Z |}.

Definition health_visit : Visit :=
  {| v_request := {| req_method := "GET"; req_path := "/health";
                     req_prompt := inr None |};
     v_provider := dead_round;
     v_clock := fun _ => 45000%Z |}.

Definition again_visit : Visit :=
  {| v_request := ask_request (AsObject port_question_again);
     v_provider := dead_round;
     v_clock := minute_clock |}.

(** ** A direct description of [normalizePrompt] on one line

    The definitions below do not come from the source: they say
    directly, by recursion on the text, what the regular expressions of
    [normalizePrompt] do to a text without line feeds, and are compared
    with the function of the source further down. *)

(** A space or a tab. *)
Definition is_blank (c : ascii) : bool :=
  Ascii.eqb " " c || Ascii.eqb (ascii_of_nat 9) c.

(** Every run of blanks becomes one space: a blank in front of a blank
    is dropped, the last blank of a run becomes a space. *)
Fixpoint collapse_blanks (s : string) : string :=
  match s with
  | EmptyString => EmptyString
  | String c t =>
      if is_blank c then
        match t with
        | String c' _ =>
            if is_blank c' then collapse_blanks t
            else String " " (collapse_blanks t)
        | EmptyString => " "
        end
      else String c (collapse_blanks t)
  end.

(** The text without the dots it ends with. *)
Fixpoint drop_trailing_dots (s : string) : string :=
  match s with
  | EmptyString => EmptyString
  | String c t =>
      match drop_trailing_dots t with
      | EmptyString =>
          if Ascii.eqb "." c then EmptyString else String c EmptyString
      | t' => String c t'
      end
  end.
(** The blanks at the front of a text, and what follows them. *)
Fixpoint span_blanks (s : string) : string * string :=
  match s with
  | String c t =>
      if is_blank c then let (w, r) := span_blanks t in (String c w, r)
      else (EmptyString, s)
  | EmptyString => (EmptyString, EmptyString)
  end.

(** Dots only. *)
Fixpoint only_dots (s : string) : bool :=
  match s with
  | EmptyString => true
  | String c t => Ascii.eqb "." c && only_dots t
  end.

(** The key under which [answerCounts] tallies a result. *)
Definition answer_key (r : MarkedResult) : string :=
  trim (toUpperCase (mr_answer r)).

(** The results tallied under [key]. *)
Definition backers (key : string) (rs : list MarkedResult)
  : list MarkedResult :=
  filter (fun r => answer_key r = key) rs.

Definition backing_sum (l : list MarkedResult) : Z :=
  fold_right (fun r acc => (mr_confidence r + acc)%Z) 0%Z l.

Definition backing (l : list MarkedResult) : VoteCount :=
  {| vc_count := length l;
     vc_totalConfidence := backing_sum l;
     vc_models := map mr_model l |}.

(** Three results: A(95), and B twice, written in two ways. *)
Definition two_for_B : list ModelResult :=
  [ Success "A" 95 (MODELS_at 0) "A";
    Success "b " 80 (MODELS_at 1) "b ";
    Success "B" 70 (MODELS_at 2) "B" ].

(** The error object [{"error":{"code":code}}] as text. *)
Definition error_json (code : string) : string :=
  "{" +:+ quoted "error" +:+ ":{" +:+ quoted "code" +:+ ":" +:+ code +:+ "}}".

(** The verdicts [formatError] reads from the code of an error object. *)
Definition code_verdicts : list (string * string) :=
  [ ("503", "🔄 Server Sibuk"); ("429", "⏳ Rate limit");
    ("401", "🔑 API key salah"); ("404", "❓ Model tidak ada") ].

(** A text without line terminators. *)
Fixpoint single_line (s : string) : bool :=
  match s with
  | EmptyString => true
  | String c t => negb (is_line_terminator c) && single_line t
  end.

(** A response without text: no [text] member, and a first candidate
    part that is missing or empty. *)
Definition no_text : Response :=
  {| resp_text := TextOther; resp_candidate_text := None |}.

(** A provider whose every response is blank. *)
Definition blank_round : Provider :=
  by_attempt (fun k => if Nat.even k then Resolves no_text else reply "  ").

(** A fetch that answers 200 with a JSON object without candidates. *)
Definition empty_fetch : Rest.Fetch :=
  fun _ =>
    Rest.FetchResponds true 200
      ("{" +:+ quoted "promptFeedback" +:+ ": {}}") "unused".

(* ================================================================== *)
(** * Facts about JSON.parse: the fuel is enough *)
(* ================================================================== *)

Section JsonFacts.
Import Json.

Lemma skip_space_length s : String.length (skip_space s) <= String.length s.
Proof.
  induction s as [|c t IH]; simpl; [lia|].
  destruct (is_json_space c); simpl; lia.
Qed.

Lemma starts_with_length c s rest :
  starts_with c s = Some rest -> String.length s = S (String.length rest).
Proof.
  destruct s as [|x t]; simpl; [discriminate|].
  destruct (Ascii.eqb x c); [intros [= ->]; reflexivity | discriminate].
Qed.

Lemma drop_length n s : String.length (drop n s) = String.length s - n.
Proof.
  revert s. induction n as [|n IH]; intros [|c t]; simpl; auto with arith.
Qed.

Lemma prefix_length p s : String.prefix p s = true -> String.length p <= String.length s.
Proof.
  revert s. induction p as [|a p IH]; intros [|b s]; simpl;
    try lia; try discriminate.
  destruct (ascii_dec a b); [|discriminate]. intros H. apply IH in H. lia.
Qed.

Lemma strip_prefix_length p s rest :
  strip_prefix p s = Some rest -> String.length s = String.length p + String.length rest.
Proof.
  unfold strip_prefix. destruct (String.prefix p s) eqn:E; [|discriminate].
  intros [= <-]. rewrite drop_length. apply prefix_length in E. lia.
Qed.

Lemma hex4_length s x rest : hex4 s = Some (x, rest) -> String.length s = 4 + String.length rest.
Proof.
  destruct s as [|h1 [|h2 [|h3 [|h4 t]]]]; simpl; try discriminate.
  destruct (hex_digit h1), (hex_digit h2), (hex_digit h3), (hex_digit h4);
    try discriminate.
  now intros [= _ ->].
Qed.

Lemma parse_chars_with_spec fuel s :
  String.length s <= fuel ->
  match parse_chars_with fuel s with
  | Parsed _ rest => String.length rest < String.length s
  | SyntaxError => True
  | OutOfFuel => False
  end.
Proof.
  revert s. induction fuel as [|fuel IH]; intros s Hs.
  - destruct s; simpl in *; [exact I | lia].
  - destruct s as [|c t]; simpl; [exact I|].
    destruct (Ascii.eqb c dquote); [simpl; lia|].
    destruct (Ascii.eqb c "\").
    + destruct t as [|e t']; [exact I|].
      destruct (if Ascii.eqb e "u" then hex4 t' else _) as [[x t'']|] eqn:E;
        [|exact I].
      assert (Hl : String.length t'' <= String.length t').
      { destruct (Ascii.eqb e "u").
        - apply hex4_length in E. lia.
        - destruct (escape e); [|discriminate]. now injection E as _ ->. }
      specialize (IH t'' ltac:(simpl in Hs; lia)).
      destruct (parse_chars_with fuel t''); simpl in *; [lia|exact I|exact IH].
    + destruct (code c <? 32); [exact I|].
      specialize (IH t ltac:(simpl in Hs; lia)).
      destruct (parse_chars_with fuel t); simpl in *; [lia|exact I|exact IH].
Qed.

Lemma parse_chars_spec s :
  match parse_chars s with
  | Parsed _ rest => String.length rest < String.length s
  | SyntaxError => True
  | OutOfFuel => False
  end.
Proof. apply parse_chars_with_spec. lia. Qed.

Lemma digits_length s d r : digits s = (d, r) -> String.length s = String.length d + String.length r.
Proof.
  revert d r. induction s as [|c t IH]; simpl; intros d r.
  - now intros [= <- <-].
  - destruct (is_digit c).
    + destruct (digits t) as [d' r']. intros [= <- <-].
      specialize (IH d' r' eq_refl). simpl. lia.
    + now intros [= <- <-].
Qed.

Lemma digits1_length s d r : digits1 s = Some (d, r) -> String.length r < String.length s.
Proof.
  unfold digits1. destruct (digits s) as [d' r'] eqn:E.
  apply digits_length in E.
  destruct d'; [discriminate|]. intros [= <- <-]. simpl in E. lia.
Qed.

Lemma integer_part_length s i r : integer_part s = Some (i, r) -> String.length r < String.length s.
Proof.
  unfold integer_part. destruct (starts_with "0" s) eqn:E.
  - intros [= <- <-]. apply starts_with_length in E. lia.
  - apply digits1_length.
Qed.

Lemma fraction_part_length s f r : fraction_part s = Some (f, r) -> String.length r <= String.length s.
Proof.
  unfold fraction_part. destruct (starts_with "." s) eqn:E.
  - apply starts_with_length in E.
    destruct (digits1 s0) as [[d r']|] eqn:D; [|discriminate].
    apply digits1_length in D. intros [= <- <-]. lia.
  - intros [= <- <-]. lia.
Qed.

Lemma exponent_part_length s e r : exponent_part s = Some (e, r) -> String.length r <= String.length s.
Proof.
  unfold exponent_part.
  assert (H : forall m t, String.length t < String.length s ->
            (let (sign, t1) :=
               match starts_with "+" t, starts_with "-" t with
               | Some u, _ => ("+", u)
               | None, Some u => ("-", u)
               | None, None => (EmptyString, t)
               end in
             match digits1 t1 with
             | Some (d, r) => Some (m +:+ sign +:+ d, r)
             | None => None
             end) = Some (e, r) -> String.length r <= String.length s).
  { intros m t Ht.
    destruct (starts_with "+" t) eqn:P; [|destruct (starts_with "-" t) eqn:M].
    - apply starts_with_length in P.
      destruct (digits1 s0) as [[d r']|] eqn:D; [|discriminate].
      apply digits1_length in D. intros [= _ <-]. lia.
    - apply starts_with_length in M.
      destruct (digits1 s0) as [[d r']|] eqn:D; [|discriminate].
      apply digits1_length in D. intros [= _ <-]. lia.
    - destruct (digits1 t) as [[d r']|] eqn:D; [|discriminate].
      apply digits1_length in D. intros [= _ <-]. lia. }
  destruct (starts_with "e" s) eqn:E1; [|destruct (starts_with "E" s) eqn:E2].
  - apply starts_with_length in E1. apply H. lia.
  - apply starts_with_length in E2. apply H. lia.
  - intros [= _ <-]. lia.
Qed.

Lemma parse_number_tail sign s1 :
  match
    match integer_part s1 with
    | None => SyntaxError
    | Some (i, s2) =>
        match fraction_part s2 with
        | None => SyntaxError
        | Some (f, s3) =>
            match exponent_part s3 with
            | None => SyntaxError
            | Some (e, s4) => Parsed (sign +:+ i +:+ f +:+ e) s4
            end
        end
    end
  with
  | Parsed _ rest => String.length rest < String.length s1
  | SyntaxError => True
  | OutOfFuel => False
  end.
Proof.
  destruct (integer_part s1) as [[i s2]|] eqn:Hi; [|exact I].
  apply integer_part_length in Hi.
  destruct (fraction_part s2) as [[f s3]|] eqn:Hf; [|exact I].
  apply fraction_part_length in Hf.
  destruct (exponent_part s3) as [[e s4]|] eqn:Hx; [|exact I].
  apply exponent_part_length in Hx. lia.
Qed.

Lemma parse_number_spec s :
  match parse_number s with
  | Parsed _ rest => String.length rest < String.length s
  | SyntaxError => True
  | OutOfFuel => False
  end.
Proof.
  unfold parse_number.
  destruct (starts_with "-" s) as [t|] eqn:M.
  - apply starts_with_length in M.
    pose proof (parse_number_tail "-" t) as H.
    destruct (match integer_part t with None => _ | Some _ => _ end);
      [lia | exact I | exact H].
  - apply parse_number_tail.
Qed.

Lemma parse_scalar_spec s :
  match parse_scalar s with
  | Parsed _ rest => String.length rest < String.length s
  | SyntaxError => True
  | OutOfFuel => False
  end.
Proof.
  unfold parse_scalar. destruct (starts_with dquote s) eqn:Q.
  - apply starts_with_length in Q. pose proof (parse_chars_spec s0) as H.
    destruct (parse_chars s0); [lia | exact I | exact H].
  - destruct (strip_prefix "true" s) eqn:T.
    { apply strip_prefix_length in T. simpl in T. lia. }
    destruct (strip_prefix "false" s) eqn:F.
    { apply strip_prefix_length in F. simpl in F. lia. }
    destruct (strip_prefix "null" s) eqn:N.
    { apply strip_prefix_length in N. simpl in N. lia. }
    pose proof (parse_number_spec s) as H.
    destruct (parse_number s); [exact H | exact I | exact H].
Qed.
Lemma sound_weaken r s s' need need' fuel fuel' :
  sound r s need fuel -> String.length s <= String.length s' ->
  (fuel < need -> fuel' < need') -> sound r s' need' fuel'.
Proof. destruct r; simpl; intros; try lia; auto. Qed.

Lemma parse_sound fuel :
  (forall s, sound (parse_value fuel s) s (2 * String.length s + 1) fuel)
  /\ (forall s acc, sound (parse_elements fuel s acc) s (2 * String.length s + 2) fuel)
  /\ (forall s acc, sound (parse_members fuel s acc) s (2 * String.length s + 2) fuel).
Proof.
  induction fuel as [|fuel (IHv & IHe & IHm)].
  { repeat split; intros; simpl; lia. }
  split; [|split].
  - intros s. cbn [parse_value].
    pose proof (skip_space_length s) as Hs.
    destruct (starts_with "{" (skip_space s)) as [t|] eqn:Eo.
    { apply starts_with_length in Eo.
      pose proof (skip_space_length t) as Ht.
      destruct (starts_with "}" (skip_space t)) as [rest|] eqn:Ec.
      - apply starts_with_length in Ec. simpl. lia.
      - eapply sound_weaken; [apply IHm | lia | lia]. }
    destruct (starts_with "[" (skip_space s)) as [t|] eqn:Ea.
    { apply starts_with_length in Ea.
      pose proof (skip_space_length t) as Ht.
      destruct (starts_with "]" (skip_space t)) as [rest|] eqn:Ec.
      - apply starts_with_length in Ec. simpl. lia.
      - eapply sound_weaken; [apply IHe | lia | lia]. }
    pose proof (parse_scalar_spec (skip_space s)) as H.
    destruct (parse_scalar (skip_space s)); simpl; [lia | exact I | destruct H].
  - intros s acc. cbn [parse_elements].
    specialize (IHv s).
    destruct (parse_value fuel s) as [v s1| |]; simpl in IHv |- *;
      [|exact I|lia].
    pose proof (skip_space_length s1) as Hs.
    destruct (starts_with "," (skip_space s1)) as [s2|] eqn:Ec.
    { apply starts_with_length in Ec.
      eapply sound_weaken; [apply IHe | lia | lia]. }
    destruct (starts_with "]" (skip_space s1)) as [rest|] eqn:Eb;
      [|exact I].
    apply starts_with_length in Eb. simpl. lia.
  - intros s acc. cbn [parse_members].
    pose proof (skip_space_length s) as Hs.
    destruct (starts_with dquote (skip_space s)) as [t|] eqn:Eq; [|exact I].
    apply starts_with_length in Eq.
    pose proof (parse_chars_spec t) as Hk.
    destruct (parse_chars t) as [key s1| |]; [|exact I|destruct Hk].
    pose proof (skip_space_length s1) as Hs1.
    destruct (starts_with ":" (skip_space s1)) as [s2|] eqn:Ec; [|exact I].
    apply starts_with_length in Ec.
    specialize (IHv s2).
    destruct (parse_value fuel s2) as [v s3| |]; simpl in IHv |- *;
      [|exact I|lia].
    pose proof (skip_space_length s3) as Hs3.
    destruct (starts_with "," (skip_space s3)) as [s4|] eqn:Em.
    { apply starts_with_length in Em.
      eapply sound_weaken; [apply IHm | lia | lia]. }
    destruct (starts_with "}" (skip_space s3)) as [rest|] eqn:Eb;
      [|exact I].
    apply starts_with_length in Eb. simpl. lia.
Qed.

(** [parse] never fails for lack of fuel: [None] is a syntax error. *)
Lemma parse_total text : parse_with (enough text) text <> OutOfFuel.
Proof.
  unfold parse_with, enough.
  destruct (parse_sound (2 * String.length text + 2)) as [Hv _]. specialize (Hv text).
  destruct (parse_value _ text) as [v rest| |]; simpl in Hv.
  - destruct (skip_space rest); discriminate.
  - discriminate.
  - lia.
Qed.
End JsonFacts.

(* ================================================================== *)
(** * Facts about dictionaries, sorting and tallies *)
(* ================================================================== *)

Section DictionaryFacts.
Context {V : Type}.
Implicit Types (d : list (string * V)) (k : string).

Lemma lookup_key_upsert k k' init f d :
  lookup_key k (upsert k' init f d) =
  if String.eqb k' k then Some (f (default init (lookup_key k d)))
  else lookup_key k d.
Proof.
  induction d as [|[k0 v0] d IH]; simpl.
  - destruct (String.eqb k' k) eqn:E; reflexivity.
  - destruct (String.eqb k0 k') eqn:E0; simpl.
    + apply String.eqb_eq in E0; subst k0.
      destruct (String.eqb k' k); reflexivity.
    + destruct (String.eqb k0 k) eqn:E1.
      * apply String.eqb_eq in E1; subst k0.
        rewrite String.eqb_sym, E0. reflexivity.
      * exact IH.
Qed.

Lemma upsert_keys k init f d :
  map fst (upsert k init f d) =
  if existsb (String.eqb k) (map fst d) then map fst d
  else map fst d ++ [k].
Proof.
  induction d as [|[k0 v0] d IH]; simpl; [reflexivity|].
  rewrite (String.eqb_sym k k0).
  destruct (String.eqb k0 k) eqn:E; simpl; [reflexivity|].
  rewrite IH. destruct (existsb _ _); reflexivity.
Qed.

Lemma existsb_eqb_In k (l : list string) :
  existsb (String.eqb k) l = true <-> In k l.
Proof.
  rewrite existsb_exists. split.
  - intros (x & Hx & E). apply String.eqb_eq in E. now subst.
  - intros H. exists k. split; [assumption | apply String.eqb_refl].
Qed.

Lemma upsert_NoDup k init f d :
  NoDup (map fst d) -> NoDup (map fst (upsert k init f d)).
Proof.
  intros H. rewrite upsert_keys.
  destruct (existsb (String.eqb k) (map fst d)) eqn:E; [assumption|].
  apply NoDup_app. split; [assumption|]. split.
  - intros x Hx Hk. apply list_elem_of_In in Hx, Hk.
    destruct Hk as [<-|[]].
    apply existsb_eqb_In in Hx. congruence.
  - apply NoDup_singleton.
Qed.

Lemma lookup_key_In k v d :
  NoDup (map fst d) -> In (k, v) d -> lookup_key k d = Some v.
Proof.
  induction d as [|[k0 v0] d IH]; simpl; [tauto|].
  intros Hnd [E|Hin].
  - inversion E; subst. now rewrite String.eqb_refl.
  - apply NoDup_cons in Hnd as [Hk0 Hnd].
    destruct (String.eqb k0 k) eqn:E.
    + apply String.eqb_eq in E; subst k0. exfalso. apply Hk0.
      apply list_elem_of_In. apply (in_map fst) in Hin. exact Hin.
    + auto.
Qed.

Lemma In_lookup_key k v d : lookup_key k d = Some v -> In (k, v) d.
Proof.
  induction d as [|[k0 v0] d IH]; simpl; [discriminate|].
  destruct (String.eqb k0 k) eqn:E.
  - apply String.eqb_eq in E; subst. intros [= ->]. now left.
  - auto.
Qed.
End DictionaryFacts.

Section SortFacts.
Context {A : Type} (before : A -> A -> bool).

Lemma insert_sorted_perm x (l : list A) :
  Permutation (insert_sorted before x l) (x :: l).
Proof.
  induction l as [|y l IH]; simpl; [reflexivity|].
  destruct (before x y); [reflexivity|].
  rewrite IH. apply perm_swap.
Qed.

Lemma sort_perm (l : list A) : Permutation (sort before l) l.
Proof.
  induction l as [|x l IH]; simpl; [reflexivity|].
  unfold sort in *. simpl. rewrite insert_sorted_perm. now rewrite IH.
Qed.

Lemma sort_In x (l : list A) : In x (sort before l) <-> In x l.
Proof.
  split; apply Permutation_in; [|symmetry]; apply sort_perm.
Qed.

(** What stays in front: a measure that [before] respects is largest
    at the head of the sorted list. *)
Variable weight : A -> nat.
Hypothesis before_weight :
  forall a b, if before a b then weight b <= weight a
              else weight a <= weight b.

Lemma insert_sorted_head x (l : list A) h t :
  (forall y, In y l -> forall h', head l = Some h' -> weight y <= weight h') ->
  insert_sorted before x l = h :: t ->
  forall y, In y (x :: l) -> weight y <= weight h.
Proof.
  destruct l as [|z l]; simpl.
  - intros _ [= <- <-] y [<-|[]]. lia.
  - intros Hl. specialize (before_weight x z).
    destruct (before x z).
    + intros [= <- <-] y [<-|Hy]; [lia|].
      specialize (Hl y Hy z eq_refl). lia.
    + intros [= <- <-] y [<-|Hy]; [lia|].
      exact (Hl y Hy z eq_refl).
Qed.

Lemma sort_head_max (l : list A) h t :
  sort before l = h :: t -> forall y, In y l -> weight y <= weight h.
Proof.
  revert h t. induction l as [|x l IH]; intros h t; [discriminate|].
  unfold sort in *. simpl. intros Hs y Hy.
  eapply (insert_sorted_head x _ h t); [ | exact Hs | ].
  - intros z Hz h' Hh'.
    destruct (fold_right (insert_sorted before) [] l) as [|h0 t0] eqn:E;
      [discriminate|].
    simpl in Hh'. injection Hh' as <-.
    apply (IH h0 t0 eq_refl). apply sort_In. unfold sort. now rewrite E.
  - destruct Hy as [->|Hy]; [now left|right].
    now apply sort_In.
Qed.
End SortFacts.

Lemma entries_perm {V : Type} (d : list (string * V)) :
  Permutation (entries d) d.
Proof.
  unfold entries.
  rewrite (sort_perm index_before).
  induction d as [|[k v] d IH]; simpl; [reflexivity|].
  rewrite filter_cons. simpl.
  destruct (array_index k) as [i|] eqn:E; simpl.
  - apply perm_skip, IH.
  - rewrite <- Permutation_middle. apply perm_skip, IH.
Qed.

Lemma ranked_before_count (a b : RankedAnswer) :
  if ranked_before a b then ra_count b <= ra_count a
  else ra_count a <= ra_count b.
Proof.
  unfold ranked_before.
  destruct (Nat.eqb (ra_count b) (ra_count a)) eqn:E; simpl.
  - apply Nat.eqb_eq in E. destruct (_ <=? _)%Z; lia.
  - apply Nat.eqb_neq in E.
    destruct (ra_count b <=? ra_count a) eqn:L.
    + apply Nat.leb_le in L. lia.
    + apply Nat.leb_gt in L. lia.
Qed.

#[local] Arguments normalize : simpl never.

Section TallyFacts.
Variable opts : list QuestionOption.

Lemma combine_map_self {A B : Type} (f : A -> B) (l : list A) :
  combine l (map f l) = map (fun x => (x, f x)) l.
Proof. induction l as [|x l IH]; simpl; [reflexivity | now rewrite IH]. Qed.

Lemma voteCounts_snoc rs r :
  voteCounts (rs ++ [r]) opts =
  match voteCounts rs opts, vote_key opts r with
  | inl d, Some k =>
      if inherited k then inr (cannot_read "undefined" "push")
      else inl (upsert k no_votes (add_vote (conf r) (model r)) d)
  | d, _ => d
  end.
Proof.
  unfold voteCounts, normalizedAnswers.
  rewrite !combine_map_self, map_app, fold_left_app. simpl.
  destruct (fold_left _ _ _) as [d|e];
    destruct r as [a c m raw|m e']; simpl; try reflexivity.
  destruct (normalize (Some a) opts); reflexivity.
Qed.

Lemma ordinary_keys_snoc rs r :
  ordinary_keys opts (rs ++ [r]) =
  ordinary_keys opts rs
  && match vote_key opts r with
     | Some key => negb (inherited key)
     | None => true
     end.
Proof.
  unfold ordinary_keys. rewrite forallb_app. simpl.
  now rewrite andb_true_r.
Qed.

(** The tally runs to its end exactly when the keys are ordinary;
    otherwise it throws. *)
Lemma voteCounts_completes results :
  ordinary_keys opts results = true ->
  exists d, voteCounts results opts = inl d.
Proof.
  induction results as [|r rs IH] using rev_ind; [now exists []|].
  rewrite ordinary_keys_snoc, voteCounts_snoc.
  intros [Hrs Hr]%andb_prop. destruct (IH Hrs) as [d ->].
  destruct (vote_key opts r) as [k|]; [|now exists d].
  apply negb_true_iff in Hr. rewrite Hr. eauto.
Qed.

Lemma voteCounts_throws results :
  ordinary_keys opts results = false ->
  voteCounts results opts = inr (cannot_read "undefined" "push").
Proof.
  induction results as [|r rs IH] using rev_ind; [discriminate|].
  rewrite ordinary_keys_snoc, voteCounts_snoc.
  destruct (ordinary_keys opts rs) eqn:Hrs; cbn [andb].
  - destruct (voteCounts_completes rs Hrs) as [d ->].
    destruct (vote_key opts r) as [k|]; [|discriminate].
    intros Hr%negb_false_iff. now rewrite Hr.
  - intros _. rewrite (IH eq_refl). now destruct (vote_key opts r).
Qed.

Lemma voteCounts_ordinary results d :
  voteCounts results opts = inl d -> ordinary_keys opts results = true.
Proof.
  intros Hd. destruct (ordinary_keys opts results) eqn:E; [reflexivity|].
  rewrite (voteCounts_throws results E) in Hd. discriminate.
Qed.

Lemma supporters_snoc key rs r :
  supporters key (rs ++ [r]) opts =
  supporters key rs opts ++
  (if decide (vote_key opts r = Some key) then [r] else []).
Proof.
  unfold supporters. rewrite filter_app. reflexivity.
Qed.

Lemma confidence_sum_snoc l r :
  confidence_sum (l ++ [r]) =
  (confidence_sum l + conf r)%Z.
Proof.
  unfold confidence_sum. induction l as [|x l IH]; simpl; [lia|].
  rewrite IH. lia.
Qed.

Lemma add_vote_tally l r :
  add_vote (conf r) (model r)
           (default no_votes (tally_opt l)) = tally_of (l ++ [r]).
Proof.
  assert (E : default no_votes (tally_opt l) = tally_of l)
    by (destruct l; reflexivity).
  rewrite E. unfold add_vote, tally_of. simpl.
  rewrite length_app, confidence_sum_snoc, map_app. simpl.
  f_equal. lia.
Qed.

Lemma voteCounts_lookup results d key :
  voteCounts results opts = inl d ->
  lookup_key key d = tally_opt (supporters key results opts).
Proof.
  revert d. induction results as [|r rs IH] using rev_ind.
  { now intros d [= <-]. }
  intros d. rewrite voteCounts_snoc, supporters_snoc.
  destruct (voteCounts rs opts) as [d'|e];
    [|destruct (vote_key opts r); discriminate].
  specialize (IH d' eq_refl).
  destruct (vote_key opts r) as [k|] eqn:Ek.
  - destruct (inherited k); [discriminate|]. intros [= <-].
    rewrite lookup_key_upsert.
    destruct (String.eqb k key) eqn:E.
    + apply String.eqb_eq in E; subst k.
      rewrite decide_True by reflexivity.
      rewrite IH, add_vote_tally.
      destruct (supporters key rs opts); reflexivity.
    + apply String.eqb_neq in E.
      rewrite decide_False by congruence.
      now rewrite app_nil_r.
  - intros [= <-]. rewrite decide_False by discriminate.
    now rewrite app_nil_r.
Qed.

Lemma voteCounts_NoDup results d :
  voteCounts results opts = inl d -> NoDup (map fst d).
Proof.
  revert d. induction results as [|r rs IH] using rev_ind.
  { intros d [= <-]. constructor. }
  intros d. rewrite voteCounts_snoc.
  destruct (voteCounts rs opts) as [d'|e];
    [|destruct (vote_key opts r); discriminate].
  specialize (IH d' eq_refl).
  destruct (vote_key opts r) as [k|]; [|now intros [= <-]].
  destruct (inherited k); [discriminate|]. intros [= <-].
  now apply upsert_NoDup.
Qed.

Lemma supporters_disjoint k k' results :
  k <> k' ->
  length (supporters k results opts) + length (supporters k' results opts)
  <= length results.
Proof.
  intros Hne. unfold supporters.
  induction results as [|r rs IH]; simpl; [lia|].
  rewrite !filter_cons.
  destruct (decide (vote_key opts r = Some k)) as [E|_];
    destruct (decide (vote_key opts r = Some k')) as [E'|_]; simpl; try lia.
  congruence.
Qed.

(** With at most three results, an answer that two of them give is
    the head of the ranking. *)
Lemma majority_is_top results d key :
  voteCounts results opts = inl d ->
  length results <= 3 ->
  2 <= length (supporters key results opts) ->
  exists rest,
    sortedVotes d =
    rank (key, tally_of (supporters key results opts)) :: rest.
Proof.
  intros Hd Hlen Hsup.
  set (sup := supporters key results opts) in *.
  assert (Hin : In (rank (key, tally_of sup)) (map rank (entries d))).
  { apply in_map.
    apply (Permutation_in _ (Permutation_sym (entries_perm d))).
    apply In_lookup_key. rewrite (voteCounts_lookup results d key Hd).
    fold sup. destruct sup; [simpl in Hsup; lia | reflexivity]. }
  unfold sortedVotes, sort_ranked.
  destruct (sort ranked_before (map rank (entries d))) as [|h t] eqn:Es.
  { apply (sort_In ranked_before) in Hin. rewrite Es in Hin. destruct Hin. }
  exists t. f_equal.
  pose proof (sort_head_max ranked_before ra_count ranked_before_count
                _ h t Es _ Hin) as Hmax.
  simpl in Hmax.
  assert (Hh : In h (map rank d)).
  { assert (H : In h (sort ranked_before (map rank (entries d))))
      by (rewrite Es; now left).
    apply sort_In in H. apply in_map_iff in H as (e & <- & He).
    apply in_map. exact (Permutation_in _ (entries_perm d) He). }
  apply in_map_iff in Hh as ([k' v'] & <- & Hkv).
  apply lookup_key_In in Hkv; [|exact (voteCounts_NoDup results d Hd)].
  rewrite (voteCounts_lookup results d k' Hd) in Hkv.
  destruct (supporters k' results opts) as [|x l] eqn:Ek'; [discriminate|].
  injection Hkv as <-.
  destruct (decide (key = k')) as [<-|Hne].
  - fold sup in Ek'. now rewrite Ek'.
  - pose proof (supporters_disjoint key k' results Hne) as Hdis.
    fold sup in Hdis. rewrite Ek' in Hdis. simpl in Hmax, Hdis. lia.
Qed.
End TallyFacts.

Section EnsembleFacts.
Variable float_toString : string -> string.
Variable provider : Provider.
Variables (prompt : string) (opts : list QuestionOption)
          (imageBase64 : option string).

Let results := worker_results float_toString provider prompt imageBase64.
Let judge := judge_result float_toString provider prompt imageBase64.

Lemma worker_results_length : length results = 3.
Proof. reflexivity. Qed.

(** The decision of [callGeminiEnsemble] as a function of the worker
    results and of the judge's result. *)
Lemma callGeminiEnsemble_decision :
  fst (callGeminiEnsemble float_toString provider prompt opts imageBase64) =
  match voteCounts results opts with
  | inr thrown => inr thrown
  | inl d => after_tally results judge d
  end.
Proof.
  unfold callGeminiEnsemble, after_tally, last_resort.
  change (map fst (map _ workers)) with results.
  unfold judge, judge_result.
  destruct (voteCounts results opts) as [d|thrown]; [|reflexivity].
  destruct (sortedVotes d) as [|topVote rest].
  - destruct (callSingleModel _ _ (MODELS_at 3) _ _ _) as [[a c m raw|m e] ev];
      simpl; [reflexivity|].
    destruct (best_worker results) as [[a c m' raw|m' e']|]; reflexivity.
  - destruct (2 <=? ra_count topVote); [reflexivity|].
    destruct (callSingleModel _ _ (MODELS_at 3) _ _ _) as [[a c m raw|m e] ev];
      simpl; [reflexivity|].
    destruct (best_worker results) as [[a c m' raw|m' e']|]; reflexivity.
Qed.

(** A key that is a name of [Object.prototype] ends the round with the
    [TypeError] of the tally. *)
Lemma ensemble_throws :
  ordinary_keys opts results = false ->
  fst (callGeminiEnsemble float_toString provider prompt opts imageBase64)
  = inr (cannot_read "undefined" "push").
Proof.
  intros H. rewrite callGeminiEnsemble_decision.
  now rewrite (voteCounts_throws opts results H).
Qed.

Lemma ensemble_majority key :
  ordinary_keys opts results = true ->
  2 <= length (supporters key results opts) ->
  fst (callGeminiEnsemble float_toString provider prompt opts imageBase64) =
  inl (plain_result key
         (round_div (confidence_sum (supporters key results opts))
                    (length (supporters key results opts)))
         (if Nat.eqb (length (supporters key results opts)) 3
          then "unanimous" else "majority")).
Proof.
  intros Hkeys Hsup. rewrite callGeminiEnsemble_decision.
  destruct (voteCounts_completes opts results Hkeys) as [d Hd]. rewrite Hd.
  destruct (majority_is_top opts results d key Hd) as [rest E];
    [rewrite worker_results_length; lia | assumption |].
  unfold after_tally. rewrite E.
  cbn [rank ra_count ra_answer ra_avgConfidence fst snd
       tally_of vc_count vc_totalConfidence].
  apply Nat.leb_le in Hsup. now rewrite Hsup.
Qed.
End EnsembleFacts.

Section BestWorker.
(** The head of the stable sort by decreasing confidence is the
    first result of largest confidence. *)
Lemma sort_confident_head (l : list ModelResult) :
  Forall (fun r => success r = true) l ->
  match head (sort confident_before l) with
  | None => l = []
  | Some b =>
      exists front back,
        l = front ++ b :: back
        /\ Forall (fun r => (conf r < conf b)%Z) front
        /\ Forall (fun r => (conf r <= conf b)%Z) back
  end.
Proof.
  induction l as [|x l IH]; [reflexivity|].
  intros Hs. apply Forall_cons in Hs as [Hx Hs]. specialize (IH Hs).
  unfold sort in *. simpl.
  destruct (fold_right (insert_sorted confident_before) [] l) as [|h t] eqn:E;
    simpl in *.
  - subst l. exists [], []. repeat split; constructor.
  - destruct IH as (front & back & -> & Hf & Hb).
    assert (Hh : success h = true).
    { rewrite Forall_forall in Hs. apply Hs.
      apply list_elem_of_In, in_or_app. right. now left. }
    destruct x as [ax cx mx rx|]; [|discriminate].
    destruct h as [ah ch mh rh|]; [|discriminate].
    unfold confident_before. simpl.
    destruct (ch <=? cx)%Z eqn:L; simpl.
    + apply Z.leb_le in L. exists [], (front ++ Success ah ch mh rh :: back).
      repeat split; [constructor|].
      apply Forall_app. split; [|constructor].
      * eapply Forall_impl; [exact Hf|]. unfold conf. simpl. intros; lia.
      * unfold conf. simpl. lia.
      * eapply Forall_impl; [exact Hb|]. unfold conf. simpl. intros; lia.
    + apply Z.leb_gt in L.
      exists (Success ax cx mx rx :: front), back.
      repeat split; [|assumption].
      constructor; [unfold conf; simpl; lia | assumption].
Qed.
End BestWorker.

Section NoMajority.
Variable opts : list QuestionOption.

Lemma no_majority_top results d :
  voteCounts results opts = inl d ->
  (forall key, length (supporters key results opts) < 2) ->
  match sortedVotes d with
  | topVote :: _ => (2 <=? ra_count topVote) = false
  | [] => True
  end.
Proof.
  intros Hd Hno. unfold sortedVotes, sort_ranked.
  destruct (sort ranked_before (map rank (entries d))) as [|h t] eqn:Es;
    [exact I|].
  assert (H : In h (sort ranked_before (map rank (entries d))))
    by (rewrite Es; now left).
  apply sort_In in H. apply in_map_iff in H as ([k v] & <- & He).
  apply (Permutation_in _ (entries_perm d)) in He.
  apply lookup_key_In in He; [|exact (voteCounts_NoDup opts results d Hd)].
  rewrite (voteCounts_lookup opts results d k Hd) in He.
  specialize (Hno k).
  destruct (supporters k results opts) as [|x l]; [discriminate|].
  injection He as <-.
  cbn [rank ra_count fst snd tally_of vc_count]. now apply Nat.leb_gt.
Qed.
End NoMajority.

Section EnsembleFallback.
Variable float_toString : string -> string.
Variable provider : Provider.
Variables (prompt : string) (opts : list QuestionOption)
          (imageBase64 : option string).

Let results := worker_results float_toString provider prompt imageBase64.
Let judge := judge_result float_toString provider prompt imageBase64.

Lemma ensemble_no_majority :
  ordinary_keys opts results = true ->
  (forall key, length (supporters key results opts) < 2) ->
  fst (callGeminiEnsemble float_toString provider prompt opts imageBase64) =
  match judge, best_worker results with
  | Success a c _ _, _ => inl (plain_result a c "judge")
  | Failure _ _, Some (Success a c _ _) =>
      inl (plain_result a c "fallback_worker")
  | Failure _ _, _ => inr (new_Error "All models failed including Judge")
  end.
Proof.
  intros Hkeys Hno. rewrite callGeminiEnsemble_decision.
  fold results. fold judge.
  destruct (voteCounts_completes opts results Hkeys) as [d Hd]. rewrite Hd.
  pose proof (no_majority_top opts results d Hd Hno) as Htop.
  unfold after_tally, last_resort.
  destruct (sortedVotes d) as [|topVote rest]; [reflexivity|].
  now rewrite Htop.
Qed.
End EnsembleFallback.

(* ================================================================== *)
(** * Facts about the answer parser *)
(* ================================================================== *)

Section ParserFacts.
Variable float_toString : string -> string.

Lemma clamp_confidence_range n : (0 <= clamp_confidence n <= 100)%Z.
Proof. unfold clamp_confidence. lia. Qed.

Lemma answer_of_json_range v p :
  answer_of_json float_toString v = Some p ->
  (0 <= pa_confidence p <= 100)%Z.
Proof.
  unfold answer_of_json.
  destruct (Json.get v "answer"); [|discriminate].
  destruct (Json.toString _ _); [|discriminate].
  destruct (Json.parseInt _ _); [|discriminate].
  intros [= <-]. apply clamp_confidence_range.
Qed.

(** Every confidence the parser returns lies between 0 and 100. *)
Lemma parse_confidence_range rawText :
  (0 <= pa_confidence (parseAnswerWithConfidence float_toString rawText)
     <= 100)%Z.
Proof.
  unfold parseAnswerWithConfidence.
  destruct rawText as [[|c t]|]; simpl; try lia.
  set (text := trim (String c t)).
  destruct (parse_whole float_toString text) as [p|] eqn:E1.
  { unfold parse_whole in E1. destruct (Json.parse _); [|discriminate].
    now apply answer_of_json_range in E1. }
  destruct (parse_embedded float_toString text) as [p|] eqn:E2.
  { unfold parse_embedded in E2. destruct (exec _ _ _); [|discriminate].
    destruct (Json.parse _); [|discriminate].
    now apply answer_of_json_range in E2. }
  destruct (parse_boolean text) as [p|] eqn:E3.
  { unfold parse_boolean in E3. destruct (test _ _ _); [|discriminate].
    injection E3 as <-. simpl. lia. }
  destruct (parse_letters_only text) as [p|] eqn:E4.
  { unfold parse_letters_only in E4. destruct (exec _ _ _); [|discriminate].
    destruct (match_all _ _ _); [|discriminate].
    destruct (_ && _); [|discriminate]. injection E4 as <-. simpl. lia. }
  destruct (parse_answer_phrase text) as [p|] eqn:E5.
  { unfold parse_answer_phrase in E5. destruct (exec _ _ _); [|discriminate].
    destruct (capture _ _); [|discriminate].
    destruct (match_all _ _ _); [|discriminate].
    injection E5 as <-. simpl. lia. }
  destruct (parse_short_text text) as [p|] eqn:E6.
  { unfold parse_short_text in E6. destruct (_ <=? _); [|discriminate].
    destruct (match_all _ _ _); [|discriminate].
    destruct (_ && _); [|discriminate]. injection E6 as <-. simpl. lia. }
  simpl. lia.
Qed.
End ParserFacts.

(* ================================================================== *)
(** * Facts about the retry loop *)
(* ================================================================== *)

Section RetryFacts.
Variable float_toString : string -> string.
Variable provider : Provider.
Variables (model prompt : string) (imageBase64 : option string).
Variable retries : nat.

Let attempt_at :=
  try_attempt float_toString provider model prompt imageBase64.
Let loop :=
  attempts_from float_toString provider model prompt imageBase64 retries.

(** When every remaining attempt fails, each of them is made, and the
    envelope reports the error of the last one. *)
Lemma attempts_from_all_fail left attempt :
  1 <= left -> attempt + left = S retries ->
  (forall k, attempt <= k <= retries -> exists err, attempt_at k = inr err) ->
  attempts_made (snd (loop left attempt)) = seq attempt left
  /\ exists err, attempt_at retries = inr err
                 /\ fst (loop left attempt) = exhausted float_toString model err.
Proof.
  revert attempt. induction left as [|left IH]; intros attempt Hl Hsum Hall;
    [lia|].
  destruct (Hall attempt ltac:(lia)) as [err Herr].
  unfold loop, attempt_at in *. cbn [attempts_from]. rewrite Herr.
  destruct (Nat.eqb attempt retries) eqn:E.
  - apply Nat.eqb_eq in E. assert (left = 0) by lia. subst left attempt.
    split; [reflexivity|]. exists err. split; [assumption|reflexivity].
  - apply Nat.eqb_neq in E.
    destruct (IH (S attempt)) as [Hev (err' & He' & Hr)];
      [lia | lia | intros k Hk; apply Hall; lia |].
    destruct (attempts_from _ _ _ _ _ _ left (S attempt)) as [r evs].
    simpl in *. split; [now rewrite Hev|]. exists err'. now split.
Qed.

(** When attempt [k] is the first that succeeds, the attempts up to
    [k] are made and no other, and its result is returned. *)
Lemma attempts_from_first_success left attempt k result :
  attempt + left = S retries -> attempt <= k <= retries ->
  (forall j, attempt <= j < k -> exists err, attempt_at j = inr err) ->
  attempt_at k = inl result ->
  fst (loop left attempt) = result
  /\ attempts_made (snd (loop left attempt)) = seq attempt (S k - attempt).
Proof.
  revert attempt.
  induction left as [|left IH]; intros attempt Hsum Hk Hbefore Hok; [lia|].
  unfold loop, attempt_at in *. cbn [attempts_from].
  destruct (decide (attempt = k)) as [->|Hne].
  - rewrite Hok. simpl. replace (S k - k) with 1 by lia. now split.
  - destruct (Hbefore attempt ltac:(lia)) as [err Herr]. rewrite Herr.
    destruct (Nat.eqb attempt retries) eqn:E;
      [apply Nat.eqb_eq in E; lia|].
    destruct (IH (S attempt)) as (Hr & Hev);
      [lia | lia | intros j Hj; apply Hbefore; lia | assumption |].
    destruct (attempts_from _ _ _ _ _ _ left (S attempt)) as [r evs].
    simpl in *. split; [assumption|]. rewrite Hev.
    replace (S k - attempt) with (S (k - attempt)) by lia. reflexivity.
Qed.

(** A success carries a non-empty answer and a confidence between 0
    and 100. *)
Lemma try_attempt_success k a c m raw :
  attempt_at k = inl (Success a c m raw) ->
  a <> EmptyString /\ (0 <= c <= 100)%Z.
Proof.
  unfold attempt_at, try_attempt.
  destruct (provider _ k) as [e|response]; [discriminate|].
  destruct (extractText response) as [rawText|]; [|discriminate].
  destruct (truthy rawText && truthy (trim rawText)
            && truthy (pa_answer _)) eqn:E; [|discriminate].
  intros [= <- <- <- <-]. split.
  - apply andb_prop in E as [_ E]. now destruct (pa_answer _).
  - exact (parse_confidence_range float_toString (Some rawText)).
Qed.
(** So does every success that [callSingleModel] returns: the totals
    and averages of the tally are small integers, on which
    [Math.round] is exact. *)
Lemma attempts_from_success left attempt a c m raw :
  fst (loop left attempt) = Success a c m raw ->
  a <> EmptyString /\ (0 <= c <= 100)%Z.
Proof.
  revert attempt. induction left as [|left IH]; intros attempt;
    unfold loop in *; cbn [attempts_from]; [discriminate|].
  destruct (try_attempt _ _ _ _ _ attempt) as [r|e] eqn:E.
  - cbn [fst]. intros ->. exact (try_attempt_success attempt a c m raw E).
  - destruct (Nat.eqb attempt retries); [discriminate|].
    specialize (IH (S attempt)).
    destruct (attempts_from _ _ _ _ _ _ left (S attempt)) as [r evs].
    exact IH.
Qed.
End RetryFacts.

(* ================================================================== *)
(** * Facts about the ensemble decision *)
(* ================================================================== *)

Section DecisionFacts.
Variable float_toString : string -> string.
Variable provider : Provider.
Variables (prompt : string) (opts : list QuestionOption)
          (imageBase64 : option string).

Let results := worker_results float_toString provider prompt imageBase64.
Let judge := judge_result float_toString provider prompt imageBase64.

Lemma filter_none {A : Type} (P : A -> Prop) `{forall x, Decision (P x)}
    (l : list A) :
  Forall (fun x => ~ P x) l -> filter P l = [].
Proof.
  induction 1 as [|x l Hx _ IH]; [reflexivity|].
  now rewrite filter_cons_False.
Qed.

Lemma filter_success_Forall (l : list ModelResult) :
  Forall (fun r => success r = true) (filter (fun r => success r = true) l).
Proof.
  apply Forall_forall. intros r Hr.
  now apply list_elem_of_filter in Hr as [Hr _].
Qed.

(** Without a majority and with a failing judge, the first successful
    worker of largest confidence is returned. *)
Lemma ensemble_fallback :
  ordinary_keys opts results = true ->
  (forall key, length (supporters key results opts) < 2) ->
  success judge = false ->
  (exists r, In r results /\ success r = true) ->
  exists a c m raw front back,
    filter (fun r => success r = true) results
      = front ++ Success a c m raw :: back
    /\ Forall (fun r => (conf r < c)%Z) front
    /\ Forall (fun r => (conf r <= c)%Z) back
    /\ fst (callGeminiEnsemble float_toString provider prompt opts
              imageBase64)
       = inl (plain_result a c "fallback_worker").
Proof.
  intros Hkeys Hno Hjudge (r & Hin & Hr).
  pose proof (ensemble_no_majority float_toString provider prompt opts
                imageBase64 Hkeys Hno) as Hdec.
  fold results in Hdec. unfold judge in Hjudge.
  destruct (judge_result float_toString provider prompt imageBase64)
    as [? ? ? ?|jm je]; [discriminate|].
  pose proof (sort_confident_head _ (filter_success_Forall results)) as Hbest.
  destruct (head (sort confident_before
                    (filter (fun r => success r = true) results)))
    as [b|] eqn:Eb.
  - destruct Hbest as (front & back & Hsplit & Hf & Hb).
    assert (Hsb : success b = true).
    { pose proof (filter_success_Forall results) as Hall.
      rewrite Hsplit in Hall. apply Forall_app in Hall as [_ Hall].
      now apply Forall_cons in Hall as [Hall _]. }
    destruct b as [a c m raw|]; [|discriminate].
    exists a, c, m, raw, front, back. repeat split; try assumption.
    rewrite Hdec. unfold best_worker. now rewrite Eb.
  - exfalso. assert (Hr' : r ∈ filter (fun r => success r = true) results).
    { apply list_elem_of_filter. split; [assumption|].
      now apply list_elem_of_In. }
    rewrite Hbest in Hr'. inversion Hr'.
Qed.

(** When the three workers and the judge fail, the call throws. *)
Lemma ensemble_exhausted :
  Forall (fun r => success r = false) results ->
  success judge = false ->
  fst (callGeminiEnsemble float_toString provider prompt opts imageBase64)
  = inr (new_Error "All models failed including Judge").
Proof.
  intros Hall Hjudge.
  assert (Hno : forall key, length (supporters key results opts) < 2).
  { intros key. unfold supporters. rewrite filter_none; [simpl; lia|].
    eapply Forall_impl; [exact Hall|].
    intros [? ? ? ?|? ?]; simpl; [discriminate|]. intros _. discriminate. }
  assert (Hkeys : ordinary_keys opts results = true).
  { apply forallb_forall. intros r Hr.
    rewrite Forall_forall in Hall. apply list_elem_of_In, Hall in Hr.
    destruct r; [discriminate | reflexivity]. }
  pose proof (ensemble_no_majority float_toString provider prompt opts
                imageBase64 Hkeys Hno) as Hdec.
  fold results in Hdec. unfold judge in Hjudge.
  destruct (judge_result float_toString provider prompt imageBase64)
    as [? ? ? ?|jm je]; [discriminate|].
  rewrite Hdec. unfold best_worker. rewrite filter_none; [reflexivity|].
  eapply Forall_impl; [exact Hall|]. simpl. intros r ->. discriminate.
Qed.
End DecisionFacts.

(* ================================================================== *)
(** * Properties of the resolution engine *)
(* ================================================================== *)

(** C1, at the failing input. Two of the three workers answer with the
    text of the option labelled "constructor", so that they share this
    normalized answer; the lookup in the tally finds the member
    inherited from [Object.prototype], and the round throws a
    [TypeError] where the claim has the majority answer "constructor"
    with confidence 85. *)
Theorem inherited_answer_breaks_the_majority :
  forall float_toString,
    map (vote_key inherited_options)
        (worker_results float_toString inherited_round "prompt" None)
    = [Some "constructor"; Some "constructor"; Some "B"]
    /\ fst (callGeminiEnsemble float_toString inherited_round "prompt"
              inherited_options None)
       = inr {| name := "TypeError";
                message :=
                  "Cannot read properties of undefined (reading 'push')" |}.
Proof.
  intros fts. split; vm_compute; reflexivity.
Qed.

(** C2, at the failing input. [callGeminiEnsemble] applies no penalty: a
    worker that lists the four letters A, B, C, D with confidence 95
    keeps its 95 and wins the fallback over A(90) and B(85) when the
    judge fails, whereas step 1 of [_confidenceWeightedVote] caps such a
    result at 40 and marks it unreliable. *)
Theorem listing_worker_wins_on_raw_confidence :
  forall float_toString,
    fst (callGeminiEnsemble float_toString listing_round "prompt" [] None)
    = inl (plain_result "A, B, C, D" 95 "fallback_worker")
    /\ mark (Success "A, B, C, D" 95 (MODELS_at 0) "raw")
       = Some {| mr_answer := "A, B, C, D"; mr_confidence := 40;
                 mr_model := MODELS_at 0; mr_unreliable := true |}.
Proof.
  intros fts. split; vm_compute; reflexivity.
Qed.

(** What step 1 of [_confidenceWeightedVote] does with every result of
    four labels or more. *)
Lemma mark_caps_unreliable a c m raw :
  4 <= length (normalizeAnswer (Some a)) ->
  mark (Success a c m raw)
  = Some {| mr_answer := a; mr_confidence := Z.min c 40;
            mr_model := m; mr_unreliable := true |}.
Proof.
  intros H. unfold mark. apply Nat.leb_le in H. now rewrite H.
Qed.

(** C4 as stated fails: with workers A(90), B(85), C(70) and a failing
    judge the method is "fallback_worker", not "fallback_confidence". *)
Lemma fallback_method_counterexample :
  fst (callGeminiEnsemble as_written split_round "prompt" [] None)
  = inl (plain_result "A" 90 "fallback_worker")
  /\ fst (callGeminiEnsemble as_written split_round "prompt" [] None)
     <> inl (plain_result "A" 90 "fallback_confidence").
Proof.
  split; [vm_compute; reflexivity|].
  vm_compute. intros H. discriminate H.
Qed.

(** C4, amended. When no two workers are tallied under the same
    normalized answer and none under the name of a member of
    [Object.prototype], the judge fails, at least one worker succeeded,
    and every successful worker is reliable (fewer than four labels),
    [callGeminiEnsemble] returns the answer and the confidence of the
    first successful worker of largest confidence, with method
    "fallback_worker". In particular the workers A(90), B(85), C(70)
    with a failing judge give "A" with confidence 90. *)
Theorem fallback_to_best_worker :
  (forall float_toString provider prompt opts imageBase64,
     let results :=
       worker_results float_toString provider prompt imageBase64 in
     (forall key, length (supporters key results opts) < 2) ->
     ordinary_keys opts results = true ->
     success (judge_result float_toString provider prompt imageBase64)
       = false ->
     (exists r, In r results /\ success r = true) ->
     Forall (fun r => success r = true ->
                      length (normalizeAnswer (answer r)) < 4) results ->
     exists a c m raw front back,
       filter (fun r => success r = true) results
         = front ++ Success a c m raw :: back
       /\ Forall (fun r => (conf r < c)%Z) front
       /\ Forall (fun r => (conf r <= c)%Z) back
       /\ fst (callGeminiEnsemble float_toString provider prompt opts
                 imageBase64)
          = inl (plain_result a c "fallback_worker"))
  /\ fst (callGeminiEnsemble as_written split_round "prompt" [] None)
     = inl (plain_result "A" 90 "fallback_worker").
Proof.
  split.
  - intros fts provider prompt opts image results Hno Hkeys Hjudge Hsome _.
    exact (ensemble_fallback fts provider prompt opts image Hkeys Hno Hjudge
             Hsome).
  - vm_compute. reflexivity.
Qed.

(** C8. When the three workers and the judge all fail, the call throws
    "All models failed including Judge": there is no result, hence no
    made-up answer. *)
Theorem all_models_failed_is_an_error :
  forall float_toString provider prompt opts imageBase64,
    (forall model, In model MODELS ->
       success (fst (callSingleModel float_toString provider model prompt
                       imageBase64 3)) = false) ->
    fst (callGeminiEnsemble float_toString provider prompt opts imageBase64)
    = inr (new_Error "All models failed including Judge").
Proof.
  intros fts provider prompt opts image Hall.
  apply ensemble_exhausted.
  - unfold worker_results, workers.
    repeat constructor; apply Hall; simpl; tauto.
  - apply Hall. simpl. tauto.
Qed.

(** The example of C4 under its amended reading: A(90), B(85), C(70)
    and a failing judge. *)
Lemma fallback_to_best_worker_example :
  exists a c m raw front back,
    filter (fun r => success r = true)
           (worker_results as_written split_round "prompt" None)
      = front ++ Success a c m raw :: back
    /\ Forall (fun r => (conf r < c)%Z) front
    /\ Forall (fun r => (conf r <= c)%Z) back
    /\ fst (callGeminiEnsemble as_written split_round "prompt" [] None)
       = inl (plain_result a c "fallback_worker").
Proof.
  apply (proj1 fallback_to_best_worker as_written split_round "prompt" []
           None).
  - intros key.
    replace (worker_results as_written split_round "prompt" None)
      with [ Success "A" 90 (MODELS_at 0) (answer_json "A" "90");
             Success "B" 85 (MODELS_at 1) (answer_json "B" "85");
             Success "C" 70 (MODELS_at 2) (answer_json "C" "70") ]
      by (vm_compute; reflexivity).
    unfold supporters. rewrite !filter_cons, filter_nil.
    replace (vote_key [] (Success "A" 90 (MODELS_at 0) (answer_json "A" "90")))
      with (Some "A") by (vm_compute; reflexivity).
    replace (vote_key [] (Success "B" 85 (MODELS_at 1) (answer_json "B" "85")))
      with (Some "B") by (vm_compute; reflexivity).
    replace (vote_key [] (Success "C" 70 (MODELS_at 2) (answer_json "C" "70")))
      with (Some "C") by (vm_compute; reflexivity).
    destruct (decide (Some "A" = Some key)) as [Ea|_];
      destruct (decide (Some "B" = Some key)) as [Eb|_];
      destruct (decide (Some "C" = Some key)) as [Ec|_];
      simpl; try lia; congruence.
  - vm_compute. reflexivity.
  - vm_compute. reflexivity.
  - exists (Success "A" 90 (MODELS_at 0) (answer_json "A" "90")).
    split; [vm_compute; tauto | reflexivity].
  - replace (worker_results as_written split_round "prompt" None)
      with [ Success "A" 90 (MODELS_at 0) (answer_json "A" "90");
             Success "B" 85 (MODELS_at 1) (answer_json "B" "85");
             Success "C" 70 (MODELS_at 2) (answer_json "C" "70") ]
      by (vm_compute; reflexivity).
    repeat constructor; intros _; vm_compute; lia.
Defined.

(** An instance of C8: every model refuses the connection. *)
Lemma all_models_failed_example :
  fst (callGeminiEnsemble as_written dead_round "prompt" [] None)
  = inr (new_Error "All models failed including Judge").
Proof.
  apply (all_models_failed_is_an_error as_written dead_round "prompt" [] None).
  intros model [<-|[<-|[<-|[<-|[]]]]]; vm_compute; reflexivity.
Defined.

(* ================================================================== *)
(** * Properties of the provider client *)
(* ================================================================== *)

(** C3 as stated fails: a failure that [formatError] classifies as an
    invalid API key is retried; with three attempts allowed, all three
    are made. *)
Lemma auth_failure_is_retried_counterexample :
  formatError as_written auth_failure = "🔑 API key invalid"
  /\ isOverload auth_failure = false
  /\ attempts_made
       (snd (callSingleModel as_written unauthorized "model" "prompt" None 3))
     = [1; 2; 3]
  /\ attempts_made
       (snd (callSingleModel as_written unauthorized "model" "prompt" None 3))
     <> [1].
Proof.
  repeat split; try (vm_compute; reflexivity).
  vm_compute. intros H. discriminate H.
Qed.

(** C3, amended. With [retries >= 1], [callSingleModel] retries every
    failed attempt, whatever the error: when all [retries] attempts fail
    they are all made and the failure envelope reports the last error;
    when attempt [k] is the first to succeed, the attempts 1 to [k] are
    made and its result is returned. The REST client [callGeminiREST]
    returns "Missing API Key" at once, without a call, when there is no
    key. *)
Theorem every_failure_is_retried :
  forall float_toString provider model prompt imageBase64 retries,
    1 <= retries ->
    let attempt_at :=
      try_attempt float_toString provider model prompt imageBase64 in
    let call :=
      callSingleModel float_toString provider model prompt imageBase64
        retries in
    ((forall k, 1 <= k <= retries -> exists err, attempt_at k = inr err) ->
     attempts_made (snd call) = seq 1 retries
     /\ exists err, attempt_at retries = inr err
                    /\ fst call = exhausted float_toString model err)
    /\ (forall k result,
          1 <= k <= retries ->
          (forall j, 1 <= j < k -> exists err, attempt_at j = inr err) ->
          attempt_at k = inl result ->
          fst call = result /\ attempts_made (snd call) = seq 1 k)
    /\ (forall fetch,
          Rest.callGeminiREST float_toString None fetch model prompt
            imageBase64
          = (Rest.RestFailure model "Missing API Key", [])).
Proof.
  intros fts provider model prompt image retries Hretries attempt_at call.
  split; [|split].
  - intros Hall.
    apply (attempts_from_all_fail fts provider model prompt image retries
             retries 1); [assumption | lia | assumption].
  - intros k result Hk Hbefore Hok.
    destruct (attempts_from_first_success fts provider model prompt image
                retries retries 1 k result) as [Hr Hev];
      [lia | assumption | assumption | assumption |].
    subst call. unfold callSingleModel. split; [assumption|].
    rewrite Hev. f_equal. lia.
  - reflexivity.
Qed.

(** An instance of C3 as amended: three refused attempts. *)
Lemma every_failure_is_retried_example :
  attempts_made
    (snd (callSingleModel as_written unauthorized "model" "prompt" None 3))
  = seq 1 3
  /\ exists err,
       try_attempt as_written unauthorized "model" "prompt" None 3 = inr err
       /\ fst (callSingleModel as_written unauthorized "model" "prompt" None 3)
          = exhausted as_written "model" err.
Proof.
  apply (every_failure_is_retried as_written unauthorized "model" "prompt"
           None 3 ltac:(lia)).
  intros k _. exists auth_failure. reflexivity.
Defined.

(* ================================================================== *)
(** * Properties of the prompt builder *)
(* ================================================================== *)

(** C5, at the failing input. For a plain string [buildPrompt] returns
    the same fixed text whatever the question is: the question text is
    not part of the prompt. The builder of the REST variant returns the
    string itself, and the object branch below renders the question. *)
Theorem string_prompt_omits_question :
  (forall q, buildPrompt (AsString q) = string_prompt)
  /\ includes (buildPrompt (AsString "Which port does Winbox use?"))
              "Which port does Winbox use?" = false
  /\ Rest.buildPrompt (AsString "Which port does Winbox use?")
     = "Which port does Winbox use?".
Proof.
  split; [reflexivity|]. split; vm_compute; reflexivity.
Qed.

(** For a structured question the parts come in the order the
    specification gives: preamble, question, the options as
    "label. text" lines in their order, the demand for the JSON object,
    and the note about the image when there is one. *)
Lemma object_prompt_layout q o os t n img :
  buildPrompt (AsObject {| question := q; options := Some (o :: os);
                           type := t; number := n; image := img |})
  = object_preamble
    +:+ "Question: " +:+ q +:+ LF
    +:+ ("Options:" +:+ LF
         +:+ Js.concat (map (fun x => label x +:+ ". " +:+ text x +:+ LF)
                            (o :: os))
         +:+ type_line t)
    +:+ output_format
    +:+ match img with
        | Some (String _ _) =>
            LF +:+ "[IMAGE DETECTED] An image is provided with this question. Analyze the image carefully." +:+ LF
        | _ => EmptyString
        end.
Proof. reflexivity. Qed.

(* ================================================================== *)
(** * Reading a JSON object out of a reply *)
(* ================================================================== *)

Section StringFacts.
Lemma append_cons x (a b : string) : String x a +:+ b = String x (a +:+ b).
Proof. reflexivity. Qed.

Lemma append_nil_l (a : string) : EmptyString +:+ a = a.
Proof. reflexivity. Qed.

Lemma append_assoc (a b c : string) : (a +:+ b) +:+ c = a +:+ (b +:+ c).
Proof.
  induction a as [|x a IH]; [reflexivity|].
  now rewrite !append_cons, IH.
Qed.

Lemma append_nil_r (a : string) : a +:+ EmptyString = a.
Proof.
  induction a as [|x a IH]; [reflexivity|]. now rewrite append_cons, IH.
Qed.

Lemma length_append (a b : string) :
  String.length (a +:+ b) = String.length a + String.length b.
Proof.
  induction a as [|x a IH]; [reflexivity|].
  rewrite append_cons. simpl. now rewrite IH.
Qed.

Lemma has_char_append c (a b : string) :
  has_char c (a +:+ b) = has_char c a || has_char c b.
Proof.
  induction a as [|x a IH]; [reflexivity|].
  rewrite append_cons. simpl. rewrite IH. now rewrite orb_assoc.
Qed.
End StringFacts.

Section RegexFacts.
Context {R : Type}.
Implicit Types (k : bool -> string -> captures -> option R).

(** A lazy star stops at once when what follows matches. *)
Lemma lazy_star_stops (m : matcher) k fuel bol s caps x :
  k bol s caps = Some x ->
  star_loop m false k fuel bol s caps = Some x.
Proof. intros H. destruct fuel; simpl; now rewrite H. Qed.

(** A lazy [[\s\S]*?] in front of a literal character [c] stops at the
    first occurrence of [c], when what follows [c] in the pattern
    matches there. *)
Lemma lazy_any_until c u v fuel bol caps k x :
  has_char c u = false ->
  String.length u <= fuel ->
  k false v caps = Some x ->
  star_loop (run false (Set_ CAny)) false
    (fun b s c' => run false (Set_ (CChar c)) b s c' k)
    fuel bol (u +:+ String c v) caps
  = Some x.
Proof.
  intros Hu Hfuel Hk. revert fuel bol Hfuel.
  induction u as [|y u IH]; intros fuel bol Hfuel.
  - apply lazy_star_stops. simpl. unfold cset_match. simpl.
    now rewrite Ascii.eqb_refl.
  - simpl in Hu. apply orb_false_elim in Hu as [Hy Hu].
    destruct fuel as [|fuel]; [simpl in Hfuel; lia|].
    rewrite append_cons. cbn [star_loop run]. unfold cset_match at 1.
    cbn [cset_mem]. rewrite Ascii.eqb_sym, Hy.
    unfold cset_match at 1. cbn [cset_mem].
    replace (String.length (u +:+ String c v)
             <? String.length (String y (u +:+ String c v))) with true
      by (symmetry; apply Nat.ltb_lt; simpl; lia).
    apply IH; [assumption | simpl in Hfuel; lia].
Qed.
End RegexFacts.

Ltac norm_append :=
  repeat (rewrite append_assoc || rewrite append_cons || rewrite append_nil_l).

Section AnswerObjectFacts.

Lemma take_append (a b : string) : take (String.length a) (a +:+ b) = a.
Proof.
  unfold take. induction a as [|x a IH]; simpl.
  - now destruct b.
  - rewrite ?append_cons. simpl. now rewrite IH.
Qed.

Lemma plain_text_lacks c a :
  plain_text a = true ->
  (c = "}"%char \/ c = "`"%char \/ c = dquote \/ c = "\"%char) ->
  has_char c a = false.
Proof.
  intros Ha Hc. induction a as [|x a IH]; [reflexivity|].
  simpl in Ha. repeat (apply andb_prop in Ha as [Ha ?]).
  simpl. rewrite IH by assumption. rewrite orb_false_r.
  destruct Hc as [-> | [-> | [-> | ->]]];
    match goal with H : negb (Ascii.eqb x ?c) = true |- Ascii.eqb x ?c = _ =>
      now apply negb_true_iff in H end.
Qed.

Lemma digit_not c x : is_digit x = true -> code c < 48 \/ 57 < code c ->
  Ascii.eqb x c = false.
Proof.
  intros Hx Hc. apply Ascii.eqb_neq. intros ->.
  unfold is_digit, in_range in Hx. apply andb_prop in Hx as [H1 H2].
  apply Nat.leb_le in H1, H2. lia.
Qed.

Lemma all_digits_lacks c s :
  Json.all_digits s = true -> code c < 48 \/ 57 < code c ->
  has_char c s = false.
Proof.
  intros Hs Hc. induction s as [|x s IH]; [reflexivity|].
  simpl in Hs. apply andb_prop in Hs as [Hx Hs]. simpl.
  now rewrite (digit_not c x Hx Hc), IH.
Qed.

Lemma positive_literal_digits c :
  positive_literal c = true -> Json.all_digits c = true.
Proof.
  destruct c as [|d t]; [discriminate|]. simpl.
  intros H. apply andb_prop in H as [Hd Ht]. rewrite Ht, andb_true_r.
  unfold in_range in *. apply andb_prop in Hd as [H1 H2].
  apply Nat.leb_le in H1, H2. apply andb_true_intro.
  split; apply Nat.leb_le; lia.
Qed.

Lemma answer_json_split a c post :
  answer_json a c +:+ post
  = "{" +:+ (quoted "answer" +:+ (answer_json_middle a c +:+ String "}" post)).
Proof.
  unfold answer_json, answer_json_middle, quoted, DQ. norm_append.
  reflexivity.
Qed.

Lemma answer_json_middle_lacks_brace a c :
  plain_text a = true -> positive_literal c = true ->
  has_char "}" (answer_json_middle a c) = false.
Proof.
  intros Ha Hc. unfold answer_json_middle, quoted, DQ.
  rewrite !has_char_append.
  rewrite (plain_text_lacks "}" a Ha) by auto.
  rewrite (all_digits_lacks "}" c (positive_literal_digits c Hc))
    by (right; vm_compute; lia).
  reflexivity.
Qed.

Lemma run_literal {R : Type} p rest bol caps
    (k : bool -> string -> captures -> option R) :
  p <> EmptyString ->
  run false (Lit p) bol (p +:+ rest) caps k = k false rest caps.
Proof.
  revert bol. induction p as [|x p IH]; intros bol Hp; [congruence|].
  destruct p as [|y p].
  - cbn [Lit run]. rewrite append_cons, append_nil_l.
    unfold cset_match. cbn [cset_mem]. now rewrite Ascii.eqb_refl.
  - change (Lit (String x (String y p)))
      with (Seq (Set_ (CChar x)) (Lit (String y p))).
    cbn [run]. rewrite append_cons.
    unfold cset_match. cbn [cset_mem]. rewrite Ascii.eqb_refl.
    now apply IH.
Qed.

(** The pattern for the JSON object matches exactly the object built by
    [answer_json], whatever follows it. *)
Lemma answer_object_here a c post bol :
  plain_text a = true -> positive_literal c = true ->
  match_here false re_answer_object bol (answer_json a c +:+ post)
  = Some (answer_json a c, post, []).
Proof.
  intros Ha Hc. unfold match_here.
  set (whole := answer_json a c +:+ post).
  set (kfin := fun (_ : bool) s' (cp : captures) =>
                 Some (take (String.length whole - String.length s') whole,
                       s', cp)).
  assert (Hfin : kfin false post [] = Some (answer_json a c, post, [])).
  { unfold kfin, whole. rewrite length_append.
    replace (_ + _ - _) with (String.length (answer_json a c)) by lia.
    now rewrite take_append. }
  rewrite <- Hfin. unfold whole at 1. rewrite answer_json_split.
  unfold re_answer_object. cbn [run].
  rewrite (run_literal "{") by discriminate.
  cbn [any_text run]. apply lazy_star_stops.
  rewrite (run_literal (quoted "answer")) by discriminate.
  cbn [run].
  apply (lazy_any_until "}"); [|rewrite length_append; lia|reflexivity].
  now apply answer_json_middle_lacks_brace.
Qed.
End AnswerObjectFacts.

Section AnswerObjectSearch.

Lemma answer_object_not_here x t bol :
  Ascii.eqb x "{" = false ->
  match_here false re_answer_object bol (String x t) = None.
Proof.
  intros Hx. unfold match_here, re_answer_object. cbn [run Lit].
  unfold cset_match. cbn [cset_mem]. now rewrite Ascii.eqb_sym, Hx.
Qed.

Lemma exec_from_eq icase r i s :
  exec_from icase r i s =
  match match_here icase r (Nat.eqb i 0) s with
  | Some (m, rest, c) => Some (Found i m rest c)
  | None =>
      match s with
      | EmptyString => None
      | String _ t => exec_from icase r (S i) t
      end
  end.
Proof. destruct s; reflexivity. Qed.

Lemma answer_object_exec_from pre a c post i :
  has_char "{" pre = false ->
  plain_text a = true -> positive_literal c = true ->
  exec_from false re_answer_object i (pre +:+ answer_json a c +:+ post)
  = Some (Found (i + String.length pre) (answer_json a c) post []).
Proof.
  intros Hpre Ha Hc. revert i.
  induction pre as [|x pre IH]; intros i.
  - rewrite append_nil_l, exec_from_eq, answer_object_here by assumption.
    simpl. now rewrite Nat.add_0_r.
  - simpl in Hpre. apply orb_false_elim in Hpre as [Hx Hpre].
    rewrite append_cons, exec_from_eq.
    rewrite answer_object_not_here by assumption.
    rewrite IH by assumption. simpl. do 2 f_equal. lia.
Qed.

(** In a text with no brace before it, the object built by [answer_json]
    is what the pattern finds. *)
Lemma answer_object_exec pre a c post :
  has_char "{" pre = false ->
  plain_text a = true -> positive_literal c = true ->
  exec false re_answer_object (pre +:+ answer_json a c +:+ post)
  = Some (Found (String.length pre) (answer_json a c) post []).
Proof. intros. unfold exec. now rewrite answer_object_exec_from. Qed.

Lemma fence_not_here x t bol :
  Ascii.eqb x "`" = false ->
  match_here false re_fence bol (String x t) = None.
Proof.
  intros Hx. unfold match_here, re_fence.
  change (Lit "```json") with (Seq (Set_ (CChar "`")) (Lit "``json")).
  change (Lit "```") with (Seq (Set_ (CChar "`")) (Lit "``")).
  cbn [run]. unfold cset_match. cbn [cset_mem].
  now rewrite Ascii.eqb_sym, Hx.
Qed.

Lemma fence_not_at_end bol : match_here false re_fence bol EmptyString = None.
Proof. reflexivity. Qed.

Lemma scan_without_fence fuel bol s :
  has_char "`" s = false -> String.length s < fuel ->
  Js.concat (map (fun p => match p with
                           | Matched _ => EmptyString
                           | Kept c => String c EmptyString
                           end) (scan false re_fence fuel bol s)) = s.
Proof.
  revert fuel bol. induction s as [|x s IH]; intros fuel bol Hs Hfuel.
  - destruct fuel; [lia|]. reflexivity.
  - destruct fuel; [lia|]. simpl in Hs.
    apply orb_false_elim in Hs as [Hx Hs].
    cbn [scan]. rewrite fence_not_here by assumption.
    cbn [map Js.concat]. rewrite IH; [reflexivity | assumption|].
    simpl in Hfuel. lia.
Qed.

(** Removing code fences leaves a text without back quotes as it is. *)
Lemma replace_fence_id s :
  has_char "`" s = false -> replace_all false re_fence EmptyString s = s.
Proof.
  intros Hs. unfold replace_all, pieces. apply scan_without_fence; [assumption|].
  lia.
Qed.

Lemma trimEnd_keeps s x :
  is_space x = false ->
  trimEnd (s +:+ String x EmptyString) = s +:+ String x EmptyString.
Proof.
  intros Hx. induction s as [|y s IH].
  - rewrite append_nil_l. simpl. now rewrite Hx.
  - rewrite append_cons. cbn [trimEnd]. rewrite IH.
    destruct s; reflexivity.
Qed.

Lemma answer_json_trim a c : trim (answer_json a c) = answer_json a c.
Proof.
  unfold trim.
  assert (E : answer_json a c
              = (("{" +:+ quoted "answer" +:+ ": " +:+ quoted a +:+ ", "
                  +:+ quoted "confidence" +:+ ": " +:+ c)
                 +:+ String "}" EmptyString)).
  { unfold answer_json, quoted, DQ. norm_append. reflexivity. }
  assert (E1 : trimStart (answer_json a c) = answer_json a c).
  { unfold answer_json. rewrite append_cons. reflexivity. }
  rewrite E1. rewrite E at 1. rewrite trimEnd_keeps by reflexivity.
  now rewrite <- E.
Qed.

Lemma answer_json_lacks_backquote a c :
  plain_text a = true -> positive_literal c = true ->
  has_char "`" (answer_json a c) = false.
Proof.
  intros Ha Hc. unfold answer_json, quoted, DQ.
  rewrite !has_char_append.
  rewrite (plain_text_lacks "`" a Ha) by auto.
  rewrite (all_digits_lacks "`" c (positive_literal_digits c Hc))
    by (right; vm_compute; lia).
  reflexivity.
Qed.
End AnswerObjectSearch.

Section AnswerObjectParse.
Import Json.

Lemma parse_chars_with_plain p rest fuel :
  plain_text p = true -> String.length p < fuel ->
  parse_chars_with fuel (p +:+ String dquote rest) = Parsed p rest.
Proof.
  revert fuel. induction p as [|x p IH]; intros fuel Hp Hfuel.
  - destruct fuel; [lia|]. rewrite append_nil_l. cbn [parse_chars_with].
    now rewrite Ascii.eqb_refl.
  - destruct fuel; [lia|]. simpl in Hp.
    repeat (apply andb_prop in Hp as [Hp ?]).
    rewrite append_cons. cbn [parse_chars_with].
    repeat match goal with
           | H : negb _ = true |- _ => apply negb_true_iff in H; rewrite ?H
           end.
    rewrite IH; [reflexivity | assumption | simpl in Hfuel; lia].
Qed.

Lemma parse_chars_plain p rest :
  plain_text p = true ->
  parse_chars (p +:+ String dquote rest) = Parsed p rest.
Proof.
  intros Hp. unfold parse_chars. apply parse_chars_with_plain; [assumption|].
  rewrite length_append. simpl. lia.
Qed.

Lemma digits_all c x rest :
  all_digits c = true -> is_digit x = false ->
  digits (c +:+ String x rest) = (c, String x rest).
Proof.
  intros Hc Hx. induction c as [|d c IH].
  - rewrite append_nil_l. simpl. now rewrite Hx.
  - simpl in Hc. apply andb_prop in Hc as [Hd Hc].
    rewrite append_cons. cbn [digits]. now rewrite Hd, IH.
Qed.

Lemma positive_literal_first c :
  positive_literal c = true ->
  exists d t, c = String d t /\ in_range 49 57 d = true
              /\ all_digits t = true.
Proof.
  destruct c as [|d t]; [discriminate|]. simpl. intros H.
  apply andb_prop in H as [Hd Ht]. eauto.
Qed.

Lemma digit_1_9_not d x :
  in_range 49 57 d = true -> code x < 49 \/ 57 < code x ->
  Ascii.eqb d x = false.
Proof.
  intros Hd Hx. apply Ascii.eqb_neq. intros ->.
  unfold in_range in Hd. apply andb_prop in Hd as [H1 H2].
  apply Nat.leb_le in H1, H2. lia.
Qed.

Lemma prefix_first_differs (p : string) x y (t : string) :
  y <> x -> String.prefix (String x p) (String y t) = false.
Proof.
  intros H. simpl. destruct (ascii_dec x y); [congruence|reflexivity].
Qed.

Lemma parse_number_positive c rest :
  positive_literal c = true ->
  parse_number (c +:+ String "}" rest) = Parsed c (String "}" rest).
Proof.
  intros Hc.
  pose proof (positive_literal_digits c Hc) as Hall.
  destruct (positive_literal_first c Hc) as (d & t & -> & Hd & Ht).
  unfold parse_number. rewrite append_cons.
  unfold starts_with at 1.
  rewrite (digit_1_9_not d "-" Hd) by (left; vm_compute; lia).
  unfold integer_part. unfold starts_with at 1.
  rewrite (digit_1_9_not d "0" Hd) by (left; vm_compute; lia).
  unfold digits1. rewrite <- append_cons.
  rewrite (digits_all (String d t) "}" rest Hall eq_refl).
  cbn [fraction_part exponent_part starts_with Ascii.eqb Bool.eqb].
  now rewrite !append_nil_r.
Qed.

Lemma parse_scalar_positive c rest :
  positive_literal c = true ->
  parse_scalar (c +:+ String "}" rest) = Parsed (Number c) (String "}" rest).
Proof.
  intros Hc.
  pose proof (parse_number_positive c rest Hc) as Hn.
  destruct (positive_literal_first c Hc) as (d & t & -> & Hd & Ht).
  unfold parse_scalar. rewrite append_cons in *.
  unfold starts_with at 1.
  rewrite (digit_1_9_not d dquote Hd) by (left; vm_compute; lia).
  unfold strip_prefix.
  assert (Hne : forall x, code x < 49 \/ 57 < code x -> d <> x).
  { intros x Hx ->. apply (digit_1_9_not x x Hd) in Hx.
    now rewrite Ascii.eqb_refl in Hx. }
  rewrite !prefix_first_differs
    by (apply Hne; right; vm_compute; lia).
  now rewrite Hn.
Qed.
End AnswerObjectParse.

Section AnswerObjectValue.
Import Json.

Lemma answer_json_shape a c :
  let tail3 := c +:+ String "}" EmptyString in
  let tail2 := "confidence" +:+ String dquote (String ":" (String " " tail3)) in
  let tail1 :=
    a +:+ String dquote (String "," (String " " (String dquote tail2))) in
  answer_json a c
  = String "{" (String dquote
      ("answer" +:+ String dquote (String ":" (String " "
         (String dquote tail1))))).
Proof.
  unfold answer_json, quoted, DQ. norm_append. reflexivity.
Qed.

Lemma skip_space_keep x t :
  is_json_space x = false -> skip_space (String x t) = String x t.
Proof. intros H. simpl. now rewrite H. Qed.

Lemma skip_space_blank t : skip_space (String " " t) = skip_space t.
Proof. reflexivity. Qed.

Lemma starts_with_same x t : starts_with x (String x t) = Some t.
Proof. simpl. now rewrite Ascii.eqb_refl. Qed.

Lemma starts_with_other x y t :
  Ascii.eqb y x = false -> starts_with x (String y t) = None.
Proof. intros H. simpl. now rewrite H. Qed.

Lemma parse_value_S fuel s :
  parse_value (S fuel) s =
  match starts_with "{" (skip_space s), starts_with "[" (skip_space s) with
  | Some t, _ =>
      match starts_with "}" (skip_space t) with
      | Some rest => Parsed (Object []) rest
      | None => parse_members fuel t []
      end
  | None, Some t =>
      match starts_with "]" (skip_space t) with
      | Some rest => Parsed (Array []) rest
      | None => parse_elements fuel t []
      end
  | None, None => parse_scalar (skip_space s)
  end.
Proof. reflexivity. Qed.

Lemma parse_members_S fuel s acc :
  parse_members (S fuel) s acc =
  match starts_with dquote (skip_space s) with
  | Some t =>
      match parse_chars t with
      | Parsed key s1 =>
          match starts_with ":" (skip_space s1) with
          | Some s2 =>
              match parse_value fuel s2 with
              | Parsed v s3 =>
                  match starts_with "," (skip_space s3),
                        starts_with "}" (skip_space s3) with
                  | Some s4, _ => parse_members fuel s4 ((key, v) :: acc)
                  | None, Some rest =>
                      Parsed (Object (rev ((key, v) :: acc))) rest
                  | None, None => SyntaxError
                  end
              | e => e
              end
          | None => SyntaxError
          end
      | SyntaxError => SyntaxError
      | OutOfFuel => OutOfFuel
      end
  | None => SyntaxError
  end.
Proof. reflexivity. Qed.

Lemma parse_scalar_string p rest :
  plain_text p = true ->
  parse_scalar (String dquote (p +:+ String dquote rest))
  = Parsed (Str p) rest.
Proof.
  intros Hp. unfold parse_scalar.
  now rewrite starts_with_same, parse_chars_plain.
Qed.

(** [JSON.parse] of the object built by [answer_json]. *)
Lemma parse_value_answer_json a c fuel :
  plain_text a = true -> positive_literal c = true ->
  parse_value (S (S (S (S fuel)))) (answer_json a c)
  = Parsed (Object [("answer", Str a); ("confidence", Number c)])
           EmptyString.
Proof.
  intros Ha Hc.
  destruct (positive_literal_first c Hc) as (d & t & Ec & Hd & Ht).
  rewrite answer_json_shape. cbv zeta.
  rewrite parse_value_S, skip_space_keep, starts_with_same by reflexivity.
  rewrite skip_space_keep, (starts_with_other "}") by reflexivity.
  rewrite parse_members_S, skip_space_keep, starts_with_same by reflexivity.
  rewrite parse_chars_plain by reflexivity.
  rewrite skip_space_keep, starts_with_same by reflexivity.
  rewrite parse_value_S, skip_space_blank, skip_space_keep by reflexivity.
  rewrite (starts_with_other "{"), (starts_with_other "[") by reflexivity.
  rewrite parse_scalar_string by assumption.
  rewrite skip_space_keep, starts_with_same by reflexivity.
  rewrite parse_members_S, skip_space_blank, skip_space_keep,
    starts_with_same by reflexivity.
  rewrite parse_chars_plain by reflexivity.
  rewrite skip_space_keep, starts_with_same by reflexivity.
  rewrite parse_value_S, skip_space_blank.
  assert (Hsp : skip_space (c +:+ String "}" EmptyString)
                = c +:+ String "}" EmptyString).
  { rewrite Ec, append_cons. apply skip_space_keep.
    unfold is_json_space.
    unfold in_range in Hd. apply andb_prop in Hd as [H1 H2].
    apply Nat.leb_le in H1, H2.
    repeat (apply orb_false_intro); apply Nat.eqb_neq; lia. }
  rewrite Hsp.
  assert (Hfirst : forall x, code x < 49 \/ 57 < code x ->
                     starts_with x (c +:+ String "}" EmptyString) = None).
  { intros x Hx. rewrite Ec, append_cons. apply starts_with_other.
    now apply digit_1_9_not. }
  rewrite !Hfirst by (vm_compute; lia).
  rewrite parse_scalar_positive by assumption.
  rewrite skip_space_keep, (starts_with_other ","), starts_with_same
    by reflexivity.
  reflexivity.
Qed.

Lemma parse_answer_json a c :
  plain_text a = true -> positive_literal c = true ->
  parse (answer_json a c)
  = Some (Object [("answer", Str a); ("confidence", Number c)]).
Proof.
  intros Ha Hc. unfold parse, parse_with, enough.
  assert (Hlen : exists n, String.length (answer_json a c) = S n).
  { rewrite answer_json_shape. cbv zeta. simpl. eauto. }
  destruct Hlen as [n ->].
  replace (2 * S n + 2) with (S (S (S (S (2 * n))))) by lia.
  now rewrite parse_value_answer_json.
Qed.
End AnswerObjectValue.

Section AnswerObjectWins.
Import Json.
Variable float_toString : string -> string.

Lemma digits_value_ge acc s : (0 <= acc -> acc <= digits_value acc s)%Z.
Proof.
  revert acc. induction s as [|x s IH]; intros acc Hacc; simpl; [lia|].
  etransitivity; [|apply IH]; lia.
Qed.

Lemma positive_literal_value c :
  positive_literal c = true -> (0 < digits_value 0 c)%Z.
Proof.
  intros Hc. destruct (positive_literal_first c Hc) as (d & t & -> & Hd & Ht).
  simpl. unfold in_range in Hd. apply andb_prop in Hd as [H1 H2].
  apply Nat.leb_le in H1, H2.
  assert (1 <= 10 * 0 + Z.of_nat (code d - 48))%Z by lia.
  pose proof (digits_value_ge (10 * 0 + Z.of_nat (code d - 48)) t). lia.
Qed.

Lemma exact_integer_positive c :
  positive_literal c = true -> (digits_value 0 c <= 2 ^ 53)%Z ->
  exact_integer c = Some (digits_value 0 c).
Proof.
  intros Hc Hle.
  pose proof (positive_literal_digits c Hc) as Hall.
  destruct (positive_literal_first c Hc) as (d & t & -> & Hd & Ht).
  unfold exact_integer.
  assert (Hm : Ascii.eqb d "-" = false)
    by (apply digit_1_9_not; [assumption | left; vm_compute; lia]).
  replace (match String d t with
           | String "-" t0 => (true, t0)
           | _ => (false, String d t)
           end) with (false, String d t).
  - rewrite Hall. cbn [truthy andb].
    apply Z.leb_le in Hle. now rewrite Hle.
  - apply Ascii.eqb_neq in Hm.
    destruct d as [[] [] [] [] [] [] [] []]; try reflexivity. congruence.
Qed.

Lemma number_toString_positive c :
  positive_literal c = true -> (digits_value 0 c <= 2 ^ 53)%Z ->
  number_toString float_toString c = c.
Proof.
  intros Hc Hle. unfold number_toString.
  rewrite (exact_integer_positive c Hc Hle).
  pose proof (positive_literal_value c Hc).
  destruct (digits_value 0 c); [lia | reflexivity | reflexivity].
Qed.

Lemma digit_value_decimal x :
  is_digit x = true -> digit_value 10 x = Some (Z.of_nat (code x - 48)).
Proof.
  intros Hx. unfold digit_value. rewrite Hx.
  unfold is_digit, in_range in Hx. apply andb_prop in Hx as [H1 H2].
  apply Nat.leb_le in H1, H2.
  replace (code x - 48 <? 10) with true
    by (symmetry; apply Nat.ltb_lt; lia).
  reflexivity.
Qed.

Lemma leading_digits_all acc s :
  all_digits s = true ->
  leading_digits 10 (Some acc) s = Some (digits_value acc s).
Proof.
  revert acc. induction s as [|x s IH]; intros acc Hs; [reflexivity|].
  simpl in Hs. apply andb_prop in Hs as [Hx Hs].
  cbn [leading_digits digits_value]. rewrite (digit_value_decimal x Hx).
  cbn [default]. now rewrite IH.
Qed.

Lemma parseInt_string_positive c :
  positive_literal c = true ->
  parseInt_string c = Some (digits_value 0 c).
Proof.
  intros Hc.
  destruct (positive_literal_first c Hc) as (d & t & -> & Hd & Ht).
  assert (Hdig : is_digit d = true).
  { unfold is_digit, in_range in *. apply andb_prop in Hd as [H1 H2].
    apply Nat.leb_le in H1, H2. apply andb_true_intro.
    split; apply Nat.leb_le; lia. }
  assert (Hne : forall x, code x < 49 \/ 57 < code x -> d <> x).
  { intros x Hx ->. apply (digit_1_9_not x x Hd) in Hx.
    now rewrite Ascii.eqb_refl in Hx. }
  unfold parseInt_string.
  assert (Hsp : is_space d = false).
  { unfold is_space, in_range. unfold in_range in Hd.
    apply andb_prop in Hd as [H1 H2]. apply Nat.leb_le in H1, H2.
    apply orb_false_intro; [apply andb_false_intro2|];
      [apply Nat.leb_gt | apply Nat.eqb_neq]; lia. }
  cbn [trimStart]. rewrite Hsp.
  replace (match String d t with
           | String "-" t0 => (true, t0)
           | String "+" t0 => (false, t0)
           | _ => (false, String d t)
           end) with (false, String d t).
  - rewrite !prefix_first_differs by (apply Hne; left; vm_compute; lia).
    cbn [orb leading_digits]. rewrite (digit_value_decimal d Hdig).
    cbn [default digits_value]. now rewrite leading_digits_all.
  - pose proof (Hne "-"%char ltac:(left; vm_compute; lia)).
    pose proof (Hne "+"%char ltac:(left; vm_compute; lia)).
    destruct d as [[] [] [] [] [] [] [] []]; try reflexivity; congruence.
Qed.

(** What both JSON branches return for the object built by
    [answer_json]. *)
Lemma answer_of_answer_json a c :
  positive_literal c = true -> (digits_value 0 c <= 2 ^ 53)%Z ->
  answer_of_json float_toString
    (Object [("answer", Str a); ("confidence", Number c)])
  = Some {| pa_answer := toUpperCase a;
            pa_confidence := Z.min 100 (digits_value 0 c) |}.
Proof.
  intros Hc Hle. unfold answer_of_json. cbv zeta.
  change (get (Object [("answer", Str a); ("confidence", Number c)]) "answer")
    with (Some (Str a)).
  change (get_opt (Object [("answer", Str a); ("confidence", Number c)])
            "confidence") with (Number c).
  assert (Hs : toString float_toString
                 (if truthy_value float_toString (Str a) then Str a
                  else Str EmptyString) = Some a)
    by (destruct a; reflexivity).
  cbv iota beta. rewrite Hs. unfold parseInt. cbn [toString].
  rewrite (number_toString_positive c Hc Hle), (parseInt_string_positive c Hc).
  pose proof (positive_literal_value c Hc) as Hpos.
  unfold clamp_confidence, or_number.
  destruct (digits_value 0 c) eqn:E; [lia | | lia].
  cbn [Z.max Z.compare]. reflexivity.
Qed.
End AnswerObjectWins.

Section AnswerObjectReply.
Variable float_toString : string -> string.

Lemma fence_lines_not_here x t bol :
  Ascii.eqb x "`" = false -> Ascii.eqb x line_feed = false ->
  match_here false re_fence_lines bol (String x t) = None.
Proof.
  intros Hx Hl. unfold match_here, re_fence_lines, Opt.
  change (Lit "```json") with (Seq (Set_ (CChar "`")) (Lit "``json")).
  change (Lit "```") with (Seq (Set_ (CChar "`")) (Lit "``")).
  change (Lit LF) with (Set_ (CChar line_feed)).
  cbn [run]. unfold cset_match. cbn [cset_mem].
  now rewrite (Ascii.eqb_sym _ x), (Ascii.eqb_sym _ x), Hx, Hl.
Qed.

Lemma scan_without_fence_lines fuel bol s :
  has_char "`" s = false -> has_char line_feed s = false ->
  String.length s < fuel ->
  Js.concat (map (fun p => match p with
                           | Matched _ => EmptyString
                           | Kept c => String c EmptyString
                           end) (scan false re_fence_lines fuel bol s)) = s.
Proof.
  revert fuel bol. induction s as [|x s IH]; intros fuel bol Hs Hl Hfuel.
  - destruct fuel; [lia|]. reflexivity.
  - destruct fuel; [lia|]. simpl in Hs, Hl.
    apply orb_false_elim in Hs as [Hx Hs].
    apply orb_false_elim in Hl as [Hxl Hl].
    cbn [scan]. rewrite fence_lines_not_here by assumption.
    cbn [map Js.concat]. rewrite IH; [reflexivity | assumption | assumption |].
    simpl in Hfuel. lia.
Qed.

Lemma replace_fence_lines_id s :
  has_char "`" s = false -> has_char line_feed s = false ->
  replace_all false re_fence_lines EmptyString s = s.
Proof.
  intros Hs Hl. unfold replace_all, pieces.
  apply scan_without_fence_lines; [assumption | assumption | lia].
Qed.

Lemma plain_text_lacks_control c a :
  plain_text a = true -> code c < 32 -> has_char c a = false.
Proof.
  intros Ha Hc. induction a as [|x a IH]; [reflexivity|].
  simpl in Ha. repeat (apply andb_prop in Ha as [Ha ?]).
  simpl. rewrite IH by assumption. rewrite orb_false_r.
  apply Ascii.eqb_neq. intros ->.
  match goal with H : negb (code c <? 32) = true |- _ =>
    apply negb_true_iff, Nat.ltb_ge in H; lia end.
Qed.

Lemma answer_json_lacks_line_feed a c :
  plain_text a = true -> positive_literal c = true ->
  has_char line_feed (answer_json a c) = false.
Proof.
  intros Ha Hc. unfold answer_json, quoted, DQ.
  rewrite !has_char_append.
  rewrite (plain_text_lacks_control line_feed a Ha) by (vm_compute; lia).
  rewrite (all_digits_lacks line_feed c (positive_literal_digits c Hc))
    by (left; vm_compute; lia).
  reflexivity.
Qed.

Lemma parse_whole_first rawText r :
  rawText <> EmptyString ->
  parse_whole float_toString (trim rawText) = Some r ->
  parseAnswerWithConfidence float_toString (Some rawText) = r.
Proof.
  intros Hraw Hw. unfold parseAnswerWithConfidence.
  destruct rawText as [|x t]; [congruence|].
  unfold first_of. cbn [fold_right]. now rewrite Hw.
Qed.

Lemma parse_embedded_second rawText r :
  rawText <> EmptyString ->
  parse_whole float_toString (trim rawText) = None ->
  parse_embedded float_toString (trim rawText) = Some r ->
  parseAnswerWithConfidence float_toString (Some rawText) = r.
Proof.
  intros Hraw Hw He. unfold parseAnswerWithConfidence.
  destruct rawText as [|x t]; [congruence|].
  unfold first_of. cbn [fold_right]. now rewrite Hw, He.
Qed.

(** X5. A reply that is the JSON object and nothing else is read by
    the first strategy: the answer in upper case, the confidence cut to
    100. *)
Lemma json_reply_is_read a c :
  plain_text a = true -> positive_literal c = true ->
  (Json.digits_value 0 c <= 2 ^ 53)%Z ->
  parseAnswerWithConfidence float_toString (Some (answer_json a c))
  = {| pa_answer := toUpperCase a;
       pa_confidence := Z.min 100 (Json.digits_value 0 c) |}.
Proof.
  intros Ha Hc Hle. apply parse_whole_first.
  - unfold answer_json. rewrite append_cons. discriminate.
  - unfold parse_whole.
    rewrite answer_json_trim, replace_fence_lines_id, answer_json_trim,
      parse_answer_json
      by auto using answer_json_lacks_backquote, answer_json_lacks_line_feed.
    now apply answer_of_answer_json.
Qed.

(** X6. A JSON object inside other text is read by the second strategy,
    provided no opening brace comes before it: whatever letters the text
    around it holds, the answer is the one of the object. *)
Lemma embedded_json_is_read rawText pre post a c :
  trim rawText = pre +:+ answer_json a c +:+ post ->
  has_char "{" pre = false ->
  plain_text a = true -> positive_literal c = true ->
  (Json.digits_value 0 c <= 2 ^ 53)%Z ->
  Json.parse (trim (replace_all false re_fence_lines EmptyString
                      (trim rawText))) = None ->
  parseAnswerWithConfidence float_toString (Some rawText)
  = {| pa_answer := toUpperCase a;
       pa_confidence := Z.min 100 (Json.digits_value 0 c) |}.
Proof.
  intros Htext Hpre Ha Hc Hle Hwhole. apply parse_embedded_second.
  - intros ->. destruct pre; discriminate Htext.
  - unfold parse_whole. now rewrite Hwhole.
  - unfold parse_embedded. rewrite Htext, answer_object_exec by assumption.
    cbn [f_text].
    rewrite replace_fence_id, answer_json_trim, parse_answer_json
      by auto using answer_json_lacks_backquote.
    now apply answer_of_answer_json.
Qed.
End AnswerObjectReply.

(** The reply with reasoning around the object, read this way. *)
Lemma embedded_json_is_read_example :
  parseAnswerWithConfidence as_written (Some reasoned_reply)
  = {| pa_answer := "B"; pa_confidence := 95 |}.
Proof.
  apply (embedded_json_is_read as_written reasoned_reply
           ("Reasoning: A is wrong and C is wrong." +:+ LF +:+ "JSON: ")
           EmptyString "b" "95");
    try (vm_compute; reflexivity).
  vm_compute. discriminate.
Defined.

(* ================================================================== *)
(** * Properties of the answer parser *)
(* ================================================================== *)

(** C6 as stated fails twice. A brace in front of the JSON object makes
    the pattern start there, the span is not JSON, and the answer comes
    from the phrase "Answer: A". And a confidence of 0 is replaced by
    50. *)
Lemma json_priority_counterexample :
  Json.parse (answer_json "B" "90")
  = Some (Json.Object [("answer", Json.Str "B");
                       ("confidence", Json.Number "90")])
  /\ includes braces_first (answer_json "B" "90") = true
  /\ parseAnswerWithConfidence as_written (Some braces_first)
     = {| pa_answer := "A"; pa_confidence := 65 |}
  /\ parseAnswerWithConfidence as_written (Some (answer_json "B" "0"))
     = {| pa_answer := "B"; pa_confidence := 50 |}.
Proof.
  repeat split; vm_compute; reflexivity.
Qed.

(** C6, amended. When the trimmed text without its code fences is JSON
    as a whole, or when it is not and the span from the first opening
    brace to the first closing brace after the next ["answer"] is JSON,
    the parser returns the answer of that JSON value, converted to a
    string and upper-cased, and its confidence read by [parseInt] and
    clamped to 0..100, or 50 when it is not a number; nothing else in
    the text plays a part. (A confidence that reads as 0 is left out.) *)
Theorem json_answer_comes_first :
  forall float_toString rawText v a s n,
    rawText <> EmptyString ->
    let text := trim rawText in
    let whole :=
      Json.parse (trim (replace_all false re_fence_lines EmptyString text)) in
    (whole = Some v
     \/ (whole = None
         /\ exists jsonMatch,
              exec false re_answer_object text = Some jsonMatch
              /\ Json.parse (trim (replace_all false re_fence EmptyString
                                     (f_text jsonMatch))) = Some v)) ->
    Json.get v "answer" = Some a ->
    Json.toString float_toString
      (if Json.truthy_value float_toString a then a
       else Json.Str EmptyString) = Some s ->
    Json.parseInt float_toString (Json.get_opt v "confidence") = Some n ->
    n <> Some 0%Z ->
    parseAnswerWithConfidence float_toString (Some rawText)
    = {| pa_answer := toUpperCase s;
         pa_confidence := match n with
                          | Some x => Z.min 100 (Z.max 0 x)
                          | None => 50
                          end |}.
Proof.
  intros fts rawText v a s n Hraw text whole Hjson Hget Hstr Hint Hn.
  assert (Hv : answer_of_json fts v
               = Some {| pa_answer := toUpperCase s;
                         pa_confidence := match n with
                                          | Some x => Z.min 100 (Z.max 0 x)
                                          | None => 50%Z
                                          end |}).
  { unfold answer_of_json. rewrite Hget, Hstr, Hint. do 2 f_equal.
    unfold clamp_confidence, Json.or_number.
    destruct n as [[|x|x]|]; [congruence|reflexivity..]. }
  destruct Hjson as [Hw | (Hw & jsonMatch & Hm & Hp)].
  - apply parse_whole_first; [assumption|].
    unfold parse_whole. fold text whole. now rewrite Hw.
  - apply parse_embedded_second; [assumption| |].
    + unfold parse_whole. fold text whole. now rewrite Hw.
    + unfold parse_embedded. fold text. now rewrite Hm, Hp.
Qed.

(** An instance of C6 as amended: the letters A and C of the reasoning
    do not count, the answer is B with confidence 95. *)
Lemma json_answer_comes_first_example :
  parseAnswerWithConfidence as_written (Some reasoned_reply)
  = {| pa_answer := "B"; pa_confidence := 95 |}.
Proof.
  apply (json_answer_comes_first as_written reasoned_reply
           (Json.Object [("answer", Json.Str "b");
                         ("confidence", Json.Number "95")])
           (Json.Str "b") "b" (Some 95%Z)).
  - discriminate.
  - right. split; [vm_compute; reflexivity|].
    exists (Found 44 (answer_json "b" "95") EmptyString []).
    split; vm_compute; reflexivity.
  - reflexivity.
  - reflexivity.
  - vm_compute. reflexivity.
  - discriminate.
Defined.

(* ================================================================== *)
(** * Properties of the answer normalization *)
(* ================================================================== *)

Lemma option_says_eq word o :
  option_says word o = true -> trim (toLowerCase (text o)) = word.
Proof. apply String.eqb_eq. Qed.

Lemma label_eqb_false (o : QuestionOption) (l : string) :
  label o <> l -> String.eqb (label o) l = false.
Proof. apply String.eqb_neq. Qed.

(** On a true/false question, the letter of an option is normalized to
    the word that option says. *)
Lemma normalize_letter opts ans letter word chosen other :
  (letter = "A" \/ letter = "B") ->
  (word = "true" \/ word = "false") ->
  (opts = [chosen; other] \/ opts = [other; chosen]) ->
  label chosen = letter -> label other <> letter ->
  option_says word chosen = true ->
  option_says (if String.eqb word "true" then "false" else "true") other
    = true ->
  toUpperCase (trim ans) = letter ->
  normalize (Some ans) opts = word.
Proof.
  intros Hletter Hword Hopts Hl Ho Hsays Hother Hans.
  apply option_says_eq in Hsays, Hother.
  destruct ans as [|c t].
  { vm_compute in Hans. destruct Hletter; subst; discriminate. }
  unfold normalize. rewrite Hans. unfold option_says.
  destruct Hletter as [-> | ->], Hword as [-> | ->], Hopts as [-> | ->];
    cbn [String.eqb Ascii.eqb Bool.eqb] in Hother;
    repeat (progress
              (cbn;
               rewrite ?Hsays, ?Hother, ?Hl, ?(label_eqb_false other _ Ho)));
    reflexivity.
Qed.

(** The words TRUE and FALSE, in any case, are normalized to the lower
    case word. *)
Lemma normalize_literal opts lit word :
  (word = "true" \/ word = "false") ->
  toUpperCase (trim lit) = toUpperCase word ->
  normalize (Some lit) opts = word.
Proof.
  intros Hword Hlit.
  destruct lit as [|c t].
  { vm_compute in Hlit. destruct Hword; subst; discriminate. }
  unfold normalize. rewrite Hlit.
  destruct Hword as [-> | ->]; vm_compute; reflexivity.
Qed.

(** C10. On a question with two options, one saying "true" and one
    saying "false", a worker answer that is the bare letter A or B is
    normalized to the word of the option with that label, and a worker
    answer that is this word itself is normalized to the same word: both
    are tallied under the same key. *)
Theorem letter_and_literal_share_a_key :
  forall opts ans lit letter word chosen other,
    (letter = "A" \/ letter = "B") ->
    (word = "true" \/ word = "false") ->
    (opts = [chosen; other] \/ opts = [other; chosen]) ->
    label chosen = letter -> label other <> letter ->
    option_says word chosen = true ->
    option_says (if String.eqb word "true" then "false" else "true") other
      = true ->
    toUpperCase (trim ans) = letter ->
    toUpperCase (trim lit) = toUpperCase word ->
    normalize (Some ans) opts = word
    /\ normalize (Some lit) opts = word
    /\ forall c1 m1 raw1 c2 m2 raw2,
         vote_key opts (Success ans c1 m1 raw1) = Some word
         /\ vote_key opts (Success lit c2 m2 raw2) = Some word.
Proof.
  intros opts ans lit letter word chosen other
         Hletter Hword Hopts Hl Ho Hsays Hother Hans Hlit.
  pose proof (normalize_letter opts ans letter word chosen other
                Hletter Hword Hopts Hl Ho Hsays Hother Hans) as Ha.
  pose proof (normalize_literal opts lit word Hword Hlit) as Hb.
  repeat split; try assumption; unfold vote_key; rewrite ?Ha, ?Hb;
    destruct Hword as [-> | ->]; reflexivity.
Qed.

(** An instance of C10: the letter A and the word "TRUE" both count for
    "true", which makes a majority of two. *)
Lemma letter_and_literal_share_a_key_example :
  (normalize (Some "A") true_false_options = "true"
   /\ normalize (Some "TRUE") true_false_options = "true"
   /\ forall c1 m1 raw1 c2 m2 raw2,
        vote_key true_false_options (Success "A" c1 m1 raw1) = Some "true"
        /\ vote_key true_false_options (Success "TRUE" c2 m2 raw2)
           = Some "true")
  /\ fst (callGeminiEnsemble as_written true_false_round "prompt"
            true_false_options None)
     = inl (plain_result "true" 88 "majority").
Proof.
  split.
  - apply (letter_and_literal_share_a_key true_false_options "A" "TRUE" "A"
             "true" {| label := "A"; text := "True" |}
             {| label := "B"; text := "False" |});
      try reflexivity; try (left; reflexivity); discriminate.
  - vm_compute. reflexivity.
Defined.

(* ================================================================== *)
(** * Properties of the answer cache *)
(* ================================================================== *)

#[local] Arguments callGeminiEnsemble : simpl never.
#[local] Arguments buildPrompt : simpl never.
#[local] Arguments cache_key : simpl never.

Section CacheFacts.
Variable float_toString : string -> string.
Variable provider : Provider.
Variable clock : Clock.

Lemma vacuum_lookup now (cache : gmap string CacheEntry) k entry :
  vacuum now cache !! k = Some entry <->
  cache !! k = Some entry /\ ~ (now - ce_ts entry > TTL_MS)%Z.
Proof. unfold vacuum. now rewrite map_lookup_filter_Some. Qed.


(** [processRequestDirectly] runs one ensemble round; it writes the
    cache when the round succeeds and leaves it alone when the round
    throws. *)
Lemma processRequestDirectly_cases tick st key rawPrompt startTime :
  let round :=
    processRequestDirectly float_toString provider clock tick st key
      rawPrompt startTime in
  snd round = round_events float_toString provider rawPrompt
  /\ match fst (fst round) with
     | inl p =>
         recentAnswers (snd (fst round))
         = <[ key := {| ce_answer := p_answer p; ce_ts := clock (S tick) |} ]>
             (recentAnswers st)
     | inr _ => recentAnswers (snd (fst round)) = recentAnswers st
     end.
Proof.
  unfold processRequestDirectly, round_events. cbn [ENSEMBLE_MODE].
  destruct (callGeminiEnsemble _ _ _ _ _) as [[voting|err] ev]; now split.
Qed.



Variable st : ServerState.
Variable input : PromptInput.

Lemma ask_cases :
  ask float_toString provider clock st input =
  match vacuum (clock 0) (recentAnswers st) !! cache_key input with
  | Some cached =>
      if (clock 1%nat - ce_ts cached <=? TTL_MS)%Z
      then ({| status := 200; body := CachedAnswer (ce_answer cached) 0%Z |},
            vacuumed clock st, [])
      else fresh_answer float_toString provider clock st input 2
  | None => fresh_answer float_toString provider clock st input 1
  end.
Proof.
  unfold ask, fresh_answer, vacuumed. cbn [recentAnswers].
  destruct (vacuum (clock 0) (recentAnswers st) !! cache_key input)
    as [cached|].
  - destruct (clock 1%nat - ce_ts cached <=? TTL_MS)%Z; [reflexivity|].
    destruct (processRequestDirectly _ _ _ _ _ _ _ _) as [[[p|e] st2] ev];
      reflexivity.
  - destruct (processRequestDirectly _ _ _ _ _ _ _ _) as [[[p|e] st2] ev];
      reflexivity.
Qed.

Lemma fresh_answer_events tick :
  snd (fresh_answer float_toString provider clock st input tick)
  = round_events float_toString provider (rawPrompt_of input).
Proof.
  unfold fresh_answer. cbn [snd]. apply processRequestDirectly_cases.
Qed.


(** Every entry of the cache after a fresh answer was there before, or
    holds the answer that was just resolved. *)
Lemma fresh_answer_cache tick k entry :
  recentAnswers
    (snd (fst (fresh_answer float_toString provider clock st input tick)))
    !! k = Some entry ->
  recentAnswers st !! k = Some entry
  \/ exists ms c e,
       body (fst (fst (fresh_answer float_toString provider clock st input
                         tick)))
       = FreshAnswer (ce_answer entry) ms c e.
Proof.
  unfold fresh_answer. cbn [fst snd].
  pose proof (processRequestDirectly_cases (S tick) (vacuumed clock st)
                (cache_key input) (rawPrompt_of input) (clock tick))
    as [_ Hc].
  cbn zeta in Hc.
  destruct (fst (fst (processRequestDirectly _ _ _ _ _ _ _ _))) as [p|err].
  - rewrite Hc. cbn [recentAnswers vacuumed].
    destruct (decide (cache_key input = k)) as [<-|Hne].
    + rewrite lookup_insert_eq. intros [= <-]. right.
      cbn [body ce_answer]. eauto.
    + rewrite lookup_insert_ne by assumption. intros Hk. left.
      now apply vacuum_lookup in Hk as [Hk _].
  - rewrite Hc. cbn [recentAnswers vacuumed]. intros Hk. left.
    now apply vacuum_lookup in Hk as [Hk _].
Qed.
End CacheFacts.

Lemma handler_ask float_toString provider clock st input :
  missing_prompt (Some input) = false ->
  handler float_toString provider clock st (ask_request input)
  = ask float_toString provider clock st input.
Proof.
  unfold handler, ask_request. cbn.
  destruct input as [[|c t]|q]; [discriminate|reflexivity..].
Qed.


(** C9. Whatever the request, every entry of the cache after it was in
    the cache before it or holds the answer of the round that has just
    succeeded; so when the response is not a freshly resolved answer
    (in particular when the round failed) no entry was inserted or
    overwritten. And [processRequestDirectly] leaves the cache exactly
    as it was when its round throws. *)
Theorem failed_round_never_writes_cache :
  forall float_toString provider clock st req,
    let outcome := handler float_toString provider clock st req in
    let response := fst (fst outcome) in
    let after := recentAnswers (snd (fst outcome)) in
    (forall k entry,
       after !! k = Some entry ->
       recentAnswers st !! k = Some entry
       \/ exists ms c e,
            body response = FreshAnswer (ce_answer entry) ms c e)
    /\ ((forall a ms c e, body response <> FreshAnswer a ms c e) ->
        forall k entry,
          after !! k = Some entry -> recentAnswers st !! k = Some entry)
    /\ (forall tick key rawPrompt startTime err,
          fst (fst (processRequestDirectly float_toString provider clock tick
                      st key rawPrompt startTime)) = inr err ->
          recentAnswers
            (snd (fst (processRequestDirectly float_toString provider clock
                         tick st key rawPrompt startTime)))
          = recentAnswers st).
Proof.
  intros fts provider clock st req outcome response after.
  assert (Hstep : forall k entry,
             after !! k = Some entry ->
             recentAnswers st !! k = Some entry
             \/ exists ms c e,
                  body response = FreshAnswer (ce_answer entry) ms c e).
  { intros k entry. unfold after, response, outcome, handler.
    destruct (String.eqb (req_method req) "OPTIONS"); [now left|].
    destruct (_ && (_ || _)); [now left|].
    destruct (_ && _); [|now left].
    destruct (req_prompt req) as [e|[input|]]; [now left| |now left].
    assert (Hask : forall i,
               recentAnswers (snd (fst (ask fts provider clock st i))) !! k
                 = Some entry ->
               recentAnswers st !! k = Some entry
               \/ exists ms c e,
                    body (fst (fst (ask fts provider clock st i)))
                    = FreshAnswer (ce_answer entry) ms c e).
    { intros i. rewrite ask_cases.
      destruct (vacuum (clock 0) (recentAnswers st) !! cache_key i)
        as [cached|]; [|apply fresh_answer_cache].
      destruct (clock 1%nat - ce_ts cached <=? TTL_MS)%Z;
        [|apply fresh_answer_cache].
      cbn [fst snd recentAnswers]. intros Hk. left.
      now apply vacuum_lookup in Hk as [Hk _]. }
    destruct input as [[|c t]|q]; [now left|apply Hask..]. }
  split; [exact Hstep|]. split.
  - intros Hnot k entry Hk.
    destruct (Hstep k entry Hk) as [H|(ms & c & e & H)]; [assumption|].
    now apply Hnot in H.
  - intros tick key rawPrompt startTime err Herr.
    pose proof (processRequestDirectly_cases fts provider clock tick st key
                  rawPrompt startTime) as [_ Hc].
    cbn zeta in Hc. now rewrite Herr in Hc.
Qed.


(** An instance of C9: every model is down, the round throws, and the
    cache is what it was. *)
Lemma failed_round_never_writes_cache_example :
  recentAnswers
    (snd (fst (processRequestDirectly as_written dead_round late_clock 1
                 stale_state "Another question"
                 (AsString "Another question") 200000)))
  = recentAnswers stale_state.
Proof.
  apply (proj2 (proj2 (failed_round_never_writes_cache as_written dead_round
                         late_clock stale_state
                         (ask_request (AsString "Another question"))))
           1 "Another question" (AsString "Another question") 200000%Z
           (new_Error "All models failed including Judge")).
  vm_compute. reflexivity.
Defined.

(* ================================================================== *)
(** * Further properties of the answer parser *)
(* ================================================================== *)

Section ParserShape.
Variable float_toString : string -> string.

Lemma last_member_absent key ms :
  Json.has_member key ms = false -> Json.last_member key ms = None.
Proof.
  unfold Json.has_member. induction ms as [|[k v] ms IH]; [reflexivity|].
  simpl. intros H. apply orb_false_elim in H as [Hk Hms].
  now rewrite (IH Hms), Hk.
Qed.

Lemma get_absent key v :
  lacks_member key v = true -> Json.get v key = Some Json.Undefined.
Proof.
  destruct v; simpl; try discriminate; try reflexivity.
  intros H. apply negb_true_iff in H. now rewrite last_member_absent.
Qed.

Lemma answer_of_json_absent v :
  lacks_member "answer" v = true -> lacks_member "confidence" v = true ->
  answer_of_json float_toString v
  = Some {| pa_answer := EmptyString; pa_confidence := 50 |}.
Proof.
  intros Ha Hc. unfold answer_of_json, Json.get_opt.
  rewrite (get_absent _ _ Ha), (get_absent _ _ Hc). reflexivity.
Qed.

(** X7. A reply that is JSON as a whole, but a value without the members
    [answer] and [confidence] (a number, [true] or [false], a string in
    quotes, an array, such an object), gives the empty answer with
    confidence 50: the first strategy returns, and no fallback reads the
    text. The reply [true] in lower case is such a reply. *)
Theorem json_without_answer_gives_empty_answer :
  forall rawText v,
    rawText <> EmptyString ->
    Json.parse (trim (replace_all false re_fence_lines EmptyString
                        (trim rawText))) = Some v ->
    lacks_member "answer" v = true ->
    lacks_member "confidence" v = true ->
    parseAnswerWithConfidence float_toString (Some rawText)
    = {| pa_answer := EmptyString; pa_confidence := 50 |}.
Proof.
  intros rawText v Hraw Hparse Ha Hc.
  apply parse_whole_first; [assumption|].
  unfold parse_whole. rewrite Hparse. now apply answer_of_json_absent.
Qed.
End ParserShape.

Lemma json_without_answer_example :
  parseAnswerWithConfidence as_written (Some "true")
  = {| pa_answer := EmptyString; pa_confidence := 50 |}
  /\ parseAnswerWithConfidence as_written (Some (" " +:+ quoted "A" +:+ LF))
     = {| pa_answer := EmptyString; pa_confidence := 50 |}.
Proof.
  split.
  - apply (json_without_answer_gives_empty_answer as_written "true"
             (Json.Boolean true)); [discriminate | reflexivity..].
  - apply (json_without_answer_gives_empty_answer as_written
             (" " +:+ quoted "A" +:+ LF) (Json.Str "A"));
      [discriminate | reflexivity..].
Defined.

Section BooleanWords.
Variable float_toString : string -> string.

(** The characters that [toLowerCase] sends to a given small letter. *)
Lemma lower_char_inv c x :
  lower_char c = x -> is_lower x = true -> c = x \/ c = upper_char x.
Proof.
  unfold lower_char. destruct (is_upper c) eqn:Hu; [|now left].
  intros <- _. right. unfold upper_char.
  unfold is_upper, in_range in Hu. apply andb_prop in Hu as [H1 H2].
  apply Nat.leb_le in H1, H2. unfold is_lower, in_range, code in *.
  rewrite nat_ascii_embedding by lia.
  replace (97 <=? nat_of_ascii c + 32) with true
    by (symmetry; apply Nat.leb_le; lia).
  replace (nat_of_ascii c + 32 <=? 122) with true
    by (symmetry; apply Nat.leb_le; lia).
  cbn [andb]. replace (nat_of_ascii c + 32 - 32) with (nat_of_ascii c) by lia.
  now rewrite ascii_nat_embedding.
Qed.

Lemma toLowerCase_cons_inv s x t :
  toLowerCase s = String x t -> is_lower x = true ->
  exists c s', s = String c s' /\ (c = x \/ c = upper_char x)
               /\ toLowerCase s' = t.
Proof.
  destruct s as [|c s']; [discriminate|]. unfold toLowerCase. simpl.
  intros [= Hc Ht] Hx. exists c, s'. repeat split; [|assumption].
  now apply lower_char_inv.
Qed.

Lemma toLowerCase_nil_inv s : toLowerCase s = EmptyString -> s = EmptyString.
Proof. now destruct s. Qed.

Lemma trim_nonempty s : trim s <> EmptyString -> s <> EmptyString.
Proof. intros H ->. now apply H. Qed.

(** X8. A reply that is the word true or false in a casing other than
    lower case (the lower-case words are JSON, see X7) is returned in
    lower case with confidence 85. *)
Theorem boolean_word_is_read_unless_lower_case :
  forall rawText,
    (toLowerCase (trim rawText) = "true"
     \/ toLowerCase (trim rawText) = "false") ->
    trim rawText <> toLowerCase (trim rawText) ->
    parseAnswerWithConfidence float_toString (Some rawText)
    = {| pa_answer := toLowerCase (trim rawText); pa_confidence := 85 |}.
Proof.
  intros rawText Hword Hcase.
  assert (Hraw : rawText <> EmptyString).
  { apply trim_nonempty. intros E. rewrite E in Hword.
    destruct Hword; discriminate. }
  unfold parseAnswerWithConfidence.
  destruct rawText as [|r0 r]; [congruence|].
  set (text := trim (String r0 r)) in *. clearbody text. clear Hraw r0 r.
  destruct Hword as [Hword|Hword].
  - apply toLowerCase_cons_inv in Hword as (c1 & s1 & -> & H1 & Hword);
      [|reflexivity].
    apply toLowerCase_cons_inv in Hword as (c2 & s2 & -> & H2 & Hword);
      [|reflexivity].
    apply toLowerCase_cons_inv in Hword as (c3 & s3 & -> & H3 & Hword);
      [|reflexivity].
    apply toLowerCase_cons_inv in Hword as (c4 & s4 & -> & H4 & Hword);
      [|reflexivity].
    apply toLowerCase_nil_inv in Hword as ->.
    destruct H1 as [-> | ->], H2 as [-> | ->], H3 as [-> | ->],
             H4 as [-> | ->];
      first [ exfalso; apply Hcase; reflexivity | vm_compute; reflexivity ].
  - apply toLowerCase_cons_inv in Hword as (c1 & s1 & -> & H1 & Hword);
      [|reflexivity].
    apply toLowerCase_cons_inv in Hword as (c2 & s2 & -> & H2 & Hword);
      [|reflexivity].
    apply toLowerCase_cons_inv in Hword as (c3 & s3 & -> & H3 & Hword);
      [|reflexivity].
    apply toLowerCase_cons_inv in Hword as (c4 & s4 & -> & H4 & Hword);
      [|reflexivity].
    apply toLowerCase_cons_inv in Hword as (c5 & s5 & -> & H5 & Hword);
      [|reflexivity].
    apply toLowerCase_nil_inv in Hword as ->.
    destruct H1 as [-> | ->], H2 as [-> | ->], H3 as [-> | ->],
             H4 as [-> | ->], H5 as [-> | ->];
      first [ exfalso; apply Hcase; reflexivity | vm_compute; reflexivity ].
Qed.
End BooleanWords.

Lemma boolean_word_example :
  parseAnswerWithConfidence as_written (Some " TRUE ")
  = {| pa_answer := "true"; pa_confidence := 85 |}.
Proof.
  apply (boolean_word_is_read_unless_lower_case as_written " TRUE ").
  - left. reflexivity.
  - discriminate.
Defined.

Section StringOrder.

Lemma code_inj x y : code x = code y -> x = y.
Proof.
  unfold code. intros H.
  rewrite <- (ascii_nat_embedding x), <- (ascii_nat_embedding y).
  now rewrite H.
Qed.

(** Two strings neither of which comes before the other are equal. *)
Lemma ltb_trichotomy a b : ltb a b = false -> ltb b a = false -> a = b.
Proof.
  revert b. induction a as [|x a IH]; intros [|y b]; simpl;
    try discriminate; [reflexivity|].
  intros H1 H2.
  apply orb_false_elim in H1 as [H1 H1'], H2 as [H2 H2'].
  apply Nat.ltb_ge in H1, H2.
  assert (E : code x = code y) by lia.
  rewrite E, Nat.eqb_refl in H1', H2'. simpl in H1', H2'.
  apply code_inj in E. subst y. f_equal. now apply IH.
Qed.

Lemma ltb_irrefl a : ltb a a = false.
Proof.
  induction a as [|x a IH]; [reflexivity|]. simpl.
  rewrite Nat.ltb_irrefl, Nat.eqb_refl. exact IH.
Qed.

Lemma ltb_trans a b c : ltb a b = true -> ltb b c = true -> ltb a c = true.
Proof.
  revert b c. induction a as [|x a IH]; intros [|y b] [|z c]; simpl;
    try discriminate; try reflexivity.
  intros H1 H2.
  apply orb_true_iff in H1 as [H1|H1], H2 as [H2|H2];
    apply orb_true_iff;
    try (apply andb_prop in H1 as [E1 H1]; apply Nat.eqb_eq in E1);
    try (apply andb_prop in H2 as [E2 H2]; apply Nat.eqb_eq in E2);
    try apply Nat.ltb_lt in H1; try apply Nat.ltb_lt in H2.
  - left. apply Nat.ltb_lt. lia.
  - left. apply Nat.ltb_lt. lia.
  - left. apply Nat.ltb_lt. lia.
  - right. apply andb_true_intro. split; [apply Nat.eqb_eq; lia|].
    exact (IH b c H1 H2).
Qed.

Lemma increasing_insert x l :
  increasing l = true -> ~ In x l ->
  increasing (insert_sorted leb x l) = true.
Proof.
  induction l as [|y t IH]; [reflexivity|].
  intros Hl Hx. cbn [insert_sorted]. unfold leb at 1.
  destruct (ltb y x) eqn:Eyx; cbn [negb].
  - assert (Ht : increasing t = true)
      by (destruct t; [reflexivity|]; simpl in Hl;
          now apply andb_prop in Hl as [_ Hl]).
    specialize (IH Ht (fun H => Hx (or_intror H))).
    destruct t as [|z t'].
    + simpl. now rewrite Eyx.
    + cbn [insert_sorted] in *. simpl in Hl.
      apply andb_prop in Hl as [Hyz _].
      destruct (leb x z); cbn [increasing] in *; rewrite ?Eyx, ?Hyz;
        exact IH.
  - change (increasing (x :: y :: t)) with (ltb x y && increasing (y :: t)).
    rewrite Hl, andb_true_r.
    destruct (ltb x y) eqn:Exy; [reflexivity|].
    exfalso. apply Hx. left. symmetry. now apply ltb_trichotomy.
Qed.

Lemma increasing_sort l : NoDup l -> increasing (sort_strings l) = true.
Proof.
  unfold sort_strings, sort.
  induction 1 as [|x l Hx Hl IH]; [reflexivity|].
  cbn [fold_right]. apply increasing_insert; [exact IH|].
  intros Hin. apply Hx, list_elem_of_In.
  exact (proj1 (sort_In leb x l) Hin).
Qed.

Lemma dedup_spec seen l :
  NoDup (dedup seen l)
  /\ forall x, In x (dedup seen l) <-> In x l /\ ~ In x seen.
Proof.
  revert seen. induction l as [|y l IH]; intros seen.
  - split; [constructor|]. simpl. tauto.
  - cbn [dedup].
    destruct (existsb (String.eqb y) seen) eqn:E.
    + destruct (IH seen) as [Hnd Hin]. split; [assumption|].
      intros x. rewrite Hin. apply existsb_eqb_In in E. simpl.
      split; [tauto|]. intros [[->|H] Hs]; tauto.
    + destruct (IH (y :: seen)) as [Hnd Hin]. split.
      * constructor; [|assumption]. intros Hy. apply list_elem_of_In in Hy.
        apply Hin in Hy as [_ Hy]. apply Hy. now left.
      * assert (Hy : ~ In y seen).
        { intros Hy. apply existsb_eqb_In in Hy. congruence. }
        intros x. simpl. rewrite Hin. simpl.
        destruct (string_dec y x) as [->|Hne]; [tauto|]. tauto.
Qed.

Lemma unique_NoDup l : NoDup (unique l).
Proof. apply dedup_spec. Qed.

Lemma unique_In x l : In x (unique l) <-> In x l.
Proof. unfold unique. rewrite (proj2 (dedup_spec [] l)). simpl. tauto. Qed.
End StringOrder.

Section LetterFacts.

Lemma match_here_letter bol c t :
  match_here false re_letter bol (String c t)
  = if in_range 65 70 c then Some (String c EmptyString, t, []) else None.
Proof.
  unfold match_here, re_letter, letter_A_F. cbn [run].
  unfold cset_match. cbn [cset_mem].
  change (code "A") with 65. change (code "F") with 70.
  destruct (in_range 65 70 c); [|reflexivity].
  cbn [String.length].
  replace (S (String.length t) - String.length t) with 1 by lia.
  destruct t; reflexivity.
Qed.

Lemma scan_letters fuel bol s :
  Forall (fun p => match p with
                   | Matched m => answer_letter m = true
                   | Kept _ => True
                   end) (scan false re_letter fuel bol s).
Proof.
  revert bol s. induction fuel as [|fuel IH]; intros bol s; [constructor|].
  destruct s as [|c t]; [constructor|].
  cbn [scan]. rewrite match_here_letter.
  destruct (in_range 65 70 c) eqn:E.
  - constructor; [exact E | apply IH].
  - constructor; [exact I | apply IH].
Qed.

Lemma match_all_letters s letters :
  match_all false re_letter s = Some letters ->
  letters <> [] /\ Forall (fun m => answer_letter m = true) letters.
Proof.
  unfold match_all, pieces.
  pose proof (scan_letters (S (String.length s)) true s) as H.
  induction (scan false re_letter (S (String.length s)) true s) as [|p ps IH].
  - discriminate.
  - intros Hl.
    assert (Hall : Forall (fun m => answer_letter m = true)
                     (omap (fun p => match p with
                                     | Matched m => Some m
                                     | Kept _ => None
                                     end) (p :: ps))).
    { clear Hl IH. induction H as [|q qs Hq _ IHq]; [constructor|].
      destruct q; simpl; [assumption|]. now constructor. }
    destruct (omap _ (p :: ps)) as [|m ms]; [discriminate|].
    injection Hl as <-. split; [discriminate | assumption].
Qed.

(** The text [letter_set] builds from the letters found. *)
Lemma letter_set_shape s letters :
  match_all false re_letter s = Some letters ->
  exists l, l <> [] /\ letter_set letters = join ", " l
            /\ forallb answer_letter l = true /\ increasing l = true.
Proof.
  intros H. apply match_all_letters in H as [Hne Hall].
  exists (sort_strings (unique letters)). repeat split.
  - destruct letters as [|m ms]; [congruence|].
    intros E.
    assert (Hin : In m (sort_strings (unique (m :: ms))))
      by (apply sort_In, unique_In; now left).
    now rewrite E in Hin.
  - apply forallb_forall. intros x Hx.
    apply (proj1 (sort_In leb x _)) in Hx.
    apply (proj1 (unique_In x letters)) in Hx.
    rewrite Forall_forall in Hall. apply Hall. now apply list_elem_of_In.
  - apply increasing_sort, unique_NoDup.
Qed.
End LetterFacts.

Section ReplyShape.
Variable float_toString : string -> string.

Lemma icase_char x c :
  is_lower x = true -> cset_match true (CChar x) c = true -> lower_char c = x.
Proof.
  intros Hx. unfold cset_match. cbn [cset_mem].
  assert (Hlow : lower_char x = x).
  { unfold lower_char, is_upper, is_lower, in_range in *.
    apply andb_prop in Hx as [H1 H2]. apply Nat.leb_le in H1, H2.
    replace (code x <=? 90) with false
      by (symmetry; apply Nat.leb_gt; lia).
    now rewrite andb_false_r. }
  intros H. apply orb_true_iff in H as [H|H];
    [apply orb_true_iff in H as [H|H]|]; apply Ascii.eqb_eq in H.
  - now subst c.
  - unfold upper_char in H. destruct (is_lower c) eqn:Ec; [|now subst c].
    exfalso. subst x.
    unfold is_lower, in_range, code in *.
    apply andb_prop in Hx as [H1 _], Ec as [_ H2].
    apply Nat.leb_le in H1, H2.
    rewrite nat_ascii_embedding in H1 by lia. lia.
  - congruence.
Qed.

(** A pattern that starts with [^] matches at the start or nowhere. *)
Lemma exec_from_anchored icase r i s :
  i <> 0 -> exec_from icase (Seq Bol r) i s = None.
Proof.
  revert i. induction s as [|x s IH]; intros i Hi.
  - rewrite exec_from_eq. unfold match_here. cbn [run].
    apply Nat.eqb_neq in Hi. now rewrite Hi.
  - rewrite exec_from_eq. unfold match_here. cbn [run].
    pose proof Hi as Hi'. apply Nat.eqb_neq in Hi'. rewrite Hi'.
    now apply IH.
Qed.

Lemma exec_anchored icase r s :
  exec icase (Seq Bol r) s =
  match match_here icase (Seq Bol r) true s with
  | Some (m, rest, c) => Some (Found 0 m rest c)
  | None => None
  end.
Proof.
  unfold exec. rewrite exec_from_eq. cbn [Nat.eqb].
  destruct (match_here icase (Seq Bol r) true s) as [[[m rest] c]|];
    [reflexivity|].
  destruct s; [reflexivity|]. now apply exec_from_anchored.
Qed.

(** What a literal of small letters matches when case is ignored. *)
Lemma run_literal_icase {R : Type} p bol s caps
    (k : bool -> string -> captures -> option R) x :
  p <> EmptyString ->
  (forall c, has_char c p = true -> is_lower c = true) ->
  run true (Lit p) bol s caps k = Some x ->
  exists m rest, s = m +:+ rest /\ toLowerCase m = p
                 /\ k false rest caps = Some x.
Proof.
  revert bol s. induction p as [|c p IH]; intros bol s Hp Hlow; [congruence|].
  assert (Hc : is_lower c = true)
    by (apply Hlow; simpl; now rewrite Ascii.eqb_refl).
  destruct p as [|c' p].
  - cbn [Lit run]. destruct s as [|y t]; [discriminate|].
    destruct (cset_match true (CChar c) y) eqn:E; [|discriminate].
    intros Hk. exists (String y EmptyString), t. repeat split; [|assumption].
    unfold toLowerCase. cbn [map_string]. now rewrite (icase_char c y Hc E).
  - change (Lit (String c (String c' p)))
      with (Seq (Set_ (CChar c)) (Lit (String c' p))).
    cbn [run]. destruct s as [|y t]; [discriminate|].
    destruct (cset_match true (CChar c) y) eqn:E; [|discriminate].
    intros Hk. apply IH in Hk as (m & rest & -> & Hm & Hk); [|discriminate|].
    + exists (String y m), rest. repeat split; [|assumption].
      unfold toLowerCase in *. cbn [map_string].
      now rewrite (icase_char c y Hc E), Hm.
    + intros z Hz. apply Hlow. simpl in *. rewrite Hz.
      now rewrite orb_true_r.
Qed.

Lemma boolean_test_word s :
  test true re_boolean s = true ->
  toLowerCase s = "true" \/ toLowerCase s = "false".
Proof.
  unfold test, re_boolean. rewrite exec_anchored.
  unfold match_here. cbn [run].
  set (k := fun (b : bool) (s' : string) (c' : captures) => _).
  assert (Hk : forall b rest c x, k b rest c = Some x -> rest = EmptyString).
  { intros b rest c x. unfold k. now destruct rest. }
  assert (Hlow : forall w, (w = "true" \/ w = "false") ->
                 forall c, has_char c w = true -> is_lower c = true).
  { intros w [-> | ->] c; cbn [has_char]; rewrite ?orb_false_r; intros H;
      repeat (apply orb_true_iff in H as [H|H]);
      apply Ascii.eqb_eq in H; now subst c. }
  destruct (run true (Lit "true") true s [] k) as [x|] eqn:E1.
  - intros _. left.
    apply run_literal_icase in E1 as (m & rest & -> & Hm & E1);
      [|discriminate | apply Hlow; now left].
    apply Hk in E1 as ->. now rewrite append_nil_r.
  - destruct (run true (Lit "false") true s [] k) as [x|] eqn:E2;
      [|discriminate].
    intros _. right.
    apply run_literal_icase in E2 as (m & rest & -> & Hm & E2);
      [|discriminate | apply Hlow; now right].
    apply Hk in E2 as ->. now rewrite append_nil_r.
Qed.

(** X9. When neither JSON strategy returns, the result is the empty answer
    with confidence 0, or the word true or false with confidence 85, or
    letters from A to F, each once and in alphabetical order, joined by
    a comma and a space, with confidence 70, 65 or 60. *)
Theorem reply_without_json_has_a_fixed_shape :
  forall rawText,
    rawText <> EmptyString ->
    parse_whole float_toString (trim rawText) = None ->
    parse_embedded float_toString (trim rawText) = None ->
    let p := parseAnswerWithConfidence float_toString (Some rawText) in
    (pa_answer p = EmptyString /\ pa_confidence p = 0%Z)
    \/ ((pa_answer p = "true" \/ pa_answer p = "false")
        /\ pa_confidence p = 85%Z)
    \/ (exists l,
          l <> [] /\ pa_answer p = join ", " l
          /\ forallb answer_letter l = true /\ increasing l = true
          /\ (pa_confidence p = 70 \/ pa_confidence p = 65
              \/ pa_confidence p = 60)%Z).
Proof.
  intros rawText Hraw Hwhole Hembedded p. subst p.
  unfold parseAnswerWithConfidence.
  destruct rawText as [|r0 r]; [congruence|].
  set (text := trim (String r0 r)) in *.
  unfold first_of. cbn [fold_right]. rewrite Hwhole, Hembedded.
  destruct (parse_boolean text) as [p|] eqn:E3.
  { right. left. unfold parse_boolean in E3.
    destruct (test true re_boolean text) eqn:T; [|discriminate].
    injection E3 as <-. cbn [pa_answer pa_confidence].
    split; [now apply boolean_test_word | reflexivity]. }
  destruct (parse_letters_only text) as [p|] eqn:E4.
  { right. right. unfold parse_letters_only in E4.
    destruct (exec _ _ _); [|discriminate].
    destruct (match_all _ _ _) as [letters|] eqn:L; [|discriminate].
    destruct (_ && _); [|discriminate]. injection E4 as <-.
    apply letter_set_shape in L as (l & H1 & H2 & H3 & H4).
    exists l. cbn [pa_answer pa_confidence]. repeat split; auto. }
  destruct (parse_answer_phrase text) as [p|] eqn:E5.
  { right. right. unfold parse_answer_phrase in E5.
    destruct (exec _ _ _); [|discriminate].
    destruct (capture _ _); [|discriminate].
    destruct (match_all _ _ _) as [letters|] eqn:L; [|discriminate].
    injection E5 as <-.
    apply letter_set_shape in L as (l & H1 & H2 & H3 & H4).
    exists l. cbn [pa_answer pa_confidence]. repeat split; auto. }
  destruct (parse_short_text text) as [p|] eqn:E6.
  { right. right. unfold parse_short_text in E6.
    destruct (_ <=? _); [|discriminate].
    destruct (match_all _ _ _) as [letters|] eqn:L; [|discriminate].
    destruct (_ && _); [|discriminate]. injection E6 as <-.
    apply letter_set_shape in L as (l & H1 & H2 & H3 & H4).
    exists l. cbn [pa_answer pa_confidence]. repeat split; auto. }
  left. split; reflexivity.
Qed.
End ReplyShape.

Lemma reply_without_json_example :
  let p := parseAnswerWithConfidence as_written (Some "c, a and A") in
  (pa_answer p = EmptyString /\ pa_confidence p = 0%Z)
  \/ ((pa_answer p = "true" \/ pa_answer p = "false")
      /\ pa_confidence p = 85%Z)
  \/ (exists l,
        l <> [] /\ pa_answer p = join ", " l
        /\ forallb answer_letter l = true /\ increasing l = true
        /\ (pa_confidence p = 70 \/ pa_confidence p = 65
            \/ pa_confidence p = 60)%Z).
Proof.
  apply (reply_without_json_has_a_fixed_shape as_written "c, a and A");
    [discriminate | vm_compute; reflexivity | vm_compute; reflexivity].
Defined.

(* ================================================================== *)
(** * Further properties of the retrying call *)
(* ================================================================== *)

Section TraceFacts.
Lemma attempts_made_called r k evs :
  attempts_made (Called r k :: evs) = k :: attempts_made evs.
Proof. reflexivity. Qed.

Lemma attempts_made_slept ms evs :
  attempts_made (Slept ms :: evs) = attempts_made evs.
Proof. reflexivity. Qed.

Lemma requests_called r k evs :
  requests (Called r k :: evs) = r :: requests evs.
Proof. reflexivity. Qed.

Lemma requests_slept ms evs : requests (Slept ms :: evs) = requests evs.
Proof. reflexivity. Qed.

Lemma waits_called r k evs : waits (Called r k :: evs) = waits evs.
Proof. reflexivity. Qed.

Lemma waits_slept ms evs : waits (Slept ms :: evs) = ms :: waits evs.
Proof. reflexivity. Qed.
End TraceFacts.

Section RetryShape.
Variable float_toString : string -> string.
Variable provider : Provider.
Variables (model prompt : string) (imageBase64 : option string).
Variable retries : nat.

Let attempt_at :=
  try_attempt float_toString provider model prompt imageBase64.
Let loop :=
  attempts_from float_toString provider model prompt imageBase64 retries.
Let request := make_request model prompt imageBase64.

Lemma try_attempt_result k a c m raw :
  attempt_at k = inl (Success a c m raw) ->
  m = model /\ trim raw <> EmptyString
  /\ parseAnswerWithConfidence float_toString (Some raw)
     = {| pa_answer := a; pa_confidence := c |}
  /\ exists response,
       provider request k = Resolves response
       /\ extractText response = Some raw.
Proof.
  unfold attempt_at, try_attempt. fold request.
  destruct (provider request k) as [e|response] eqn:Ep; [discriminate|].
  destruct (extractText response) as [rawText|] eqn:Et; [|discriminate].
  cbv zeta.
  remember (parseAnswerWithConfidence float_toString (Some rawText))
    as parsed eqn:Eparsed.
  destruct (truthy rawText && truthy (trim rawText)
            && truthy (pa_answer parsed)) eqn:E; [|discriminate].
  intros [= <- <- <- <-].
  apply andb_prop in E as [E _]. apply andb_prop in E as [_ E].
  repeat split.
  - now destruct (trim rawText).
  - now destruct parsed.
  - now exists response.
Qed.

Lemma attempts_from_result left attempt a c m raw :
  fst (loop left attempt) = Success a c m raw ->
  exists k, attempt <= k < attempt + left
            /\ attempt_at k = inl (Success a c m raw).
Proof.
  revert attempt. induction left as [|left IH]; intros attempt;
    unfold loop in *; cbn [attempts_from]; [discriminate|].
  fold attempt_at.
  destruct (attempt_at attempt) as [r|e] eqn:E.
  - cbn [fst]. intros ->. exists attempt. split; [lia | assumption].
  - destruct (Nat.eqb attempt retries); [discriminate|].
    specialize (IH (S attempt)).
    destruct (attempts_from _ _ _ _ _ _ left (S attempt)) as [r evs].
    cbn [fst] in *. intros Hr. destruct (IH Hr) as (k & Hk & Hok).
    exists k. split; [lia | assumption].
Qed.

Lemma attempts_from_calls left attempt :
  exists n, n <= left
            /\ attempts_made (snd (loop left attempt)) = seq attempt n
            /\ (left = 0 <-> n = 0)
            /\ Forall (fun r => r = request)
                 (requests (snd (loop left attempt))).
Proof.
  revert attempt. induction left as [|left IH]; intros attempt;
    unfold loop in *; cbn [attempts_from].
  - exists 0. repeat split; constructor.
  - fold request.
    destruct (try_attempt _ _ _ _ _ attempt) as [r|e].
    + exists 1. cbn. repeat split; try lia; repeat constructor.
    + destruct (Nat.eqb attempt retries).
      * exists 1. cbn. repeat split; try lia; repeat constructor.
      * destruct (IH (S attempt)) as (n & Hn & Hev & _ & Hreq).
        destruct (attempts_from _ _ _ _ _ _ left (S attempt)) as [r evs].
        cbn [snd] in *. exists (S n).
        rewrite attempts_made_called, attempts_made_slept, Hev,
          requests_called, requests_slept.
        repeat split; try lia. now constructor.
Qed.

Lemma attempts_from_waits (err : nat -> JsError) left attempt :
  1 <= left -> attempt + left = S retries ->
  (forall k, attempt <= k <= retries -> attempt_at k = inr (err k)) ->
  waits (snd (loop left attempt))
  = map (fun k => waitTime (err k) k) (seq attempt (left - 1)).
Proof.
  revert attempt. induction left as [|left IH]; intros attempt Hl Hsum Hall;
    [lia|].
  unfold loop, attempt_at in *. cbn [attempts_from].
  rewrite (Hall attempt) by lia.
  destruct (Nat.eqb attempt retries) eqn:E.
  - apply Nat.eqb_eq in E. assert (left = 0) by lia. subst left.
    reflexivity.
  - apply Nat.eqb_neq in E.
    specialize (IH (S attempt) ltac:(lia) ltac:(lia)
                   (fun k Hk => Hall k ltac:(lia))).
    destruct (attempts_from _ _ _ _ _ _ left (S attempt)) as [r evs].
    cbn [snd] in *. rewrite waits_called, waits_slept, IH.
    replace (S left - 1) with (S (left - 1)) by lia. reflexivity.
Qed.
End RetryShape.

(** X10. A success of [callSingleModel] carries a non-empty answer, a
    confidence between 0 and 100, the model that was asked and a raw
    text that is not blank; answer and confidence are what the parser
    reads from the raw text, and the raw text is what [extractText]
    finds in the response to one of the attempts. *)
Theorem single_model_success_is_well_formed :
  forall float_toString provider model prompt imageBase64 retries a c m raw,
    fst (callSingleModel float_toString provider model prompt imageBase64
           retries) = Success a c m raw ->
    a <> EmptyString /\ (0 <= c <= 100)%Z /\ m = model
    /\ trim raw <> EmptyString
    /\ parseAnswerWithConfidence float_toString (Some raw)
       = {| pa_answer := a; pa_confidence := c |}
    /\ exists k response,
         1 <= k <= retries
         /\ provider (make_request model prompt imageBase64) k
            = Resolves response
         /\ extractText response = Some raw.
Proof.
  intros fts provider model prompt image retries a c m raw Hok.
  unfold callSingleModel in Hok.
  pose proof (attempts_from_success _ _ _ _ _ _ _ _ _ _ _ _ Hok) as [Ha Hc].
  apply attempts_from_result in Hok as (k & Hk & Hok).
  apply try_attempt_result in Hok as (Hm & Hraw & Hparse & response & Hp & Ht).
  repeat split; try assumption; try lia.
  exists k, response. repeat split; try assumption; lia.
Qed.

Lemma single_model_success_example :
  "A" <> EmptyString /\ (0 <= 90 <= 100)%Z
  /\ MODELS_at 0 = MODELS_at 0
  /\ trim (answer_json "A" "90") <> EmptyString
  /\ parseAnswerWithConfidence as_written (Some (answer_json "A" "90"))
     = {| pa_answer := "A"; pa_confidence := 90 |}
  /\ exists k response,
       1 <= k <= 3
       /\ majority_round (make_request (MODELS_at 0) "prompt" None) k
          = Resolves response
       /\ extractText response = Some (answer_json "A" "90").
Proof.
  apply (single_model_success_is_well_formed as_written majority_round
           (MODELS_at 0) "prompt" None 3 "A" 90%Z (MODELS_at 0)
           (answer_json "A" "90")).
  vm_compute. reflexivity.
Defined.

(** X11. [callSingleModel] makes the attempts 1 to n for some n that is at
    most [retries], each with the same request; it makes no call
    exactly when [retries] is 0. *)
Theorem single_model_calls_are_bounded :
  forall float_toString provider model prompt imageBase64 retries,
    let events :=
      snd (callSingleModel float_toString provider model prompt imageBase64
             retries) in
    exists n,
      n <= retries
      /\ attempts_made events = seq 1 n
      /\ (retries = 0 <-> n = 0)
      /\ Forall (fun r => r = make_request model prompt imageBase64)
           (requests events).
Proof.
  intros fts provider model prompt image retries events.
  exact (attempts_from_calls fts provider model prompt image retries
           retries 1).
Qed.

(** X12. When every attempt fails, the wait after attempt k (for k below
    [retries]) is 2000 k milliseconds when the error of that attempt is
    an overload and 1000 k otherwise, and there is no wait after the
    last attempt. The waits grow linearly. *)
Theorem backoff_grows_linearly :
  forall float_toString provider model prompt imageBase64 retries
         (err : nat -> JsError),
    1 <= retries ->
    (forall k, 1 <= k <= retries ->
       try_attempt float_toString provider model prompt imageBase64 k
       = inr (err k)) ->
    waits (snd (callSingleModel float_toString provider model prompt
                  imageBase64 retries))
    = map (fun k => waitTime (err k) k) (seq 1 (retries - 1)).
Proof.
  intros fts provider model prompt image retries err Hretries Hall.
  unfold callSingleModel.
  apply attempts_from_waits; [assumption | lia | assumption].
Qed.

Lemma backoff_grows_linearly_example :
  waits (snd (callSingleModel as_written dead_round "model" "prompt" None 4))
  = [1000; 2000; 3000]%Z
  /\ waits (snd (callSingleModel as_written
                   (by_attempt (fun _ => rejects "503 Service Unavailable"))
                   "model" "prompt" None 3))
     = [2000; 4000]%Z.
Proof.
  split.
  - apply (backoff_grows_linearly as_written dead_round "model" "prompt"
             None 4 (fun _ => new_Error "ECONNREFUSED")); [lia|].
    intros k _. reflexivity.
  - apply (backoff_grows_linearly as_written
             (by_attempt (fun _ => rejects "503 Service Unavailable"))
             "model" "prompt" None 3
             (fun _ => new_Error "503 Service Unavailable")); [lia|].
    intros k _. reflexivity.
Defined.

Section ImageHeader.

Lemma run_literal_fails {R : Type} p s bol caps
    (k : bool -> string -> captures -> option R) :
  String.prefix p s = false -> run false (Lit p) bol s caps k = None.
Proof.
  revert s bol. induction p as [|c p IH]; intros s bol Hp.
  - now destruct s.
  - destruct s as [|y t].
    + destruct p; reflexivity.
    + simpl in Hp. destruct (ascii_dec c y) as [->|Hne].
      * destruct p as [|c' p]; [now destruct t|].
        change (Lit (String y (String c' p)))
          with (Seq (Set_ (CChar y)) (Lit (String c' p))).
        cbn [run]. unfold cset_match. cbn [cset_mem].
        rewrite Ascii.eqb_refl. now apply IH.
      * assert (E : cset_match false (CChar c) y = false).
        { unfold cset_match. cbn [cset_mem]. now apply Ascii.eqb_neq. }
        destruct p as [|c' p].
        -- cbn [Lit run]. now rewrite E.
        -- change (Lit (String c (String c' p)))
             with (Seq (Set_ (CChar c)) (Lit (String c' p))).
           cbn [run]. now rewrite E.
Qed.

(** A greedy [\w*] in front of something that is no word character
    takes every word character. *)
Lemma greedy_word_star {R : Type} w rest fuel bol caps
    (k : bool -> string -> captures -> option R) x :
  word_text w = true ->
  match rest with
  | String y _ => cset_mem CWord y = false
  | EmptyString => True
  end ->
  String.length w <= fuel ->
  (forall b, k b rest caps = Some x) ->
  star_loop (run false (Set_ CWord)) true k fuel bol (w +:+ rest) caps
  = Some x.
Proof.
  intros Hw Hrest Hfuel Hk. revert fuel bol Hfuel.
  induction w as [|c w IH]; intros fuel bol Hfuel.
  - rewrite append_nil_l. destruct fuel as [|fuel]; [apply Hk|].
    cbn [star_loop run]. destruct rest as [|y t]; [apply Hk|].
    unfold cset_match. rewrite Hrest. apply Hk.
  - destruct fuel as [|fuel]; [simpl in Hfuel; lia|].
    cbn [word_text] in Hw. apply andb_prop in Hw as [Hc Hw].
    rewrite append_cons. cbn [star_loop run]. unfold cset_match. rewrite Hc.
    cbn [String.length].
    replace (String.length (w +:+ rest) <? S (String.length (w +:+ rest)))
      with true by (symmetry; apply Nat.ltb_lt; lia).
    rewrite IH; [reflexivity | assumption | simpl in Hfuel; lia].
Qed.

Lemma take_0 s : take 0 s = EmptyString.
Proof. now destruct s. Qed.

Lemma data_header_here kind data :
  kind <> EmptyString -> word_text kind = true ->
  match_here false re_data_header true
    ("data:image/" +:+ kind +:+ ";base64," +:+ data)
  = Some ("data:image/" +:+ kind +:+ ";base64,", data, []).
Proof.
  intros Hkind Hword. unfold match_here, re_data_header, Plus.
  cbn [run]. rewrite run_literal by discriminate.
  destruct kind as [|c w]; [congruence|].
  cbn [word_text] in Hword. apply andb_prop in Hword as [Hc Hw].
  rewrite append_cons. cbn [run]. unfold cset_match at 1. rewrite Hc.
  apply (greedy_word_star w (";base64," +:+ data));
    [assumption | exact eq_refl | | ].
  - rewrite length_append. lia.
  - intros b. rewrite run_literal by discriminate.
    do 3 f_equal.
    rewrite <- (append_cons c w), <- !append_assoc.
    rewrite (length_append _ data).
    replace (_ + String.length data - String.length data)
      with (String.length (("data:image/" +:+ String c w) +:+ ";base64,"))
      by lia.
    apply take_append.
Qed.

(** X14. The image data of a request is the image without its header
    [data:image/kind;base64,], for a kind of word characters; an image
    that does not start with [data:image/] is sent as it is; an empty
    or missing image gives no image part. *)
Theorem image_is_sent_without_its_header :
  forall model prompt,
    (forall kind data,
       kind <> EmptyString -> word_text kind = true ->
       gc_image (make_request model prompt
                   (Some ("data:image/" +:+ kind +:+ ";base64," +:+ data)))
       = Some data)
    /\ (forall picture,
          picture <> EmptyString ->
          String.prefix "data:image/" picture = false ->
          gc_image (make_request model prompt (Some picture)) = Some picture)
    /\ gc_image (make_request model prompt (Some EmptyString)) = None
    /\ gc_image (make_request model prompt None) = None.
Proof.
  intros model prompt. split; [|split; [|split; reflexivity]].
  - intros kind data Hkind Hword. unfold make_request. cbn [gc_image].
    rewrite append_cons. rewrite <- append_cons. f_equal.
    unfold replace_first, re_data_header. rewrite exec_anchored.
    fold re_data_header. rewrite data_header_here by assumption.
    cbn [f_index f_rest]. now rewrite take_0.
  - intros picture Hpicture Hprefix. unfold make_request. cbn [gc_image].
    destruct picture as [|c t]; [congruence|]. f_equal.
    unfold replace_first, re_data_header. rewrite exec_anchored.
    unfold match_here. cbn [run].
    now rewrite run_literal_fails.
Qed.
End ImageHeader.

Example image_header_example :
  gc_image (make_request "model" "prompt" (Some "data:image/png;base64,iVBOR"))
  = Some "iVBOR"
  /\ gc_image (make_request "model" "prompt" (Some "iVBOR")) = Some "iVBOR"
  /\ gc_image (make_request "model" "prompt"
                 (Some "data:image/svg+xml;base64,PHN2"))
     = Some "data:image/svg+xml;base64,PHN2".
Proof. repeat split; vm_compute; reflexivity. Qed.

(* ================================================================== *)
(** * Further properties of the answer normalization *)
(* ================================================================== *)

Section NormalizeAnswerFacts.

Lemma one_capital_test s :
  test false re_one_capital s = true -> capital_letter s = true.
Proof.
  unfold test, re_one_capital. rewrite exec_anchored.
  unfold match_here. cbn [run].
  destruct s as [|c [|c' t]]; [discriminate| |].
  - unfold cset_match. cbn [cset_mem capital_letter].
    change (code "A") with 65. change (code "Z") with 90.
    now destruct (in_range 65 90 c).
  - destruct (cset_match false (CRange "A" "Z") c); discriminate.
Qed.

(** X15. [normalizeAnswer] returns the list of the word true, the list of
    the word false, or single capital letters in strictly increasing
    order. *)
Theorem normalizeAnswer_labels_are_sorted_capitals :
  forall answer,
    normalizeAnswer answer = ["true"]
    \/ normalizeAnswer answer = ["false"]
    \/ (forallb capital_letter (normalizeAnswer answer) = true
        /\ increasing (normalizeAnswer answer) = true).
Proof.
  intros [[|c t]|]; [right; right; now split | | right; right; now split].
  unfold normalizeAnswer.
  set (upperAnswer := trim (toUpperCase (String c t))).
  destruct (String.eqb upperAnswer "TRUE") eqn:Et.
  { left. apply String.eqb_eq in Et. now rewrite Et. }
  destruct (String.eqb upperAnswer "FALSE") eqn:Ef.
  { right. left. apply String.eqb_eq in Ef. now rewrite Ef. }
  right. right. cbn [orb]. split.
  - apply forallb_forall. intros x Hx.
    apply (proj1 (sort_In leb x _)) in Hx.
    apply (proj1 (unique_In x _)) in Hx.
    apply list_elem_of_In, list_elem_of_filter in Hx as [Hx _].
    now apply one_capital_test.
  - apply increasing_sort, unique_NoDup.
Qed.
End NormalizeAnswerFacts.

(* ================================================================== *)
(** * Further properties of the confidence-weighted vote *)
(* ================================================================== *)

Section WeightedVoteFacts.

Lemma mark_success r : success r = true -> exists m, mark r = Some m.
Proof.
  destruct r as [a c m raw|m e]; [|discriminate]. intros _. unfold mark.
  destruct (4 <=? length (normalizeAnswer (Some a))); eauto.
Qed.

(** X16. [_confidenceWeightedVote] throws when no result is a success, and
    only then: with a success among the results it returns a result,
    whose method is one of single, consensus, primary, secondary and
    fallback. *)
Theorem weighted_vote_throws_only_when_all_failed :
  forall modelResults,
    (Forall (fun r => success r = false) modelResults ->
     _confidenceWeightedVote modelResults
     = inr (new_Error "All models failed in ensemble"))
    /\ ((exists r, In r modelResults /\ success r = true) ->
        exists voting,
          _confidenceWeightedVote modelResults = inl voting
          /\ (method voting = "single" \/ method voting = "consensus"
              \/ method voting = "primary" \/ method voting = "secondary"
              \/ method voting = "fallback")).
Proof.
  intros modelResults. split.
  - intros Hall. unfold _confidenceWeightedVote.
    rewrite filter_none; [reflexivity|].
    eapply Forall_impl; [exact Hall|]. simpl. intros r ->. discriminate.
  - intros (r & Hin & Hr). unfold _confidenceWeightedVote.
    pose proof (filter_success_Forall modelResults) as Hall.
    assert (Hr' : r ∈ filter (fun r => success r = true) modelResults).
    { apply list_elem_of_filter. split; [assumption|].
      now apply list_elem_of_In. }
    destruct (filter (fun r => success r = true) modelResults)
      as [|x [|y l]] eqn:E.
    + inversion Hr'.
    + apply Forall_cons in Hall as [Hx _].
      destruct x as [a c m raw|]; [|discriminate].
      eexists. split; [reflexivity|]. now left.
    + apply Forall_cons in Hall as [Hx Hall].
      destruct x as [a c m raw|]; [|discriminate].
      destruct (mark_success (Success a c m raw) eq_refl) as [mx Hmx].
      set (reliable := reliableResults (Success a c m raw :: y :: l)).
      assert (Hrel : exists r0 rs, reliable = r0 :: rs).
      { unfold reliable, reliableResults. cbn [omap list_omap].
        change (mark (Success a c m raw)) with (mark (Success a c m raw)).
        rewrite Hmx. eauto. }
      destruct Hrel as (r0 & rs & Hrel).
      cbv zeta. fold reliable. rewrite Hrel.
      destruct (sort_ranked (answerCounts (r0 :: rs))) as [|top rest].
      * destruct (find _ (r0 :: rs)) as [p|].
        { eexists. split; [reflexivity|]. cbn [method]. tauto. }
        destruct (find _ (r0 :: rs)) as [p|].
        { eexists. split; [reflexivity|]. cbn [method]. tauto. }
        eexists. split; [reflexivity|]. cbn [method]. tauto.
      * destruct (2 <=? ra_count top).
        { eexists. split; [reflexivity|]. cbn [method]. tauto. }
        destruct (find _ (r0 :: rs)) as [p|].
        { eexists. split; [reflexivity|]. cbn [method]. tauto. }
        destruct (find _ (r0 :: rs)) as [p|].
        { eexists. split; [reflexivity|]. cbn [method]. tauto. }
        eexists. split; [reflexivity|]. cbn [method]. tauto.
Qed.
End WeightedVoteFacts.

(* ================================================================== *)
(** * Further properties of the ensemble call *)
(* ================================================================== *)

Section EnsembleShape.
Variable float_toString : string -> string.
Variable provider : Provider.
Variables (prompt : string) (opts : list QuestionOption)
          (imageBase64 : option string).

Let results := worker_results float_toString provider prompt imageBase64.
Let judge := judge_result float_toString provider prompt imageBase64.

Lemma worker_result_success a c m raw :
  In (Success a c m raw) results -> a <> EmptyString /\ (0 <= c <= 100)%Z.
Proof.
  unfold results, worker_results. intros H.
  apply in_map_iff in H as (model & H & _).
  unfold callSingleModel in H.
  exact (attempts_from_success _ _ _ _ _ _ _ _ _ _ _ _ H).
Qed.

Lemma worker_result_range r : In r results -> (0 <= conf r <= 100)%Z.
Proof.
  destruct r as [a c m raw|m e]; [|intros _; unfold conf; simpl; lia].
  intros H. now apply worker_result_success in H.
Qed.

Lemma confidence_sum_range (l : list ModelResult) :
  Forall (fun r => (0 <= conf r <= 100)%Z) l ->
  (0 <= confidence_sum l <= 100 * Z.of_nat (length l))%Z.
Proof.
  induction 1 as [|r l Hr _ IH]; simpl; lia.
Qed.

Lemma round_div_range total n :
  1 <= n -> (0 <= total <= 100 * Z.of_nat n)%Z ->
  (0 <= round_div total n <= 100)%Z.
Proof.
  intros Hn Ht. unfold round_div. split.
  - apply Z.div_pos; lia.
  - assert (H : ((2 * total + Z.of_nat n) / (2 * Z.of_nat n) < 101)%Z);
      [|lia].
    apply Z.div_lt_upper_bound; lia.
Qed.

(** The head of the ranking is the tally of the results that vote for
    its answer. *)
Lemma top_vote_tally d top rest :
  voteCounts results opts = inl d ->
  sortedVotes d = top :: rest ->
  exists key,
    supporters key results opts <> []
    /\ top = rank (key, tally_of (supporters key results opts)).
Proof.
  unfold sortedVotes, sort_ranked. intros Hd Es.
  assert (H : In top (sort ranked_before (map rank (entries d))))
    by (rewrite Es; now left).
  apply sort_In in H. apply in_map_iff in H as ([k v] & <- & He).
  apply (Permutation_in _ (entries_perm d)) in He.
  apply lookup_key_In in He; [|exact (voteCounts_NoDup opts results d Hd)].
  rewrite (voteCounts_lookup opts results d k Hd) in He.
  exists k. destruct (supporters k results opts) as [|x l] eqn:E;
    [discriminate|].
  injection He as <-. split; [discriminate | reflexivity].
Qed.

Lemma supporters_range key :
  Forall (fun r => (0 <= conf r <= 100)%Z) (supporters key results opts).
Proof.
  apply Forall_forall. intros r Hr.
  apply list_elem_of_filter in Hr as [_ Hr].
  apply worker_result_range. now apply list_elem_of_In.
Qed.

Lemma supporters_key key r :
  In r (supporters key results opts) -> key <> EmptyString.
Proof.
  intros Hr. apply list_elem_of_In, list_elem_of_filter in Hr as [Hk _].
  destruct r as [a c m raw|]; [|discriminate]. simpl in Hk.
  destruct (normalize (Some a) opts) eqn:E; [discriminate|].
  simpl in Hk. injection Hk as <-. discriminate.
Qed.

Lemma best_worker_In r : best_worker results = Some r -> In r results.
Proof.
  unfold best_worker. intros H.
  destruct (sort confident_before _) as [|h t] eqn:E; [discriminate|].
  injection H as ->.
  assert (Hin : In r (sort confident_before
                        (filter (fun r => success r = true) results)))
    by (rewrite E; now left).
  apply sort_In in Hin.
  apply list_elem_of_In, list_elem_of_filter in Hin as [_ Hin].
  now apply list_elem_of_In.
Qed.

Lemma judge_success a c m raw :
  judge = Success a c m raw -> a <> EmptyString /\ (0 <= c <= 100)%Z.
Proof.
  unfold judge, judge_result, callSingleModel.
  apply attempts_from_success.
Qed.

Lemma ensemble_result_shape v :
  fst (callGeminiEnsemble float_toString provider prompt opts imageBase64)
  = inl v ->
  finalAnswer v <> EmptyString
  /\ (0 <= finalConfidence v <= 100)%Z
  /\ (method v = "unanimous" \/ method v = "majority"
      \/ method v = "judge" \/ method v = "fallback_worker")
  /\ votes v = None /\ modelAnswers v = None.
Proof.
  rewrite callGeminiEnsemble_decision. fold results judge.
  destruct (voteCounts results opts) as [d|thrown] eqn:Hd; [|discriminate].
  unfold after_tally.
  assert (Hlast :
    last_resort results judge = inl v ->
    finalAnswer v <> EmptyString
    /\ (0 <= finalConfidence v <= 100)%Z
    /\ (method v = "unanimous" \/ method v = "majority"
        \/ method v = "judge" \/ method v = "fallback_worker")
    /\ votes v = None /\ modelAnswers v = None).
  { unfold last_resort. destruct judge as [a c m raw|m e] eqn:Ej.
    - intros [= <-]. destruct (judge_success a c m raw Ej).
      cbn. repeat split; try assumption; try lia. tauto.
    - destruct (best_worker results) as [[a c m' raw|m' e']|] eqn:Eb;
        try discriminate.
      intros [= <-]. apply best_worker_In, worker_result_success in Eb.
      destruct Eb. cbn. repeat split; try assumption; try lia. tauto. }
  destruct (sortedVotes d) as [|top rest] eqn:Es; [exact Hlast|].
  destruct (2 <=? ra_count top) eqn:E2; [|exact Hlast].
  intros [= <-].
  apply (top_vote_tally d) in Es as (key & Hsup & ->); [|exact Hd].
  cbn [plain_result finalAnswer finalConfidence method votes modelAnswers
       rank ra_answer ra_avgConfidence ra_count fst snd tally_of
       vc_count vc_totalConfidence].
  repeat split.
  - destruct (supporters key results opts) as [|r l] eqn:E; [congruence|].
    apply (supporters_key key r). rewrite E. now left.
  - apply round_div_range.
    + destruct (supporters key results opts); [congruence | simpl; lia].
    + apply confidence_sum_range, supporters_range.
  - apply round_div_range.
    + destruct (supporters key results opts); [congruence | simpl; lia].
    + apply confidence_sum_range, supporters_range.
  - destruct (Nat.eqb _ 3); tauto.
Qed.

(** The trace of [callGeminiEnsemble]: the worker calls, and the
    judge's when the tally is made and no answer has two votes. *)
Lemma callGeminiEnsemble_events :
  snd (callGeminiEnsemble float_toString provider prompt opts imageBase64)
  = worker_events float_toString provider prompt imageBase64
    ++ match voteCounts results opts with
       | inr _ => []
       | inl d =>
           match sortedVotes d with
           | topVote :: _ =>
               if 2 <=? ra_count topVote then []
               else judge_events float_toString provider prompt imageBase64
           | [] => judge_events float_toString provider prompt imageBase64
           end
       end.
Proof.
  unfold callGeminiEnsemble, worker_events, judge_events.
  change (map fst (map _ workers)) with results.
  rewrite map_map.
  assert (Hjudge :
    snd (let (judgeResult, judgeEvents) :=
           callSingleModel float_toString provider (MODELS_at 3) prompt
             imageBase64 3 in
         match judgeResult with
         | Success a c _ _ =>
             (inl (plain_result a c "judge"),
              List.concat
                (map (fun x => snd (callSingleModel float_toString provider
                                      x prompt imageBase64 3)) workers)
              ++ judgeEvents)
         | Failure _ _ =>
             match best_worker results with
             | Some (Success a c _ _) =>
                 (inl (plain_result a c "fallback_worker"),
                  List.concat
                    (map (fun x => snd (callSingleModel float_toString
                                          provider x prompt imageBase64 3))
                         workers)
                  ++ judgeEvents)
             | _ =>
                 (inr (new_Error "All models failed including Judge"),
                  List.concat
                    (map (fun x => snd (callSingleModel float_toString
                                          provider x prompt imageBase64 3))
                         workers)
                  ++ judgeEvents)
             end
         end)
    = List.concat
        (map (fun x => snd (callSingleModel float_toString provider x prompt
                              imageBase64 3)) workers)
      ++ snd (callSingleModel float_toString provider (MODELS_at 3) prompt
                imageBase64 3)).
  { destruct (callSingleModel _ _ (MODELS_at 3) _ _ _)
      as [[a c m raw|m e] ev]; [reflexivity|].
    destruct (best_worker results) as [[a c m' raw|m' e']|]; reflexivity. }
  destruct (voteCounts results opts) as [d|thrown];
    [|cbn [snd]; now rewrite app_nil_r].
  destruct (sortedVotes d) as [|topVote rest]; [exact Hjudge|].
  destruct (2 <=? ra_count topVote); [|exact Hjudge].
  cbn [snd]. now rewrite app_nil_r.
Qed.
End EnsembleShape.

Section CallBudget.
Variable float_toString : string -> string.
Variable provider : Provider.
Variables (prompt : string) (imageBase64 : option string).

Lemma attempts_made_app a b :
  attempts_made (a ++ b) = attempts_made a ++ attempts_made b.
Proof. unfold attempts_made. apply omap_app. Qed.

Lemma calls_to_app model a b :
  calls_to model (a ++ b) = calls_to model a ++ calls_to model b.
Proof. unfold calls_to. apply omap_app. Qed.

Lemma single_model_budget model :
  length (attempts_made
            (snd (callSingleModel float_toString provider model prompt
                    imageBase64 3))) <= 3.
Proof.
  destruct (attempts_from_calls float_toString provider model prompt
              imageBase64 3 3 1) as (n & Hn & Hev & _).
  unfold callSingleModel. rewrite Hev, length_seq. exact Hn.
Qed.

Lemma calls_to_other model other events :
  Forall (fun r => gc_model r = model) (requests events) ->
  other <> model -> calls_to other events = [].
Proof.
  intros Hall Hne. induction events as [|[r k|ms] evs IH]; [reflexivity| |].
  - rewrite requests_called in Hall. apply Forall_cons in Hall as [Hr Hall].
    unfold calls_to in *. cbn [omap list_omap].
    replace (String.eqb (gc_model r) other) with false
      by (symmetry; apply String.eqb_neq; congruence).
    now apply IH.
  - rewrite requests_slept in Hall. unfold calls_to in *.
    cbn [omap list_omap]. now apply IH.
Qed.

Lemma single_model_calls_to model other :
  other <> model ->
  calls_to other
    (snd (callSingleModel float_toString provider model prompt imageBase64 3))
  = [].
Proof.
  intros Hne.
  destruct (attempts_from_calls float_toString provider model prompt
              imageBase64 3 3 1) as (n & _ & _ & _ & Hreq).
  apply (calls_to_other model); [|assumption].
  unfold callSingleModel. eapply Forall_impl; [exact Hreq|].
  simpl. now intros r ->.
Qed.

Lemma worker_events_budget :
  length (attempts_made
            (worker_events float_toString provider prompt imageBase64)) <= 9
  /\ calls_to (MODELS_at 3)
       (worker_events float_toString provider prompt imageBase64) = [].
Proof.
  unfold worker_events, workers. cbn [map List.concat].
  rewrite !attempts_made_app, !calls_to_app, !length_app, app_nil_r.
  pose proof (single_model_budget (MODELS_at 0)).
  pose proof (single_model_budget (MODELS_at 1)).
  pose proof (single_model_budget (MODELS_at 2)).
  split; [simpl; lia|].
  rewrite !single_model_calls_to by discriminate. reflexivity.
Qed.
End CallBudget.

(** X19. When no two workers are tallied under the same answer, none under
    the name of a member of [Object.prototype], and the call of the
    judge succeeds, the answer and the confidence of the judge are
    returned, with method "judge". *)
Theorem judge_decides_without_majority :
  forall float_toString provider prompt opts imageBase64 a c m raw,
    let results :=
      worker_results float_toString provider prompt imageBase64 in
    (forall key, length (supporters key results opts) < 2) ->
    ordinary_keys opts results = true ->
    judge_result float_toString provider prompt imageBase64
    = Success a c m raw ->
    fst (callGeminiEnsemble float_toString provider prompt opts imageBase64)
    = inl (plain_result a c "judge").
Proof.
  intros fts provider prompt opts image a c m raw results Hno Hkeys Hjudge.
  rewrite (ensemble_no_majority fts provider prompt opts image Hkeys Hno).
  now rewrite Hjudge.
Qed.

Lemma three_different_votes a1 c1 m1 r1 a2 c2 m2 r2 a3 c3 m3 r3 opts key :
  normalize (Some a1) opts <> normalize (Some a2) opts ->
  normalize (Some a1) opts <> normalize (Some a3) opts ->
  normalize (Some a2) opts <> normalize (Some a3) opts ->
  length (supporters key
            [Success a1 c1 m1 r1; Success a2 c2 m2 r2; Success a3 c3 m3 r3]
            opts) < 2.
Proof.
  intros H12 H13 H23. unfold supporters.
  rewrite !filter_cons, filter_nil. unfold vote_key.
  destruct (normalize (Some a1) opts) as [|x1 y1];
    destruct (normalize (Some a2) opts) as [|x2 y2];
    destruct (normalize (Some a3) opts) as [|x3 y3]; cbn [truthy];
    repeat match goal with
           | |- context [decide ?P] => destruct (decide P)
           end; simpl; try lia; congruence.
Qed.

Lemma judge_decides_example :
  fst (callGeminiEnsemble as_written judged_round "prompt" [] None)
  = inl (plain_result "B" 88 "judge").
Proof.
  apply (judge_decides_without_majority as_written judged_round "prompt" []
           None "B" 88%Z (MODELS_at 3) (answer_json "B" "88")).
  - intros key.
    replace (worker_results as_written judged_round "prompt" None)
      with [ Success "A" 90 (MODELS_at 0) (answer_json "A" "90");
             Success "B" 85 (MODELS_at 1) (answer_json "B" "85");
             Success "C" 70 (MODELS_at 2) (answer_json "C" "70") ]
      by (vm_compute; reflexivity).
    apply three_different_votes; vm_compute; discriminate.
  - vm_compute. reflexivity.
  - vm_compute. reflexivity.
Defined.

(** X20. Every result of [callGeminiEnsemble] has a non-empty final answer
    and a final confidence between 0 and 100; its method is one of
    unanimous, majority, judge and fallback_worker, and it has no
    [votes] and no [modelAnswers]. *)
Theorem ensemble_result_is_well_formed :
  forall float_toString provider prompt opts imageBase64 voting,
    fst (callGeminiEnsemble float_toString provider prompt opts imageBase64)
    = inl voting ->
    finalAnswer voting <> EmptyString
    /\ (0 <= finalConfidence voting <= 100)%Z
    /\ (method voting = "unanimous" \/ method voting = "majority"
        \/ method voting = "judge" \/ method voting = "fallback_worker")
    /\ votes voting = None /\ modelAnswers voting = None.
Proof.
  intros fts provider prompt opts image voting H.
  now apply (ensemble_result_shape fts provider prompt opts image).
Qed.

Lemma ensemble_result_example :
  "A" <> EmptyString
  /\ (0 <= 85 <= 100)%Z
  /\ ("majority" = "unanimous" \/ "majority" = "majority"
      \/ "majority" = "judge" \/ "majority" = "fallback_worker")
  /\ @None (list (string * VoteSummary)) = None
  /\ @None (list ModelAnswer) = None.
Proof.
  apply (ensemble_result_is_well_formed as_written majority_round "prompt" []
           None (plain_result "A" 85 "majority")).
  vm_compute. reflexivity.
Defined.

(** X21. A round makes at most twelve provider calls. When it ends with a
    majority (or unanimity) the judge is not called at all, and at most
    nine calls are made. *)
Theorem ensemble_call_budget :
  forall float_toString provider prompt opts imageBase64,
    let round :=
      callGeminiEnsemble float_toString provider prompt opts imageBase64 in
    length (attempts_made (snd round)) <= 12
    /\ ((exists voting,
           fst round = inl voting
           /\ (method voting = "unanimous" \/ method voting = "majority")) ->
        calls_to (MODELS_at 3) (snd round) = []
        /\ length (attempts_made (snd round)) <= 9).
Proof.
  intros fts provider prompt opts image round. subst round.
  rewrite callGeminiEnsemble_events, callGeminiEnsemble_decision.
  destruct (worker_events_budget fts provider prompt image) as [Hw Hj].
  pose proof (single_model_budget fts provider prompt image (MODELS_at 3))
    as Hjudge.
  fold (judge_events fts provider prompt image) in Hjudge.
  rewrite attempts_made_app, calls_to_app, length_app, Hj.
  destruct (voteCounts (worker_results fts provider prompt image) opts)
    as [d|thrown].
  2: { split; [simpl; lia|]. intros (voting & Hv & _). discriminate. }
  unfold after_tally.
  assert (Hlast :
    forall voting,
      last_resort (worker_results fts provider prompt image)
        (judge_result fts provider prompt image) = inl voting ->
      ~ (method voting = "unanimous" \/ method voting = "majority")).
  { intros voting. unfold last_resort.
    destruct (judge_result fts provider prompt image) as [a c m raw|m e].
    - intros [= <-]. cbn. intros [H|H]; discriminate.
    - destruct (best_worker _) as [[a c m' raw|m' e']|]; try discriminate.
      intros [= <-]. cbn. intros [H|H]; discriminate. }
  destruct (sortedVotes d) as [|top rest].
  - split; [lia|]. intros (voting & Hv & Hm). now apply Hlast in Hv.
  - destruct (2 <=? ra_count top).
    + split; [simpl; lia|]. intros _. split; [reflexivity | simpl; lia].
    + split; [lia|]. intros (voting & Hv & Hm). now apply Hlast in Hv.
Qed.

(** X29. When a worker is tallied under the name of a member of
    [Object.prototype], the round throws the [TypeError] of the tally:
    its trace is the calls of the workers, and the judge is not
    called. *)
Theorem inherited_key_ends_the_round :
  forall float_toString provider prompt opts imageBase64,
    ordinary_keys opts
      (worker_results float_toString provider prompt imageBase64) = false ->
    callGeminiEnsemble float_toString provider prompt opts imageBase64
    = (inr {| name := "TypeError";
              message :=
                "Cannot read properties of undefined (reading 'push')" |},
       worker_events float_toString provider prompt imageBase64).
Proof.
  intros fts provider prompt opts image Hkeys.
  rewrite (surjective_pairing (callGeminiEnsemble _ _ _ _ _)).
  rewrite callGeminiEnsemble_events.
  rewrite (ensemble_throws fts provider prompt opts image Hkeys).
  rewrite (voteCounts_throws opts _ Hkeys).
  now rewrite app_nil_r.
Qed.

Lemma inherited_key_example :
  callGeminiEnsemble as_written inherited_round "prompt" inherited_options
    None
  = (inr {| name := "TypeError";
            message :=
              "Cannot read properties of undefined (reading 'push')" |},
     worker_events as_written inherited_round "prompt" None).
Proof.
  apply (inherited_key_ends_the_round as_written inherited_round "prompt"
           inherited_options None).
  vm_compute. reflexivity.
Defined.

(** X30. In a round in which no worker is tallied under the name of a member
    of [Object.prototype] and two or three of the worker results are
    tallied under the same normalized answer [key],
    [callGeminiEnsemble] returns [key] with the rounded average of the
    confidences of these workers, with method "unanimous" when all
    three agree and "majority" otherwise. *)
Theorem majority_vote_wins :
  forall float_toString provider prompt opts imageBase64 key,
    let results :=
      worker_results float_toString provider prompt imageBase64 in
    let agreeing := supporters key results opts in
    ordinary_keys opts results = true ->
    2 <= length agreeing ->
    fst (callGeminiEnsemble float_toString provider prompt opts imageBase64)
    = inl (plain_result key
             (round_div (confidence_sum agreeing) (length agreeing))
             (if Nat.eqb (length agreeing) 3 then "unanimous"
              else "majority")).
Proof.
  intros fts provider prompt opts image key results agreeing Hkeys Hsup.
  exact (ensemble_majority fts provider prompt opts image key Hkeys Hsup).
Qed.

Lemma majority_vote_wins_example :
  fst (callGeminiEnsemble as_written majority_round "prompt" [] None)
  = inl (plain_result "A" 85 "majority").
Proof.
  rewrite (majority_vote_wins as_written majority_round "prompt" [] None "A").
  - vm_compute. reflexivity.
  - vm_compute. reflexivity.
  - vm_compute. lia.
Defined.

(* ================================================================== *)
(** * Properties of the failover call *)
(* ================================================================== *)

Section FailoverFacts.
Variable float_toString : string -> string.
Variable provider : Provider.
Variables (prompt : string) (imageBase64 : option string).

Let call (model : string) :=
  callSingleModel float_toString provider model prompt imageBase64 3.

Lemma failover_from_all_fail models :
  Forall (fun m => success (fst (call m)) = false) models ->
  failover_from float_toString provider prompt imageBase64 models
  = (inr (new_Error "All models failed"),
     List.concat (map (fun m => snd (call m)) models)).
Proof.
  induction 1 as [|m models Hm _ IH]; [reflexivity|].
  cbn [failover_from map List.concat]. fold (call m).
  destruct (call m) as [result events]. cbn [fst snd] in *.
  now rewrite Hm, IH.
Qed.

Lemma failover_from_first_success before m after :
  Forall (fun m' => success (fst (call m')) = false) before ->
  success (fst (call m)) = true ->
  failover_from float_toString provider prompt imageBase64
    (before ++ m :: after)
  = (inl (fst (call m)),
     List.concat (map (fun m' => snd (call m')) (before ++ [m]))).
Proof.
  intros Hbefore Hm. induction Hbefore as [|m' before Hm' _ IH].
  - cbn [app failover_from map List.concat]. fold (call m).
    destruct (call m) as [result events]. cbn [fst snd] in *.
    now rewrite Hm, app_nil_r.
  - cbn [app failover_from map List.concat]. fold (call m').
    destruct (call m') as [result events]. cbn [fst snd] in *.
    now rewrite Hm', IH.
Qed.
End FailoverFacts.

(** X22. [callGeminiWithFailover] returns the result of the first model of
    the roster whose call succeeds; its trace is the calls of the models
    before it and its own, so that no later model is called. When all
    four models fail it throws "All models failed", after the calls of
    the four. *)
Theorem failover_stops_at_the_first_success :
  forall float_toString provider prompt imageBase64,
    let call model :=
      callSingleModel float_toString provider model prompt imageBase64 3 in
    (forall before m after,
       MODELS = before ++ m :: after ->
       Forall (fun m' => success (fst (call m')) = false) before ->
       success (fst (call m)) = true ->
       callGeminiWithFailover float_toString provider prompt imageBase64
       = (inl (fst (call m)),
          List.concat (map (fun m' => snd (call m')) (before ++ [m]))))
    /\ (Forall (fun m => success (fst (call m)) = false) MODELS ->
        callGeminiWithFailover float_toString provider prompt imageBase64
        = (inr (new_Error "All models failed"),
           List.concat (map (fun m => snd (call m)) MODELS))).
Proof.
  intros fts provider prompt image call. split.
  - intros before m after Hmodels Hbefore Hm.
    unfold callGeminiWithFailover. rewrite Hmodels.
    now apply failover_from_first_success.
  - intros Hall. unfold callGeminiWithFailover.
    now apply failover_from_all_fail.
Qed.

Lemma failover_example :
  callGeminiWithFailover as_written failover_round "prompt" None
  = (inl (fst (callSingleModel as_written failover_round (MODELS_at 1)
                 "prompt" None 3)),
     List.concat
       (map (fun m => snd (callSingleModel as_written failover_round m
                             "prompt" None 3))
            ([MODELS_at 0] ++ [MODELS_at 1]))).
Proof.
  apply (proj1 (failover_stops_at_the_first_success as_written failover_round
                  "prompt" None) [MODELS_at 0] (MODELS_at 1)
           [MODELS_at 2; MODELS_at 3]).
  - reflexivity.
  - repeat constructor.
  - vm_compute. reflexivity.
Defined.

(* ================================================================== *)
(** * The keys of the tally and the prototype *)
(* ================================================================== *)

Section KeyFacts.

Lemma has_lower_case_append (a b : string) :
  has_lower_case (a +:+ b) = has_lower_case a || has_lower_case b.
Proof.
  induction a as [|c a IH]; [reflexivity|].
  rewrite append_cons. cbn [has_lower_case]. now rewrite IH, orb_assoc.
Qed.

Lemma upper_char_not_lower c : is_lower (upper_char c) = false.
Proof.
  unfold upper_char. destruct (is_lower c) eqn:E; [|exact E].
  unfold is_lower, in_range, code in *.
  apply andb_prop in E as [H1 H2]. apply Nat.leb_le in H1, H2.
  rewrite nat_ascii_embedding by lia.
  apply andb_false_iff. left. apply Nat.leb_gt. lia.
Qed.

Lemma toUpperCase_no_lower s : has_lower_case (toUpperCase s) = false.
Proof.
  induction s as [|c s IH]; [reflexivity|].
  cbn [toUpperCase map_string has_lower_case].
  fold (toUpperCase s). now rewrite upper_char_not_lower, IH.
Qed.

(** Every name of [Object.prototype] holds a small letter. *)
Lemma inherited_has_lower key :
  inherited key = true -> has_lower_case key = true.
Proof.
  unfold inherited. intros H.
  apply existsb_exists in H as (n & Hin & Heq).
  apply String.eqb_eq in Heq. subst key.
  unfold object_prototype_names in Hin.
  repeat (destruct Hin as [<-|Hin]; [reflexivity|]). destruct Hin.
Qed.

Lemma join_letters_no_lower l :
  forallb answer_letter l = true -> has_lower_case (join ", " l) = false.
Proof.
  induction l as [|x l IH]; [reflexivity|].
  cbn [forallb]. intros [Hx Hl]%andb_prop.
  assert (Hxl : has_lower_case x = false).
  { destruct x as [|c [|? ?]]; try discriminate.
    cbn [answer_letter has_lower_case] in *.
    unfold is_lower, in_range in *.
    apply andb_prop in Hx as [_ H2]. apply Nat.leb_le in H2.
    rewrite orb_false_r. apply andb_false_iff. left.
    apply Nat.leb_gt. lia. }
  destruct l as [|y l]; [exact Hxl|].
  change (join ", " (x :: y :: l)) with (x +:+ ", " +:+ join ", " (y :: l)).
  rewrite !has_lower_case_append, Hxl, (IH Hl). reflexivity.
Qed.

(** A normalized answer that is a name of [Object.prototype] is the
    label of an option. *)
Lemma normalize_inherited ans opts :
  inherited (normalize ans opts) = true ->
  exists o, In o opts /\ label o = normalize ans opts.
Proof.
  destruct ans as [[|c t]|]; [discriminate| |discriminate].
  unfold normalize. set (a := toUpperCase (trim (String c t))).
  destruct (test true re_TRUE a); [discriminate|].
  destruct (test true re_FALSE a); [discriminate|].
  match goal with
  | |- context [match ?tf with Some w => w | None => _ end] =>
      assert (Htf : tf = None \/ tf = Some "true" \/ tf = Some "false");
      [|destruct tf as [w|] eqn:Etf]
  end.
  { destruct (Nat.eqb (length opts) 2); [|now left].
    destruct (_ || _); [|now left].
    repeat match goal with
           | |- context [if ?b then _ else _] => destruct b
           end; tauto. }
  { destruct Htf as [H|[H|H]]; [discriminate| |]; injection H as ->;
      discriminate. }
  clear Htf Etf.
  destruct (match_all false re_letter a) as [letters|] eqn:L.
  - apply letter_set_shape in L as (l & _ & -> & Hl & _).
    intros H%inherited_has_lower.
    now rewrite (join_letters_no_lower l Hl) in H.
  - destruct (find _ opts) as [exact|] eqn:F.
    + intros _. exists exact. apply find_some in F as [Hin _]. now split.
    + intros H%inherited_has_lower. unfold a in H.
      now rewrite toUpperCase_no_lower in H.
Qed.

Lemma inherited_key_is_a_label opts results :
  ordinary_keys opts results = false ->
  exists o, In o opts /\ inherited (label o) = true.
Proof.
  unfold ordinary_keys. induction results as [|r rs IH]; [discriminate|].
  cbn [forallb]. intros H.
  apply andb_false_iff in H as [H|H]; [|now apply IH].
  destruct r as [a c m raw|m e]; [|discriminate]. cbn [vote_key] in H.
  destruct (truthy (normalize (Some a) opts)); [|discriminate].
  apply negb_false_iff in H.
  destruct (normalize_inherited (Some a) opts H) as (o & Hin & Ho).
  exists o. split; [assumption | now rewrite Ho].
Qed.
End KeyFacts.

(* ================================================================== *)
(** * Further properties of the handler and its cache *)
(* ================================================================== *)

Section HandlerFacts.
Variable float_toString : string -> string.
Variable provider : Provider.
Variable clock : Clock.
Variable st : ServerState.
Variable input : PromptInput.

(** An entry that is at most [TTL_MS] old at both readings of the
    clock is served. *)
Lemma ask_cached entry :
  recentAnswers st !! cache_key input = Some entry ->
  (clock 0%nat - ce_ts entry <= TTL_MS)%Z ->
  (clock 1%nat - ce_ts entry <= TTL_MS)%Z ->
  ask float_toString provider clock st input
  = ({| status := 200; body := CachedAnswer (ce_answer entry) 0%Z |},
     vacuumed clock st, []).
Proof.
  intros Hentry H0 H1. rewrite ask_cases.
  assert (Hv : vacuum (clock 0) (recentAnswers st) !! cache_key input
               = Some entry) by (apply vacuum_lookup; split; [assumption|lia]).
  rewrite Hv. apply Z.leb_le in H1. now rewrite H1.
Qed.

(** The two errors a round ends in. *)
Lemma ensemble_error prompt opts imageBase64 e :
  fst (callGeminiEnsemble float_toString provider prompt opts imageBase64)
  = inr e ->
  e = new_Error "All models failed including Judge"
  \/ (e = cannot_read "undefined" "push"
      /\ ordinary_keys opts
           (worker_results float_toString provider prompt imageBase64)
         = false).
Proof.
  rewrite callGeminiEnsemble_decision.
  destruct (ordinary_keys opts
              (worker_results float_toString provider prompt imageBase64))
    eqn:Hkeys.
  2: { rewrite (voteCounts_throws opts _ Hkeys). intros [= <-]. now right. }
  destruct (voteCounts_completes opts _ Hkeys) as [d ->].
  intros H. left. revert H. unfold after_tally.
  assert (Hlast :
    last_resort (worker_results float_toString provider prompt imageBase64)
      (judge_result float_toString provider prompt imageBase64) = inr e ->
    e = new_Error "All models failed including Judge").
  { unfold last_resort.
    destruct (judge_result _ _ _ _) as [a c m raw|m err]; [discriminate|].
    destruct (best_worker _) as [[a c m' raw|m' e']|]; try discriminate;
      now intros [= <-]. }
  destruct (sortedVotes d) as [|top rest]; [exact Hlast|].
  destruct (2 <=? ra_count top); [discriminate | exact Hlast].
Qed.

(** What a round that is started leaves behind. *)
Lemma fresh_answer_outcomes tick :
  let outcome := fresh_answer float_toString provider clock st input tick in
  (exists a c,
     fst (fst outcome)
     = {| status := 200;
          body := FreshAnswer a (clock (S tick) - clock tick)%Z c true |}
     /\ a <> EmptyString /\ (0 <= c <= 100)%Z
     /\ snd (fst outcome)
        = {| recentAnswers :=
               <[ cache_key input :=
                    {| ce_answer := a; ce_ts := clock (S (S tick)) |} ]>
                 (vacuum (clock 0) (recentAnswers st));
             requestCounter := S (requestCounter st) |})
  \/ ((fst (fst outcome)
       = {| status := 400;
            body := ErrorBody "All models failed including Judge" |}
       \/ (fst (fst outcome)
           = {| status := 400;
                body :=
                  ErrorBody
                    "Cannot read properties of undefined (reading 'push')" |}
           /\ exists o, In o (options_of input)
                        /\ inherited (label o) = true))
      /\ snd (fst outcome)
         = {| recentAnswers := vacuum (clock 0) (recentAnswers st);
              requestCounter := S (requestCounter st) |}).
Proof.
  unfold fresh_answer, processRequestDirectly. cbn [ENSEMBLE_MODE].
  destruct (callGeminiEnsemble _ _ _ _ _) as [[voting|err] ev] eqn:E.
  - left. exists (finalAnswer voting), (finalConfidence voting).
    assert (Hv : fst (callGeminiEnsemble float_toString provider
                        (buildPrompt (rawPrompt_of input))
                        (options_of (rawPrompt_of input))
                        (image_of (rawPrompt_of input))) = inl voting)
      by now rewrite E.
    apply ensemble_result_shape in Hv as (Ha & Hc & _).
    cbn. split; [reflexivity|]. split; [assumption|].
    split; [assumption | reflexivity].
  - right.
    assert (Hv : fst (callGeminiEnsemble float_toString provider
                        (buildPrompt (rawPrompt_of input))
                        (options_of (rawPrompt_of input))
                        (image_of (rawPrompt_of input))) = inr err)
      by now rewrite E.
    apply ensemble_error in Hv as [->|[-> Hkeys]].
    + cbn. split; [now left | reflexivity].
    + split; [|reflexivity]. right. split; [reflexivity|].
      apply inherited_key_is_a_label in Hkeys.
      now destruct input.
Qed.
End HandlerFacts.

(** X23. A question whose key has an entry that is at most [TTL_MS] old at
    both readings of the clock (exactly [TTL_MS] included) is answered
    from the cache: status 200, the stored answer, no provider call, the
    request counter unchanged, the cache changed by [vacuum] only. *)
Theorem cache_hit_makes_no_call :
  forall float_toString provider (clock : Clock) st input entry,
    missing_prompt (Some input) = false ->
    recentAnswers st !! cache_key input = Some entry ->
    (clock 0%nat - ce_ts entry <= TTL_MS)%Z ->
    (clock 1%nat - ce_ts entry <= TTL_MS)%Z ->
    handler float_toString provider clock st (ask_request input)
    = ({| status := 200; body := CachedAnswer (ce_answer entry) 0%Z |},
       {| recentAnswers := vacuum (clock 0) (recentAnswers st);
          requestCounter := requestCounter st |},
       []).
Proof.
  intros fts provider clock st input entry Hinput Hentry H0 H1.
  rewrite handler_ask by assumption.
  now apply ask_cached.
Qed.

Lemma cache_hit_example :
  handler as_written dead_round (fun _ => 120000%Z) stale_state
    (ask_request stale_question)
  = ({| status := 200; body := CachedAnswer "C" 0%Z |},
     {| recentAnswers := vacuum 120000 (recentAnswers stale_state);
        requestCounter := 7 |},
     []).
Proof.
  apply (cache_hit_makes_no_call as_written dead_round (fun _ => 120000%Z)
           stale_state stale_question stale_entry).
  - reflexivity.
  - replace (cache_key stale_question) with "What is 2+2?"
      by (vm_compute; reflexivity).
    apply lookup_singleton_eq.
  - vm_compute. discriminate.
  - vm_compute. discriminate.
Defined.

(** X24. A question with a prompt has four outcomes: a cached answer (no
    provider call, the request counter unchanged); a fresh answer, not
    empty, with a confidence between 0 and 100, stored under the key of
    the request, the counter one higher; status 400 with the error
    "All models failed including Judge"; or status 400 with the
    message of the [TypeError] of the tally, and then an option of the
    request is labelled with the name of a member of
    [Object.prototype]. After either error the cache is as [vacuum]
    left it and the counter is one higher. *)
Theorem ask_has_four_outcomes :
  forall float_toString provider (clock : Clock) st input,
    missing_prompt (Some input) = false ->
    let outcome :=
      handler float_toString provider clock st (ask_request input) in
    let response := fst (fst outcome) in
    let after := snd (fst outcome) in
    (exists a,
       response = {| status := 200; body := CachedAnswer a 0%Z |}
       /\ snd outcome = []
       /\ requestCounter after = requestCounter st)
    \/ (exists a ms c ts,
          response = {| status := 200; body := FreshAnswer a ms c true |}
          /\ a <> EmptyString /\ (0 <= c <= 100)%Z
          /\ recentAnswers after !! cache_key input
             = Some {| ce_answer := a; ce_ts := ts |}
          /\ requestCounter after = S (requestCounter st))
    \/ ((response
         = {| status := 400;
              body := ErrorBody "All models failed including Judge" |}
         \/ (response
             = {| status := 400;
                  body :=
                    ErrorBody
                      "Cannot read properties of undefined (reading 'push')" |}
             /\ exists o, In o (options_of input)
                          /\ inherited (label o) = true))
        /\ recentAnswers after = vacuum (clock 0) (recentAnswers st)
        /\ requestCounter after = S (requestCounter st)).
Proof.
  intros fts provider clock st input Hinput outcome response after.
  subst after response outcome.
  rewrite handler_ask by assumption. rewrite ask_cases.
  assert (Hfresh : forall tick,
    let outcome := fresh_answer fts provider clock st input tick in
    (exists a ms c ts,
       fst (fst outcome)
       = {| status := 200; body := FreshAnswer a ms c true |}
       /\ a <> EmptyString /\ (0 <= c <= 100)%Z
       /\ recentAnswers (snd (fst outcome)) !! cache_key input
          = Some {| ce_answer := a; ce_ts := ts |}
       /\ requestCounter (snd (fst outcome)) = S (requestCounter st))
    \/ ((fst (fst outcome)
         = {| status := 400;
              body := ErrorBody "All models failed including Judge" |}
         \/ (fst (fst outcome)
             = {| status := 400;
                  body :=
                    ErrorBody
                      "Cannot read properties of undefined (reading 'push')" |}
             /\ exists o, In o (options_of input)
                          /\ inherited (label o) = true))
        /\ recentAnswers (snd (fst outcome))
           = vacuum (clock 0) (recentAnswers st)
        /\ requestCounter (snd (fst outcome)) = S (requestCounter st))).
  { intros tick.
    destruct (fresh_answer_outcomes fts provider clock st input tick)
      as [(a & c & Hr & Ha & Hc & Hst)|[Hr Hst]]; cbv zeta.
    - left. exists a, (clock (S tick) - clock tick)%Z, c, (clock (S (S tick))).
      rewrite Hr, Hst. cbn [recentAnswers requestCounter].
      rewrite lookup_insert_eq.
      split; [reflexivity|]. split; [assumption|]. split; [assumption|].
      split; reflexivity.
    - right. cbv zeta in Hst. rewrite Hst. split; [exact Hr|].
      split; reflexivity. }
  destruct (vacuum (clock 0) (recentAnswers st) !! cache_key input)
    as [cached|]; [|right; apply Hfresh].
  destruct (clock 1%nat - ce_ts cached <=? TTL_MS)%Z; [|right; apply Hfresh].
  left. exists (ce_answer cached). repeat split.
Qed.

Lemma ask_has_four_outcomes_example :
  let outcome :=
    handler as_written inherited_round late_clock stale_state
      (ask_request (AsObject routing_question)) in
  let response := fst (fst outcome) in
  let after := snd (fst outcome) in
  (exists a,
     response = {| status := 200; body := CachedAnswer a 0%Z |}
     /\ snd outcome = []
     /\ requestCounter after = requestCounter stale_state)
  \/ (exists a ms c ts,
        response = {| status := 200; body := FreshAnswer a ms c true |}
        /\ a <> EmptyString /\ (0 <= c <= 100)%Z
        /\ recentAnswers after !! cache_key (AsObject routing_question)
           = Some {| ce_answer := a; ce_ts := ts |}
        /\ requestCounter after = S (requestCounter stale_state))
  \/ ((response
       = {| status := 400;
            body := ErrorBody "All models failed including Judge" |}
       \/ (response
           = {| status := 400;
                body :=
                  ErrorBody
                    "Cannot read properties of undefined (reading 'push')" |}
           /\ exists o, In o (options_of (AsObject routing_question))
                        /\ inherited (label o) = true))
      /\ recentAnswers after
         = vacuum (late_clock 0%nat) (recentAnswers stale_state)
      /\ requestCounter after = S (requestCounter stale_state)).
Proof.
  apply (ask_has_four_outcomes as_written inherited_round late_clock
           stale_state (AsObject routing_question)).
  reflexivity.
Defined.

(** The request of the example ends in the fourth way. *)
Example routing_question_example :
  fst (fst (handler as_written inherited_round late_clock stale_state
              (ask_request (AsObject routing_question))))
  = {| status := 400;
       body :=
         ErrorBody "Cannot read properties of undefined (reading 'push')" |}.
Proof.
  rewrite handler_ask by reflexivity. rewrite ask_cases.
  replace (vacuum (late_clock 0) (recentAnswers stale_state)
             !! cache_key (AsObject routing_question))
    with (@None CacheEntry).
  2: { symmetry. apply map_lookup_filter_None. left.
       apply lookup_singleton_ne. vm_compute. discriminate. }
  unfold fresh_answer, processRequestDirectly. cbn [ENSEMBLE_MODE].
  assert (Hround :
    fst (callGeminiEnsemble as_written inherited_round
           (buildPrompt (rawPrompt_of (AsObject routing_question)))
           (options_of (rawPrompt_of (AsObject routing_question)))
           (image_of (rawPrompt_of (AsObject routing_question))))
    = inr (cannot_read "undefined" "push"))
    by (vm_compute; reflexivity).
  destruct (callGeminiEnsemble _ _ _ _ _) as [r ev].
  cbn [fst] in Hround. subst r. reflexivity.
Qed.

(* ================================================================== *)
(** * An answer stays in the cache *)
(* ================================================================== *)

Section StoredAnswer.
Variable float_toString : string -> string.
Variables (key : string) (entry : CacheEntry).

(** A request that finds the entry young leaves it where it is. *)
Lemma handler_keeps_entry v st :
  young (ce_ts entry) v ->
  recentAnswers st !! key = Some entry ->
  recentAnswers
    (snd (fst (handler float_toString (v_provider v) (v_clock v) st
                 (v_request v)))) !! key = Some entry.
Proof.
  intros [H0 H1] Hentry. unfold handler.
  repeat match goal with
         | |- context [if ?b then _ else _] => destruct b; [exact Hentry|]
         end.
  destruct (String.eqb (req_method (v_request v)) "POST"
            && String.eqb (req_path (v_request v)) "/ask");
    [|exact Hentry].
  destruct (req_prompt (v_request v)) as [e|[input|]];
    [exact Hentry| |exact Hentry].
  assert (Hask :
    recentAnswers
      (snd (fst (ask float_toString (v_provider v) (v_clock v) st input)))
    !! key = Some entry).
  { assert (Hv : vacuum (v_clock v 0) (recentAnswers st) !! key = Some entry)
      by (apply vacuum_lookup; split; [assumption | lia]).
    assert (Hfresh : forall tick,
      cache_key input <> key ->
      recentAnswers
        (snd (fst (fresh_answer float_toString (v_provider v) (v_clock v) st
                     input tick))) !! key = Some entry).
    { intros tick Hne.
      destruct (fresh_answer_outcomes float_toString (v_provider v)
                  (v_clock v) st input tick)
        as [(a & c & _ & _ & _ & Hst)|[_ Hst]]; cbv zeta in Hst;
        rewrite Hst; cbn [recentAnswers]; [|exact Hv].
      now rewrite lookup_insert_ne. }
    rewrite ask_cases.
    destruct (decide (cache_key input = key)) as [Hk|Hne].
    - rewrite Hk, Hv. apply Z.leb_le in H1. rewrite H1. exact Hv.
    - destruct (vacuum (v_clock v 0) (recentAnswers st) !! cache_key input)
        as [cached|]; [|now apply Hfresh].
      destruct (v_clock v 1%nat - ce_ts cached <=? TTL_MS)%Z;
        [exact Hv | now apply Hfresh]. }
  destruct input as [[|c t]|q]; [exact Hentry | exact Hask..].
Qed.

Lemma serve_keeps_entry visits st :
  Forall (young (ce_ts entry)) visits ->
  recentAnswers st !! key = Some entry ->
  recentAnswers (serve float_toString st visits) !! key = Some entry.
Proof.
  intros Hall. revert st. induction Hall as [|v visits Hv _ IH];
    intros st Hentry; [exact Hentry|].
  cbn [serve fold_left]. apply IH. now apply handler_keeps_entry.
Qed.
End StoredAnswer.

(** X25. After a question was answered afresh with answer [a], the cache
    holds [a] under its key with the time [ts] at which it was stored.
    From then on, requests being handled one after the other, a question
    with the same key is answered with [a] from the cache, without a
    provider call, after any requests in between, as long as the entry
    is at most [TTL_MS] old when each of these requests runs [vacuum]
    and looks its key up. *)
Theorem resolved_answer_is_served_again :
  forall float_toString provider (clock : Clock) st input a ms c e,
    missing_prompt (Some input) = false ->
    fst (fst (handler float_toString provider clock st (ask_request input)))
    = {| status := 200; body := FreshAnswer a ms c e |} ->
    let after :=
      snd (fst (handler float_toString provider clock st
                  (ask_request input))) in
    exists ts,
      recentAnswers after !! cache_key input
      = Some {| ce_answer := a; ce_ts := ts |}
      /\ (ts = clock 3 \/ ts = clock 4)
      /\ forall between later input',
           Forall (young ts) (between ++ [later]) ->
           v_request later = ask_request input' ->
           missing_prompt (Some input') = false ->
           cache_key input' = cache_key input ->
           let before := serve float_toString after between in
           handler float_toString (v_provider later) (v_clock later) before
             (v_request later)
           = ({| status := 200; body := CachedAnswer a 0%Z |},
              vacuumed (v_clock later) before, []).
Proof.
  intros fts provider clock st input a ms c e Hinput Hfirst after.
  assert (Hentry : exists ts,
            recentAnswers after !! cache_key input
            = Some {| ce_answer := a; ce_ts := ts |}
            /\ (ts = clock 3 \/ ts = clock 4)).
  { subst after. revert Hfirst. rewrite handler_ask by assumption.
    rewrite ask_cases.
    assert (Hfresh : forall tick,
      fst (fst (fresh_answer fts provider clock st input tick))
      = {| status := 200; body := FreshAnswer a ms c e |} ->
      recentAnswers (snd (fst (fresh_answer fts provider clock st input
                                 tick))) !! cache_key input
      = Some {| ce_answer := a; ce_ts := clock (S (S tick)) |}).
    { intros tick.
      destruct (fresh_answer_outcomes fts provider clock st input tick)
        as [(a' & c' & Hr & _ & _ & Hst)|[[Hr|[Hr _]] _]]; cbv zeta in *;
        rewrite Hr; try discriminate.
      intros [= <- _ _ _]. rewrite Hst. cbn [recentAnswers].
      now rewrite lookup_insert_eq. }
    destruct (vacuum (clock 0) (recentAnswers st) !! cache_key input)
      as [cached|].
    - destruct (clock 1%nat - ce_ts cached <=? TTL_MS)%Z; [discriminate|].
      intros H. exists (clock 4). split; [now apply Hfresh | now right].
    - intros H. exists (clock 3). split; [now apply Hfresh | now left]. }
  destruct Hentry as (ts & Hentry & Hts).
  exists ts. split; [exact Hentry|]. split; [exact Hts|].
  intros between later input' Hyoung Hreq Hinput' Hkey before.
  apply Forall_app in Hyoung as [Hbetween Hlater].
  apply Forall_cons in Hlater as [[H0 H1] _].
  pose proof (serve_keeps_entry fts (cache_key input)
                {| ce_answer := a; ce_ts := ts |} between after
                Hbetween Hentry) as Hkept.
  fold before in Hkept. rewrite Hreq.
  rewrite handler_ask by assumption.
  rewrite (ask_cached fts (v_provider later) (v_clock later) before input'
             {| ce_answer := a; ce_ts := ts |});
    [reflexivity | now rewrite Hkey | exact H0 | exact H1].
Qed.

Lemma resolved_answer_example :
  let after :=
    snd (fst (handler as_written majority_round early_clock empty_state
                (ask_request (AsObject port_question)))) in
  let before := serve as_written after [other_visit; health_visit] in
  handler as_written dead_round minute_clock before
    (ask_request (AsObject port_question_again))
  = ({| status := 200; body := CachedAnswer "A" 0%Z |},
     vacuumed minute_clock before, []).
Proof.
  intros after before.
  destruct (resolved_answer_is_served_again as_written majority_round
              early_clock empty_state (AsObject port_question) "A" 0%Z 85%Z
              true)
    as (ts & _ & Hts & Hlater).
  - reflexivity.
  - rewrite handler_ask by reflexivity. rewrite ask_cases.
    replace (vacuum (early_clock 0) (recentAnswers empty_state)
               !! cache_key (AsObject port_question))
      with (@None CacheEntry)
      by (symmetry; apply map_lookup_filter_None; left; apply lookup_empty).
    unfold fresh_answer, processRequestDirectly. cbn [ENSEMBLE_MODE].
    assert (Hround :
      fst (callGeminiEnsemble as_written majority_round
             (buildPrompt (rawPrompt_of (AsObject port_question)))
             (options_of (rawPrompt_of (AsObject port_question)))
             (image_of (rawPrompt_of (AsObject port_question))))
      = inl (plain_result "A" 85 "majority"))
      by (vm_compute; reflexivity).
    destruct (callGeminiEnsemble _ _ _ _ _) as [r ev].
    cbn [fst] in Hround. subst r. reflexivity.
  - apply (Hlater [other_visit; health_visit] again_visit
             (AsObject port_question_again)).
    + assert (Hclock : ts = 1000%Z) by (destruct Hts as [->| ->]; reflexivity).
      subst ts.
      repeat constructor; vm_compute; discriminate.
    + reflexivity.
    + reflexivity.
    + reflexivity.
Defined.

(* ================================================================== *)
(** * Requests that do not reach the models *)
(* ================================================================== *)

(** X26. A request that is not a question with a prompt (another method or
    path, a body that cannot be read, a missing or empty prompt) leaves
    the state as it was, [vacuum] included, makes no provider call and
    is not answered with an answer. *)
Theorem other_requests_leave_the_server_alone :
  forall float_toString provider clock st req,
    (req_method req <> "POST" \/ req_path req <> "/ask"
     \/ (exists e, req_prompt req = inl e)
     \/ (exists input, req_prompt req = inr input
                       /\ missing_prompt input = true)) ->
    let outcome := handler float_toString provider clock st req in
    snd (fst outcome) = st /\ snd outcome = []
    /\ (forall a ms, body (fst (fst outcome)) <> CachedAnswer a ms)
    /\ (forall a ms c e, body (fst (fst outcome)) <> FreshAnswer a ms c e).
Proof.
  intros fts provider clock st req Hreq outcome. subst outcome.
  unfold handler.
  destruct (String.eqb (req_method req) "OPTIONS");
    [repeat split; discriminate|].
  destruct (String.eqb (req_method req) "GET"
            && (String.eqb (req_path req) "/health"
                || String.eqb (req_path req) "/"));
    [repeat split; discriminate|].
  destruct (String.eqb (req_method req) "POST") eqn:Em;
    [|repeat split; discriminate].
  destruct (String.eqb (req_path req) "/ask") eqn:Ep;
    [|repeat split; discriminate].
  apply String.eqb_eq in Em, Ep. cbn [andb].
  destruct Hreq as [H|[H|[[e H]|(input & H & Hmissing)]]];
    [congruence | congruence | |]; rewrite H.
  - repeat split; discriminate.
  - destruct input as [[[|c t]|q]|]; try discriminate;
      repeat split; discriminate.
Qed.

Lemma other_requests_example :
  snd (fst (handler as_written majority_round late_clock stale_state
              {| req_method := "GET"; req_path := "/health";
                 req_prompt := inr None |})) = stale_state
  /\ snd (handler as_written majority_round late_clock stale_state
            {| req_method := "GET"; req_path := "/health";
               req_prompt := inr None |}) = []
  /\ (forall a ms,
        body (fst (fst (handler as_written majority_round late_clock
                          stale_state
                          {| req_method := "GET"; req_path := "/health";
                             req_prompt := inr None |})))
        <> CachedAnswer a ms)
  /\ (forall a ms c e,
        body (fst (fst (handler as_written majority_round late_clock
                          stale_state
                          {| req_method := "GET"; req_path := "/health";
                             req_prompt := inr None |})))
        <> FreshAnswer a ms c e).
Proof.
  apply (other_requests_leave_the_server_alone as_written majority_round
           late_clock stale_state
           {| req_method := "GET"; req_path := "/health";
              req_prompt := inr None |}).
  left. discriminate.
Defined.

(* ================================================================== *)
(** * Further properties of the prompt builder *)
(* ================================================================== *)

Section PromptFacts.

Lemma prefix_append (p rest : string) : String.prefix p (p +:+ rest) = true.
Proof.
  induction p as [|c p IH]; [now destruct rest|].
  rewrite append_cons. simpl. destruct (ascii_dec c c); [exact IH|congruence].
Qed.

Lemma includes_eq (s sub : string) :
  includes s sub
  = String.prefix sub s
    || match s with
       | EmptyString => false
       | String _ t => includes t sub
       end.
Proof. destruct s; reflexivity. Qed.

Lemma includes_here (sub rest : string) : includes (sub +:+ rest) sub = true.
Proof. now rewrite includes_eq, prefix_append. Qed.

Lemma includes_after (a b sub : string) :
  includes b sub = true -> includes (a +:+ b) sub = true.
Proof.
  intros H. induction a as [|c a IH]; [now rewrite append_nil_l|].
  rewrite append_cons. cbn [includes]. rewrite IH. apply orb_true_r.
Qed.

Lemma prefix_weaken (sub a b : string) :
  String.prefix sub a = true -> String.prefix sub (a +:+ b) = true.
Proof.
  revert a. induction sub as [|x sub IH]; intros a H;
    [now destruct (a +:+ b)|].
  destruct a as [|c a]; [discriminate|].
  rewrite append_cons. simpl in *.
  destruct (ascii_dec x c); [now apply IH | discriminate].
Qed.

Lemma includes_before (a b sub : string) :
  includes a sub = true -> includes (a +:+ b) sub = true.
Proof.
  induction a as [|c a IH]; intros H.
  - rewrite includes_eq in H. rewrite orb_false_r in H.
    rewrite includes_eq. now rewrite (prefix_weaken _ _ b H).
  - rewrite includes_eq in H. rewrite append_cons, includes_eq.
    apply orb_true_iff in H as [H|H]; apply orb_true_iff.
    + left. now apply (prefix_weaken sub (String c a) b).
    + right. now apply IH.
Qed.

Lemma includes_option_line o os :
  In o os -> includes (Js.concat (map option_line os)) (option_line o) = true.
Proof.
  induction os as [|x os IH]; [intros []|].
  intros [->|Hin]; cbn [map Js.concat].
  - apply includes_here.
  - apply includes_after. now apply IH.
Qed.

(** X3. For a structured question the prompt contains the line
    "Question: ..." with the question and, for every option, the line
    "label. text". Without options (missing or empty) the prompt is the
    preamble, the question line, the output format and the image note:
    there is no options block and no type line, whatever the type is. *)
Theorem object_prompt_contains_question_and_options :
  forall input,
    includes (buildPrompt (AsObject input))
             ("Question: " +:+ question input +:+ LF) = true
    /\ (forall o,
          In o (default [] (options input)) ->
          includes (buildPrompt (AsObject input))
                   (label o +:+ ". " +:+ text o +:+ LF) = true)
    /\ (options input = None \/ options input = Some [] ->
        buildPrompt (AsObject input)
        = object_preamble +:+ "Question: " +:+ question input +:+ LF
          +:+ output_format +:+ image_note input).
Proof.
  intros input. unfold buildPrompt. split; [|split].
  - apply includes_after.
    set (rest := options_block input +:+ output_format +:+ image_note input).
    replace ("Question: " +:+ question input +:+ LF +:+ rest)
      with (("Question: " +:+ question input +:+ LF) +:+ rest)
      by (now rewrite !append_assoc).
    apply includes_here.
  - intros o Ho. do 4 apply includes_after. apply includes_before.
    unfold options_block. destruct (options input) as [[|x os]|];
      try (now destruct Ho).
    apply includes_after, includes_after, includes_before.
    now apply includes_option_line.
  - intros [H|H]; unfold options_block; rewrite H; now rewrite append_nil_l.
Qed.
End PromptFacts.

(* ================================================================== *)
(** * Properties of the prompt normalization *)
(* ================================================================== *)

Section StarFacts.
Context {R : Type}.
Implicit Types (k : bool -> string -> captures -> option R).

(** A greedy star over a character set fails when what follows fails
    at every position the star can reach. *)
Lemma greedy_star_fails cs (P : string -> Prop) k fuel bol s caps :
  (forall b t, P t -> k b t caps = None) ->
  (forall c t, cset_mem cs c = true -> P (String c t) -> P t) ->
  P s ->
  star_loop (run false (Set_ cs)) true k fuel bol s caps = None.
Proof.
  intros Hk Hstep. revert bol s.
  induction fuel as [|fuel IH]; intros bol s Hs; [now apply Hk|].
  cbn [star_loop run]. rewrite (Hk bol s Hs).
  destruct s as [|c t]; [reflexivity|].
  unfold cset_match. destruct (cset_mem cs c) eqn:Ec; [|reflexivity].
  cbn [String.length].
  replace (String.length t <? S (String.length t)) with true
    by (symmetry; apply Nat.ltb_lt; lia).
  rewrite IH; [reflexivity|]. now apply (Hstep c t).
Qed.

(** A greedy star over a character set, in front of something that
    matches, takes every character of the set. *)
Lemma greedy_star_takes cs w rest fuel bol caps k x :
  (forall c, has_char c w = true -> cset_mem cs c = true) ->
  match rest with
  | String y _ => cset_mem cs y = false
  | EmptyString => True
  end ->
  String.length w <= fuel ->
  (forall b, k b rest caps = Some x) ->
  star_loop (run false (Set_ cs)) true k fuel bol (w +:+ rest) caps = Some x.
Proof.
  intros Hw Hrest Hfuel Hk. revert fuel bol Hfuel.
  induction w as [|c w IH]; intros fuel bol Hfuel.
  - rewrite append_nil_l. destruct fuel as [|fuel]; [apply Hk|].
    cbn [star_loop run]. destruct rest as [|y t]; [apply Hk|].
    unfold cset_match. rewrite Hrest. apply Hk.
  - destruct fuel as [|fuel]; [simpl in Hfuel; lia|].
    assert (Hc : cset_mem cs c = true)
      by (apply Hw; cbn [has_char]; now rewrite Ascii.eqb_refl).
    rewrite append_cons. cbn [star_loop run]. unfold cset_match. rewrite Hc.
    cbn [String.length].
    replace (String.length (w +:+ rest) <? S (String.length (w +:+ rest)))
      with true by (symmetry; apply Nat.ltb_lt; lia).
    rewrite IH; [reflexivity | | simpl in Hfuel; lia].
    intros z Hz. apply Hw. cbn [has_char]. rewrite Hz. apply orb_true_r.
Qed.
End StarFacts.

Section ScanFacts.

(** Where the pattern matches nowhere, a replacement changes nothing. *)
Lemma scan_no_match icase r by_ (P : string -> Prop) fuel bol s :
  (forall b t, P t -> match_here icase r b t = None) ->
  (forall c t, P (String c t) -> P t) ->
  P s -> String.length s < fuel ->
  Js.concat (map (fun p => match p with
                           | Matched _ => by_
                           | Kept c => String c EmptyString
                           end) (scan icase r fuel bol s)) = s.
Proof.
  intros Hnone Hstep. revert fuel bol.
  induction s as [|c t IH]; intros fuel bol Hs Hfuel.
  - destruct fuel; [lia|]. cbn [scan]. now rewrite (Hnone bol _ Hs).
  - destruct fuel; [lia|]. cbn [scan]. rewrite (Hnone bol _ Hs).
    cbn [map Js.concat]. rewrite IH; [reflexivity| |simpl in Hfuel; lia].
    now apply (Hstep c t).
Qed.

Lemma replace_all_no_match icase r by_ (P : string -> Prop) s :
  (forall b t, P t -> match_here icase r b t = None) ->
  (forall c t, P (String c t) -> P t) ->
  P s -> replace_all icase r by_ s = s.
Proof.
  intros Hnone Hstep Hs. unfold replace_all, pieces.
  apply (scan_no_match icase r by_ P); [assumption..|lia].
Qed.
End ScanFacts.

Section OneLine.

Let no_line_feed (s : string) : Prop := has_char line_feed s = false.

Lemma no_line_feed_tail c t : no_line_feed (String c t) -> no_line_feed t.
Proof.
  unfold no_line_feed. cbn [has_char]. intros H.
  now apply orb_false_elim in H as [_ H].
Qed.

Lemma line_feed_not_here {R : Type} bol s caps
    (k : bool -> string -> captures -> option R) :
  no_line_feed s -> run false (Lit LF) bol s caps k = None.
Proof.
  unfold no_line_feed. intros Hs. change (Lit LF) with (Set_ (CChar line_feed)).
  cbn [run]. destruct s as [|c t]; [reflexivity|].
  cbn [has_char] in Hs. apply orb_false_elim in Hs as [Hc _].
  unfold cset_match. cbn [cset_mem]. now rewrite Ascii.eqb_sym, Hc.
Qed.

Lemma space_before_newline_nowhere s :
  no_line_feed s ->
  replace_all false re_space_before_newline LF s = s.
Proof.
  apply (replace_all_no_match _ _ _ no_line_feed);
    [|apply no_line_feed_tail].
  intros b t Ht. unfold match_here, re_space_before_newline, Plus.
  cbn [run]. destruct t as [|c t]; [reflexivity|].
  destruct (cset_match false CSpace c); [|reflexivity].
  apply (greedy_star_fails CSpace no_line_feed).
  - intros b' t' Ht'. now apply line_feed_not_here.
  - intros c' t' _. apply no_line_feed_tail.
  - now apply (no_line_feed_tail c).
Qed.

Lemma space_after_newline_nowhere s :
  no_line_feed s ->
  replace_all false re_space_after_newline LF s = s.
Proof.
  apply (replace_all_no_match _ _ _ no_line_feed);
    [|apply no_line_feed_tail].
  intros b t Ht. unfold match_here, re_space_after_newline.
  cbn [run]. now apply line_feed_not_here.
Qed.
End OneLine.

Section Blanks.

Let blank_set : cset := CUnion (CChar " ") (CChar (ascii_of_nat 9)).

Lemma span_blanks_spec s :
  let (w, r) := span_blanks s in
  s = w +:+ r
  /\ (forall c, has_char c w = true -> cset_mem blank_set c = true)
  /\ match r with
     | String y _ => cset_mem blank_set y = false
     | EmptyString => True
     end.
Proof.
  induction s as [|c t IH]; [repeat split; discriminate|].
  cbn [span_blanks]. destruct (is_blank c) eqn:Ec.
  - destruct (span_blanks t) as [w r]. destruct IH as (-> & Hw & Hr).
    repeat split; [|assumption].
    intros z. cbn [has_char]. intros Hz.
    apply orb_true_iff in Hz as [Hz|Hz]; [|now apply Hw].
    apply Ascii.eqb_eq in Hz. now subst z.
  - repeat split; [discriminate | exact Ec].
Qed.

Lemma collapse_blanks_eq c t :
  collapse_blanks (String c t)
  = if is_blank c then
      match t with
      | String c' _ =>
          if is_blank c' then collapse_blanks t
          else String " " (collapse_blanks t)
      | EmptyString => " "
      end
    else String c (collapse_blanks t).
Proof. reflexivity. Qed.

Lemma collapse_blanks_run c t :
  is_blank c = true ->
  collapse_blanks (String c t)
  = String " " (collapse_blanks (snd (span_blanks t))).
Proof.
  revert c. induction t as [|c' t IH]; intros c Hc.
  - rewrite collapse_blanks_eq, Hc. reflexivity.
  - rewrite collapse_blanks_eq, Hc. cbn [span_blanks].
    destruct (is_blank c') eqn:Ec'.
    + rewrite (IH c' Ec'). destruct (span_blanks t) as [w r]. reflexivity.
    + reflexivity.
Qed.

Lemma span_blanks_length s :
  String.length (snd (span_blanks s)) <= String.length s.
Proof.
  induction s as [|c t IH]; [simpl; lia|].
  cbn [span_blanks]. destruct (is_blank c); [|simpl; lia].
  destruct (span_blanks t) as [w r]. simpl in *. lia.
Qed.

Lemma blanks_here bol c t :
  match_here false re_blanks bol (String c t)
  = if is_blank c
    then Some (String c (fst (span_blanks t)), snd (span_blanks t), [])
    else None.
Proof.
  unfold match_here, re_blanks, Plus. fold blank_set. cbn [run].
  unfold cset_match at 1. change (cset_mem blank_set c) with (is_blank c).
  destruct (is_blank c) eqn:Ec; [|reflexivity].
  pose proof (span_blanks_spec t) as Hspan.
  destruct (span_blanks t) as [w r]. destruct Hspan as (-> & Hw & Hr).
  cbn [fst snd].
  apply (greedy_star_takes blank_set w r); [assumption..| |].
  - rewrite length_append. lia.
  - intros b. do 3 f_equal. cbn [String.length].
    rewrite length_append.
    replace (S (String.length w + String.length r) - String.length r)
      with (String.length (String c w)) by (simpl; lia).
    rewrite <- append_cons. apply take_append.
Qed.

Lemma scan_blanks fuel bol s :
  String.length s < fuel ->
  Js.concat (map (fun p => match p with
                           | Matched _ => " "
                           | Kept c => String c EmptyString
                           end) (scan false re_blanks fuel bol s))
  = collapse_blanks s.
Proof.
  revert bol s. induction fuel as [|fuel IH]; intros bol s Hfuel; [lia|].
  destruct s as [|c t]; [reflexivity|].
  cbn [scan]. rewrite blanks_here.
  destruct (is_blank c) eqn:Ec.
  - cbn [map Js.concat]. rewrite IH.
    + rewrite (collapse_blanks_run c t Ec). reflexivity.
    + pose proof (span_blanks_length t). simpl in Hfuel. lia.
  - cbn [map Js.concat]. rewrite IH by (simpl in Hfuel; lia).
    now rewrite collapse_blanks_eq, Ec.
Qed.

Lemma replace_blanks s :
  replace_all false re_blanks " " s = collapse_blanks s.
Proof. unfold replace_all, pieces. apply scan_blanks. lia. Qed.
End Blanks.

Section TrailingDots.

Lemma drop_trailing_dots_only s :
  only_dots s = true -> drop_trailing_dots s = EmptyString.
Proof.
  induction s as [|c t IH]; [reflexivity|].
  cbn [only_dots drop_trailing_dots]. intros H.
  apply andb_prop in H as [Hc Ht]. now rewrite (IH Ht), Hc.
Qed.

Lemma drop_trailing_dots_other s :
  only_dots s = false -> drop_trailing_dots s <> EmptyString.
Proof.
  induction s as [|c t IH]; [discriminate|].
  cbn [only_dots drop_trailing_dots]. intros H.
  destruct (drop_trailing_dots t) eqn:E; [|discriminate].
  destruct (Ascii.eqb "." c); [|discriminate].
  cbn [andb] in H. now apply IH in H.
Qed.

Lemma drop_trailing_dots_cons c t :
  only_dots (String c t) = false ->
  drop_trailing_dots (String c t) = String c (drop_trailing_dots t).
Proof.
  intros H. cbn [drop_trailing_dots].
  destruct (drop_trailing_dots t) eqn:E; [|reflexivity].
  cbn [only_dots] in H. destruct (Ascii.eqb "." c); [|reflexivity].
  cbn [andb] in H. now apply drop_trailing_dots_other in H.
Qed.

Lemma trailing_dots_here bol s :
  match_here false re_trailing_dots bol s
  = match s with
    | String _ _ => if only_dots s then Some (s, EmptyString, []) else None
    | EmptyString => None
    end.
Proof.
  unfold match_here, re_trailing_dots, Plus. cbn [run].
  destruct s as [|c t]; [reflexivity|].
  unfold cset_match at 1. cbn [cset_mem only_dots].
  destruct (Ascii.eqb "." c) eqn:Ec; [|reflexivity]. cbn [andb].
  destruct (only_dots t) eqn:Et.
  - rewrite <- (append_nil_r t) at 2.
    apply (greedy_star_takes (CChar ".") t EmptyString); [|exact I|lia|].
    + clear Ec. induction t as [|x t IH]; [discriminate|].
      cbn [only_dots] in Et. apply andb_prop in Et as [Hx Ht].
      intros z. cbn [has_char cset_mem]. intros Hz.
      apply orb_true_iff in Hz as [Hz|Hz]; [|now apply IH].
      apply Ascii.eqb_eq in Hz. now subst z.
    + intros b. cbn [run String.length]. do 3 f_equal.
      replace (S (String.length t) - 0) with (String.length (String c t))
        by (simpl; lia).
      rewrite <- (append_nil_r (String c t)) at 2. apply take_append.
  - apply (greedy_star_fails (CChar ".") (fun u => only_dots u = false)).
    + intros b u Hu. cbn [run]. destruct u; [discriminate | reflexivity].
    + intros x u Hx Hu. cbn [cset_mem only_dots] in *.
      now rewrite Hx in Hu.
    + exact Et.
Qed.

Lemma scan_trailing_dots fuel bol s :
  String.length s < fuel ->
  Js.concat (map (fun p => match p with
                           | Matched _ => EmptyString
                           | Kept c => String c EmptyString
                           end) (scan false re_trailing_dots fuel bol s))
  = drop_trailing_dots s.
Proof.
  revert fuel bol. induction s as [|c t IH]; intros fuel bol Hfuel.
  - destruct fuel; [lia|]. reflexivity.
  - destruct fuel; [lia|]. cbn [scan]. rewrite trailing_dots_here.
    destruct (only_dots (String c t)) eqn:E.
    + rewrite (drop_trailing_dots_only _ E).
      destruct fuel; reflexivity.
    + cbn [map Js.concat]. rewrite IH by (simpl in Hfuel; lia).
      now rewrite (drop_trailing_dots_cons c t E).
Qed.

Lemma replace_trailing_dots s :
  replace_all false re_trailing_dots EmptyString s = drop_trailing_dots s.
Proof. unfold replace_all, pieces. apply scan_trailing_dots. lia. Qed.
End TrailingDots.

(** X1. On a prompt without line feeds, [normalizePrompt] replaces every
    run of spaces and tabs by one space, then removes the dots the text
    ends with, then trims. The dots go before the trim does: dots that
    are followed by trailing white space stay. *)
Theorem normalizePrompt_on_one_line :
  forall s,
    has_char line_feed s = false ->
    normalizePrompt s = trim (drop_trailing_dots (collapse_blanks s)).
Proof.
  intros s Hs. unfold normalizePrompt.
  rewrite (space_before_newline_nowhere s Hs).
  rewrite (space_after_newline_nowhere s Hs).
  now rewrite replace_blanks, replace_trailing_dots.
Qed.

Lemma normalizePrompt_example :
  normalizePrompt "  What   is RouterOS?... "
  = trim (drop_trailing_dots (collapse_blanks "  What   is RouterOS?... "))
  /\ trim (drop_trailing_dots (collapse_blanks "  What   is RouterOS?... "))
     = "What is RouterOS?...".
Proof.
  split.
  - apply (normalizePrompt_on_one_line "  What   is RouterOS?... ").
    reflexivity.
  - vm_compute. reflexivity.
Defined.

(* ================================================================== *)
(** * The consensus of the confidence-weighted vote *)
(* ================================================================== *)

Section ConsensusFacts.

Lemma trimStart_no_lower s :
  has_lower_case s = false -> has_lower_case (trimStart s) = false.
Proof.
  induction s as [|c s IH]; [reflexivity|].
  cbn [trimStart]. destruct (is_space c); [|easy].
  cbn [has_lower_case]. intros [_ H]%orb_false_iff. now apply IH.
Qed.

Lemma trimEnd_no_lower s :
  has_lower_case s = false -> has_lower_case (trimEnd s) = false.
Proof.
  induction s as [|c s IH]; [reflexivity|].
  cbn [has_lower_case trimEnd]. intros [Hc Hs]%orb_false_iff.
  specialize (IH Hs). destruct (trimEnd s) as [|x t].
  - destruct (is_space c); [reflexivity|].
    cbn [has_lower_case]. now rewrite Hc.
  - cbn [has_lower_case] in *. now rewrite Hc, IH.
Qed.

(** The keys of [answerCounts] are in upper case: none is the name of a
    member of [Object.prototype], and every lookup is one of the
    object's own properties. *)
Lemma answer_key_is_ordinary r : inherited (answer_key r) = false.
Proof.
  destruct (inherited (answer_key r)) eqn:E; [|reflexivity].
  apply inherited_has_lower in E. unfold answer_key, trim in E.
  rewrite trimEnd_no_lower in E; [discriminate|].
  apply trimStart_no_lower, toUpperCase_no_lower.
Qed.

Lemma answerCounts_snoc rs r :
  answerCounts (rs ++ [r])
  = upsert (answer_key r) no_votes
      (add_vote (mr_confidence r) (mr_model r)) (answerCounts rs).
Proof. unfold answerCounts. now rewrite fold_left_app. Qed.

Lemma backers_snoc key rs r :
  backers key (rs ++ [r])
  = backers key rs ++ (if decide (answer_key r = key) then [r] else []).
Proof. unfold backers. now rewrite filter_app. Qed.

Lemma backing_sum_snoc l r :
  backing_sum (l ++ [r]) = (backing_sum l + mr_confidence r)%Z.
Proof.
  unfold backing_sum. induction l as [|x l IH]; simpl; [lia|].
  rewrite IH. lia.
Qed.

Lemma backing_snoc l r :
  add_vote (mr_confidence r) (mr_model r) (backing l) = backing (l ++ [r]).
Proof.
  unfold add_vote, backing. cbn [vc_count vc_totalConfidence vc_models].
  rewrite length_app, map_app, backing_sum_snoc. cbn [length map].
  f_equal. lia.
Qed.

Lemma answerCounts_lookup rs key :
  lookup_key key (answerCounts rs)
  = match backers key rs with
    | [] => None
    | l => Some (backing l)
    end.
Proof.
  induction rs as [|r rs IH] using rev_ind; [reflexivity|].
  rewrite answerCounts_snoc, backers_snoc, lookup_key_upsert.
  destruct (String.eqb (answer_key r) key) eqn:E.
  - apply String.eqb_eq in E. rewrite decide_True by assumption.
    rewrite IH. destruct (backers key rs) as [|x l].
    + change (default no_votes None) with (backing []).
      now rewrite backing_snoc.
    + change (default no_votes (Some (backing (x :: l))))
        with (backing (x :: l)).
      now rewrite backing_snoc.
  - apply String.eqb_neq in E. rewrite decide_False by assumption.
    now rewrite app_nil_r.
Qed.

Lemma answerCounts_NoDup rs : NoDup (map fst (answerCounts rs)).
Proof.
  induction rs as [|r rs IH] using rev_ind; [constructor|].
  rewrite answerCounts_snoc. now apply upsert_NoDup.
Qed.

(** An answer that two results give puts an answer of largest count at
    the head of the ranking. *)
Lemma consensus_top rs key :
  2 <= length (backers key rs) ->
  exists winner rest,
    sort_ranked (answerCounts rs)
    = rank (winner, backing (backers winner rs)) :: rest
    /\ forall k, length (backers k rs) <= length (backers winner rs).
Proof.
  intros Hkey. unfold sort_ranked. set (d := answerCounts rs).
  assert (Hentry : forall k,
            backers k rs <> [] ->
            In (rank (k, backing (backers k rs))) (map rank (entries d))).
  { intros k Hk. apply in_map.
    apply (Permutation_in _ (Permutation_sym (entries_perm d))).
    apply In_lookup_key. unfold d. rewrite answerCounts_lookup.
    destruct (backers k rs); [congruence | reflexivity]. }
  destruct (sort ranked_before (map rank (entries d))) as [|h t] eqn:Es.
  { assert (Hin : In (rank (key, backing (backers key rs)))
                     (sort ranked_before (map rank (entries d)))).
    { apply sort_In, Hentry. intros E. rewrite E in Hkey. simpl in Hkey. lia. }
    rewrite Es in Hin. destruct Hin. }
  assert (Hh : In h (map rank d)).
  { assert (H : In h (sort ranked_before (map rank (entries d))))
      by (rewrite Es; now left).
    apply sort_In in H. apply in_map_iff in H as (e & <- & He).
    apply in_map. exact (Permutation_in _ (entries_perm d) He). }
  apply in_map_iff in Hh as ([winner v] & <- & Hkv).
  apply lookup_key_In in Hkv; [|apply answerCounts_NoDup].
  unfold d in Hkv. rewrite answerCounts_lookup in Hkv.
  destruct (backers winner rs) as [|x l] eqn:Ew; [discriminate|].
  injection Hkv as <-. exists winner, t. rewrite Ew. split; [reflexivity|].
  intros k. destruct (backers k rs) as [|y l'] eqn:Ek; [simpl; lia|].
  pose proof (sort_head_max ranked_before ra_count ranked_before_count
                _ _ t Es _ (Hentry k ltac:(congruence))) as Hmax.
  rewrite Ek in Hmax. exact Hmax.
Qed.

Lemma reliableResults_filter l :
  reliableResults (filter (fun r => success r = true) l) = reliableResults l.
Proof.
  unfold reliableResults. induction l as [|r l IH]; [reflexivity|].
  destruct r as [a c m raw|m e].
  - rewrite filter_cons_True by reflexivity. cbn [omap list_omap].
    destruct (mark (Success a c m raw)); now rewrite IH.
  - rewrite filter_cons_False by discriminate. exact IH.
Qed.

Lemma reliableResults_length l :
  length (reliableResults l) <= length l.
Proof.
  unfold reliableResults. induction l as [|r l IH]; [reflexivity|].
  cbn [omap list_omap]. destruct (mark r); simpl; lia.
Qed.

Lemma backers_length key rs : length (backers key rs) <= length rs.
Proof. unfold backers. apply length_filter. Qed.
End ConsensusFacts.

(** X17. When two successful results or more have the same answer once it
    is put in upper case and trimmed, [_confidenceWeightedVote] decides
    by consensus: the final answer is such an answer of largest count,
    and the final confidence is the rounded mean of the confidences of
    its results, with the cap of step 1 applied. *)
Theorem weighted_vote_consensus :
  forall modelResults key,
    2 <= length (backers key (reliableResults modelResults)) ->
    exists winner,
      _confidenceWeightedVote modelResults
      = inl {| finalAnswer := winner;
               finalConfidence :=
                 round_div
                   (backing_sum (backers winner (reliableResults modelResults)))
                   (length (backers winner (reliableResults modelResults)));
               votes :=
                 Some (map summary
                         (sort_ranked
                            (answerCounts (reliableResults modelResults))));
               modelAnswers :=
                 Some (map (fun r =>
                              {| ma_model :=
                                   mr_model r +:+
                                   (if mr_unreliable r then " ⚠️"
                                    else EmptyString);
                                 ma_answer := mr_answer r;
                                 ma_confidence := mr_confidence r |})
                           (reliableResults modelResults));
               method := "consensus" |}
      /\ 2 <= length (backers winner (reliableResults modelResults))
      /\ forall k,
           length (backers k (reliableResults modelResults))
           <= length (backers winner (reliableResults modelResults)).
Proof.
  intros modelResults key Hkey.
  destruct (consensus_top _ key Hkey) as (winner & rest & Htop & Hmax).
  exists winner. split; [|split; [specialize (Hmax key); lia | exact Hmax]].
  unfold _confidenceWeightedVote.
  pose proof (reliableResults_filter modelResults) as Hrel.
  pose proof (reliableResults_length
                (filter (fun r => success r = true) modelResults)) as Hlen.
  rewrite Hrel in Hlen.
  pose proof (backers_length key (reliableResults modelResults)) as Hb.
  destruct (filter (fun r => success r = true) modelResults)
    as [|x [|y l]] eqn:E; [simpl in Hlen; lia | simpl in Hlen; lia |].
  destruct x as [a c m raw|m e].
  - cbv zeta. rewrite Hrel, Htop.
    cbn [rank ra_count ra_answer ra_avgConfidence fst snd backing
         vc_count vc_totalConfidence].
    replace (2 <=? length (backers winner (reliableResults modelResults)))
      with true
      by (symmetry; apply Nat.leb_le; specialize (Hmax key); lia).
    reflexivity.
  - cbv zeta. rewrite Hrel, Htop.
    cbn [rank ra_count ra_answer ra_avgConfidence fst snd backing
         vc_count vc_totalConfidence].
    replace (2 <=? length (backers winner (reliableResults modelResults)))
      with true
      by (symmetry; apply Nat.leb_le; specialize (Hmax key); lia).
    reflexivity.
Qed.

Lemma weighted_vote_consensus_example :
  exists winner,
    _confidenceWeightedVote two_for_B
    = inl {| finalAnswer := winner;
             finalConfidence :=
               round_div
                 (backing_sum (backers winner (reliableResults two_for_B)))
                 (length (backers winner (reliableResults two_for_B)));
             votes :=
               Some (map summary
                       (sort_ranked (answerCounts (reliableResults two_for_B))));
             modelAnswers :=
               Some (map (fun r =>
                            {| ma_model :=
                                 mr_model r +:+
                                 (if mr_unreliable r then " ⚠️"
                                  else EmptyString);
                               ma_answer := mr_answer r;
                               ma_confidence := mr_confidence r |})
                         (reliableResults two_for_B));
             method := "consensus" |}
    /\ 2 <= length (backers winner (reliableResults two_for_B))
    /\ forall k,
         length (backers k (reliableResults two_for_B))
         <= length (backers winner (reliableResults two_for_B)).
Proof.
  apply (weighted_vote_consensus two_for_B "B").
  vm_compute. lia.
Defined.

Example weighted_vote_consensus_value :
  match _confidenceWeightedVote two_for_B with
  | inl voting =>
      finalAnswer voting = "B" /\ finalConfidence voting = 75%Z
      /\ method voting = "consensus"
  | inr _ => False
  end.
Proof. vm_compute. repeat split. Qed.

(* ================================================================== *)
(** * The keys of the ensemble tally *)
(* ================================================================== *)

(** X18. The local function [normalize] returns the empty string, the word
    true, the word false, or the letters from A to F of the answer, each
    once and in alphabetical order; and when the answer in upper case
    has none of these letters, the label of the first option whose text
    is the answer up to case, or else the trimmed answer in upper
    case. *)
Theorem vote_keys_have_a_fixed_shape :
  forall ans opts,
    normalize ans opts = EmptyString
    \/ normalize ans opts = "true"
    \/ normalize ans opts = "false"
    \/ (exists l,
          l <> [] /\ normalize ans opts = join ", " l
          /\ forallb answer_letter l = true /\ increasing l = true)
    \/ (exists a,
          ans = Some a
          /\ match_all false re_letter (toUpperCase (trim a)) = None
          /\ ((exists o,
                 In o opts /\ normalize ans opts = label o
                 /\ toLowerCase (trim (text o))
                    = toLowerCase (toUpperCase (trim a)))
              \/ normalize ans opts = toUpperCase (trim a))).
Proof.
  intros [[|c t]|] opts; [now left | | now left].
  unfold normalize. set (a := toUpperCase (trim (String c t))).
  destruct (test true re_TRUE a); [right; now left|].
  destruct (test true re_FALSE a); [right; right; now left|].
  match goal with
  | |- context [match ?tf with Some w => w | None => _ end] =>
      assert (Htf : tf = None \/ tf = Some "true" \/ tf = Some "false");
      [|destruct tf as [w|] eqn:Etf]
  end.
  { destruct (Nat.eqb (length opts) 2); [|now left].
    destruct (_ || _); [|now left].
    repeat match goal with
           | |- context [if ?b then _ else _] => destruct b
           end; tauto. }
  { destruct Htf as [H|[H|H]]; [discriminate| |]; injection H as ->; tauto. }
  clear Htf.
  destruct (match_all false re_letter a) as [letters|] eqn:L.
  - right. right. right. left.
    apply letter_set_shape in L as (l & H1 & H2 & H3 & H4).
    exists l. repeat split; assumption.
  - right. right. right. right. exists (String c t).
    split; [reflexivity|]. split; [exact L|].
    clear Etf.
    destruct (find _ opts) as [exact|] eqn:F; [|now right].
    left. exists exact. apply find_some in F as [Hin Hmatch].
    apply andb_prop in Hmatch as [_ Hmatch]. apply String.eqb_eq in Hmatch.
    repeat split; assumption.
Qed.

(* ================================================================== *)
(** * Properties of the error formatter *)
(* ================================================================== *)

Section ErrorObject.
Variable float_toString : string -> string.

(** A greedy [.*] in front of a character [c] goes to the last [c]
    before the text [v] without [c], when what follows [c] in the
    pattern matches there. *)
Lemma greedy_dot_until_last {R : Type} c u v fuel bol caps
    (k : bool -> string -> captures -> option R) x :
  (forall y, has_char y u = true -> cset_mem CDot y = true) ->
  has_char c v = false ->
  String.length u < fuel ->
  k false v caps = Some x ->
  star_loop (run false (Set_ CDot)) true
    (fun b s c' => run false (Set_ (CChar c)) b s c' k)
    fuel bol (u +:+ String c v) caps
  = Some x.
Proof.
  intros Hu Hv Hfuel Hk. revert fuel bol Hfuel.
  induction u as [|y u IH]; intros fuel bol Hfuel.
  - rewrite append_nil_l. destruct fuel as [|fuel]; [lia|].
    cbn [star_loop]. 
    assert (Hnone :
      run false (Set_ CDot) bol (String c v) caps
        (fun b s' c' =>
           if String.length s' <? String.length (String c v)
           then star_loop (run false (Set_ CDot)) true
                  (fun b0 s0 c0 => run false (Set_ (CChar c)) b0 s0 c0 k)
                  fuel b s' c'
           else None) = None).
    { cbn [run]. destruct (cset_match false CDot c); [|reflexivity].
      cbn [String.length].
      replace (String.length v <? S (String.length v)) with true
        by (symmetry; apply Nat.ltb_lt; lia).
      apply (greedy_star_fails CDot (fun t => has_char c t = false)).
      - intros b t Ht. cbn [run]. destruct t as [|z t]; [reflexivity|].
        cbn [has_char] in Ht. apply orb_false_elim in Ht as [Hz _].
        unfold cset_match. cbn [cset_mem]. now rewrite Ascii.eqb_sym, Hz.
      - intros z t _ Ht. cbn [has_char] in Ht.
        now apply orb_false_elim in Ht as [_ Ht].
      - exact Hv. }
    rewrite Hnone. cbn [run]. unfold cset_match. cbn [cset_mem].
    now rewrite Ascii.eqb_refl.
  - destruct fuel as [|fuel]; [simpl in Hfuel; lia|].
    assert (Hy : cset_mem CDot y = true)
      by (apply Hu; cbn [has_char]; now rewrite Ascii.eqb_refl).
    rewrite append_cons. cbn [star_loop run]. unfold cset_match at 1.
    rewrite Hy. cbn [String.length].
    replace (String.length (u +:+ String c v)
             <? S (String.length (u +:+ String c v))) with true
      by (symmetry; apply Nat.ltb_lt; lia).
    rewrite IH; [reflexivity | | simpl in Hfuel; lia].
    intros z Hz. apply Hu. cbn [has_char]. rewrite Hz. apply orb_true_r.
Qed.

Lemma error_object_not_here x t bol :
  Ascii.eqb x "{" = false ->
  match_here false re_error_object bol (String x t) = None.
Proof.
  intros Hx. unfold match_here, re_error_object.
  change (Lit ("{" +:+ quoted "error"))
    with (Seq (Set_ (CChar "{")) (Lit (quoted "error"))).
  cbn [run]. unfold cset_match. cbn [cset_mem].
  now rewrite Ascii.eqb_sym, Hx.
Qed.

Lemma error_object_here middle post bol :
  (forall y, has_char y middle = true -> cset_mem CDot y = true) ->
  has_char "}" post = false ->
  match_here false re_error_object bol
    (("{" +:+ quoted "error") +:+ middle +:+ String "}" post)
  = Some (("{" +:+ quoted "error") +:+ middle +:+ "}", post, []).
Proof.
  intros Hmiddle Hpost. unfold match_here, re_error_object. cbn [run].
  rewrite run_literal by discriminate.
  change (Lit "}") with (Set_ (CChar "}")).
  apply (greedy_dot_until_last "}" middle post);
    [assumption | assumption | rewrite length_append; simpl; lia |].
  do 3 f_equal.
  replace (("{" +:+ quoted "error") +:+ middle +:+ String "}" post)
    with ((("{" +:+ quoted "error") +:+ middle +:+ "}") +:+ post)
    by (now rewrite !append_assoc).
  rewrite length_append.
  replace (_ + String.length post - String.length post)
    with (String.length (("{" +:+ quoted "error") +:+ middle +:+ "}"))
    by lia.
  apply take_append.
Qed.

Lemma error_object_exec_from pre middle post i :
  has_char "{" pre = false ->
  (forall y, has_char y middle = true -> cset_mem CDot y = true) ->
  has_char "}" post = false ->
  exec_from false re_error_object i
    (pre +:+ ("{" +:+ quoted "error") +:+ middle +:+ String "}" post)
  = Some (Found (i + String.length pre)
            (("{" +:+ quoted "error") +:+ middle +:+ "}") post []).
Proof.
  intros Hpre Hmiddle Hpost. revert i.
  induction pre as [|x pre IH]; intros i.
  - rewrite append_nil_l, exec_from_eq, error_object_here by assumption.
    simpl. now rewrite Nat.add_0_r.
  - cbn [has_char] in Hpre. apply orb_false_elim in Hpre as [Hx Hpre].
    rewrite append_cons, exec_from_eq, error_object_not_here by assumption.
    rewrite (IH Hpre). simpl. do 2 f_equal. lia.
Qed.

Lemma truthy_append_r (a b : string) : truthy b = true -> truthy (a +:+ b) = true.
Proof. destruct a; [now rewrite append_nil_l | now rewrite append_cons]. Qed.

Lemma single_line_spec s :
  single_line s = true ->
  forall y, has_char y s = true -> cset_mem CDot y = true.
Proof.
  induction s as [|c t IH]; [discriminate 2|].
  cbn [single_line has_char]. intros H y Hy.
  apply andb_prop in H as [Hc Ht].
  apply orb_true_iff in Hy as [Hy|Hy]; [|now apply IH].
  apply Ascii.eqb_eq in Hy. now subst y.
Qed.

(** The search for the error object in a message that holds
    [error_json code]. *)
Lemma error_json_exec pre post code :
  has_char "{" pre = false ->
  has_char "}" post = false ->
  single_line code = true ->
  exec false re_error_object (pre +:+ error_json code +:+ post)
  = Some (Found (String.length pre) (error_json code) post []).
Proof.
  intros Hpre Hpost Hcode.
  replace (pre +:+ error_json code +:+ post)
    with (pre +:+ ("{" +:+ quoted "error")
              +:+ (":{" +:+ quoted "code" +:+ ":" +:+ code +:+ "}")
              +:+ String "}" post)
    by (unfold error_json; now rewrite !append_assoc).
  unfold exec. rewrite error_object_exec_from; [|assumption| |assumption].
  - cbn [Nat.add]. do 2 f_equal.
    unfold error_json. now rewrite !append_assoc.
  - apply single_line_spec.
    assert (Happ : forall a b, single_line a = true -> single_line b = true ->
                   single_line (a +:+ b) = true).
    { intros a b Ha Hb. induction a as [|c a IH]; [now rewrite append_nil_l|].
      rewrite append_cons. cbn [single_line] in *.
      apply andb_prop in Ha as [Hc Ha]. now rewrite Hc, IH. }
    repeat apply Happ; try reflexivity. exact Hcode.
Qed.

(** X2. When the message of an error holds the object
    [{"error":{"code":N}}] for N one of 503, 429, 401 and 404, with no
    opening brace before it and no closing brace after it, [formatError]
    returns the verdict of that code, whatever keywords the rest of the
    message holds: the JSON block comes before the keyword rules. *)
Theorem json_error_code_decides_the_verdict :
  forall pre post code verdict,
    In (code, verdict) code_verdicts ->
    has_char "{" pre = false ->
    has_char "}" post = false ->
    formatError float_toString (new_Error (pre +:+ error_json code +:+ post))
    = verdict.
Proof.
  intros pre post code verdict Hcode Hpre Hpost.
  unfold formatError, error_text, new_Error. cbn [message name].
  set (msg := pre +:+ error_json code +:+ post).
  assert (Hmsg : truthy msg = true).
  { unfold msg. apply truthy_append_r. unfold error_json.
    now rewrite append_cons. }
  rewrite Hmsg.
  assert (Hjson : formatError_json float_toString msg = Some verdict);
    [|now rewrite Hjson].
  unfold formatError_json.
  assert (Hinc : includes msg ("{" +:+ quoted "error") = true).
  { unfold msg. apply includes_after. unfold error_json.
    rewrite !append_assoc. rewrite <- (append_assoc "{" (quoted "error")).
    apply includes_here. }
  rewrite Hinc. unfold msg.
  destruct Hcode as [E|[E|[E|[E|[]]]]]; injection E as <- <-;
    rewrite error_json_exec by (assumption || reflexivity);
    cbn [f_text];
    match goal with
    | |- context [Json.parse (error_json ?c)] =>
        replace (Json.parse (error_json c))
          with (Some (Json.Object
                        [("error", Json.Object [("code", Json.Number c)])]))
          by (vm_compute; reflexivity)
    end;
    reflexivity.
Qed.
End ErrorObject.

Lemma json_error_code_example :
  formatError as_written
    (new_Error ("[503 Service Unavailable] overloaded: "
                +:+ error_json "429" +:+ " (quota)"))
  = "⏳ Rate limit".
Proof.
  apply (json_error_code_decides_the_verdict as_written
           "[503 Service Unavailable] overloaded: " " (quota)" "429"
           "⏳ Rate limit").
  - right. left. reflexivity.
  - reflexivity.
  - reflexivity.
Defined.

(* ================================================================== *)
(** * The confidence the parser returns *)
(* ================================================================== *)

(** X4. Whatever the raw text is, the confidence that
    [parseAnswerWithConfidence] returns lies between 0 and 100; for
    [null] and for the empty string the result is the empty answer with
    confidence 50. *)
Theorem parsed_confidence_is_a_percentage :
  forall float_toString rawText,
    (0 <= pa_confidence (parseAnswerWithConfidence float_toString rawText)
       <= 100)%Z
    /\ (rawText = None \/ rawText = Some EmptyString ->
        parseAnswerWithConfidence float_toString rawText
        = {| pa_answer := EmptyString; pa_confidence := 50 |}).
Proof.
  intros fts rawText. split.
  - apply parse_confidence_range.
  - intros [-> | ->]; reflexivity.
Qed.

(** A confidence above 100 is cut to 100. *)
Lemma json_reply_is_read_example :
  parseAnswerWithConfidence as_written (Some (answer_json "c" "150"))
  = {| pa_answer := toUpperCase "c";
       pa_confidence := Z.min 100 (Json.digits_value 0 "150") |}.
Proof.
  apply (json_reply_is_read as_written "c" "150").
  - reflexivity.
  - reflexivity.
  - vm_compute. discriminate.
Defined.

(* ================================================================== *)
(** * Replies without text *)
(* ================================================================== *)

Section BlankReplies.
Variable float_toString : string -> string.
Variable provider : Provider.
Variables (model prompt : string) (imageBase64 : option string).

Lemma blank_attempt k response :
  provider (make_request model prompt imageBase64) k = Resolves response ->
  (extractText response = None
   \/ exists raw, extractText response = Some raw /\ trim raw = EmptyString) ->
  try_attempt float_toString provider model prompt imageBase64 k
  = inr (new_Error "Empty response or parse failure").
Proof.
  intros Hp Hblank. unfold try_attempt. rewrite Hp.
  destruct Hblank as [->|(raw & -> & Hraw)]; [reflexivity|].
  rewrite Hraw. cbn [truthy]. now rewrite andb_false_r.
Qed.
End BlankReplies.

(** X13. When every attempt resolves with a response without text, or with
    white space only, every attempt is made, the wait after attempt k
    is 1000 k milliseconds, and the failure reports "Jawaban kosong". *)
Theorem blank_replies_exhaust_the_retries :
  forall float_toString provider model prompt imageBase64 retries,
    1 <= retries ->
    (forall k, 1 <= k <= retries ->
       exists response,
         provider (make_request model prompt imageBase64) k
         = Resolves response
         /\ (extractText response = None
             \/ exists raw,
                  extractText response = Some raw
                  /\ trim raw = EmptyString)) ->
    let call :=
      callSingleModel float_toString provider model prompt imageBase64
        retries in
    fst call = Failure model "📭 Jawaban kosong"
    /\ attempts_made (snd call) = seq 1 retries
    /\ waits (snd call)
       = map (fun k => (1000 * Z.of_nat k)%Z) (seq 1 (retries - 1)).
Proof.
  intros fts provider model prompt image retries Hretries Hblank call.
  assert (Hfail : forall k, 1 <= k <= retries ->
            try_attempt fts provider model prompt image k
            = inr (new_Error "Empty response or parse failure")).
  { intros k Hk. destruct (Hblank k Hk) as (response & Hp & Hb).
    now apply (blank_attempt fts provider model prompt image k response). }
  subst call. unfold callSingleModel.
  destruct (attempts_from_all_fail fts provider model prompt image retries
              retries 1 Hretries ltac:(lia)) as (Hev & err & Herr & Hres).
  { intros k Hk. rewrite (Hfail k Hk). eauto. }
  rewrite (Hfail retries ltac:(lia)) in Herr. injection Herr as <-.
  split; [|split].
  - rewrite Hres. reflexivity.
  - exact Hev.
  - rewrite (attempts_from_waits fts provider model prompt image retries
               (fun _ => new_Error "Empty response or parse failure")
               retries 1 Hretries ltac:(lia) Hfail).
    reflexivity.
Qed.

Lemma blank_replies_example :
  fst (callSingleModel as_written blank_round "model" "prompt" None 3)
  = Failure "model" "📭 Jawaban kosong"
  /\ attempts_made
       (snd (callSingleModel as_written blank_round "model" "prompt" None 3))
     = seq 1 3
  /\ waits (snd (callSingleModel as_written blank_round "model" "prompt"
                   None 3))
     = map (fun k => (1000 * Z.of_nat k)%Z) (seq 1 (3 - 1)).
Proof.
  apply (blank_replies_exhaust_the_retries as_written blank_round "model"
           "prompt" None 3); [lia|].
  intros k Hk. unfold blank_round, by_attempt.
  destruct (Nat.even k).
  - exists no_text. split; [reflexivity | now left].
  - eexists. split; [reflexivity|]. right. exists "  ". now split.
Defined.

(* ================================================================== *)
(** * A prompt of white space *)
(* ================================================================== *)

(** X27. A prompt that is a string of white space only is not refused as an
    empty prompt: its key is the empty string, the answer is never
    "Prompt kosong.", and without an entry under the empty key the
    round is run, on the prompt of the empty string. *)
Theorem blank_prompt_starts_a_round :
  forall float_toString provider (clock : Clock) st s,
    s <> EmptyString -> trim s = EmptyString ->
    let outcome :=
      handler float_toString provider clock st (ask_request (AsString s)) in
    cache_key (AsString s) = EmptyString
    /\ body (fst (fst outcome)) <> ErrorBody "Prompt kosong."
    /\ (recentAnswers st !! EmptyString = None ->
        snd outcome
        = snd (callGeminiEnsemble float_toString provider string_prompt []
                 None)).
Proof.
  intros fts provider clock st s Hs Htrim outcome. subst outcome.
  assert (Hkey : cache_key (AsString s) = EmptyString).
  { unfold cache_key. rewrite Htrim. reflexivity. }
  assert (Hmissing : missing_prompt (Some (AsString s)) = false)
    by (destruct s; [congruence | reflexivity]).
  split; [exact Hkey|].
  rewrite handler_ask by assumption. rewrite ask_cases, Hkey.
  assert (Hfresh : forall tick,
    body (fst (fst (fresh_answer fts provider clock st (AsString s) tick)))
    <> ErrorBody "Prompt kosong.").
  { intros tick.
    destruct (fresh_answer_outcomes fts provider clock st (AsString s) tick)
      as [(a & c & Hr & _)|[[Hr|[Hr _]] _]]; cbv zeta in Hr; rewrite Hr;
      discriminate. }
  split.
  - destruct (vacuum (clock 0) (recentAnswers st) !! EmptyString)
      as [cached|]; [|apply Hfresh].
    destruct (clock 1%nat - ce_ts cached <=? TTL_MS)%Z;
      [discriminate | apply Hfresh].
  - intros Hnone.
    assert (Hv : vacuum (clock 0) (recentAnswers st) !! EmptyString = None).
    { apply map_lookup_filter_None. now left. }
    rewrite Hv, fresh_answer_events. unfold round_events, rawPrompt_of.
    rewrite Htrim. reflexivity.
Qed.

Lemma blank_prompt_example :
  cache_key (AsString "  ") = EmptyString
  /\ body (fst (fst (handler as_written majority_round late_clock stale_state
                       (ask_request (AsString "  ")))))
     <> ErrorBody "Prompt kosong."
  /\ (recentAnswers stale_state !! EmptyString = None ->
      snd (handler as_written majority_round late_clock stale_state
             (ask_request (AsString "  ")))
      = snd (callGeminiEnsemble as_written majority_round string_prompt []
               None)).
Proof.
  apply (blank_prompt_starts_a_round as_written majority_round late_clock
           stale_state "  ").
  - discriminate.
  - reflexivity.
Defined.

(* ================================================================== *)
(** * The REST client *)
(* ================================================================== *)

Section RestFacts.
Variable float_toString : string -> string.

Lemma candidate_text_absent ms :
  Json.has_member "candidates" ms = false ->
  Rest.candidate_text float_toString (Json.Object ms) = Json.Str EmptyString.
Proof.
  intros H. unfold Rest.candidate_text, Json.get_opt.
  cbn [Json.get]. now rewrite (last_member_absent _ _ H).
Qed.

(** X28. With a key, an [ok] response whose body is an object without
    [candidates] makes [callGeminiREST] return a success whose answer is
    the empty string, after one request. *)
Theorem rest_response_without_candidates_is_an_empty_success :
  forall apiKey fetch model prompt imageBase64 status bodyText jsonError ms,
    apiKey <> EmptyString ->
    fetch (make_request model prompt imageBase64)
    = Rest.FetchResponds true status bodyText jsonError ->
    Json.parse bodyText = Some (Json.Object ms) ->
    Json.has_member "candidates" ms = false ->
    Rest.callGeminiREST float_toString (Some apiKey) fetch model prompt
      imageBase64
    = (Rest.RestSuccess (Json.Str EmptyString) model,
       [Called (make_request model prompt imageBase64) 1]).
Proof.
  intros apiKey fetch model prompt image status bodyText jsonError ms
         Hkey Hfetch Hparse Hmissing.
  unfold Rest.callGeminiREST.
  destruct apiKey as [|k0 k]; [congruence|].
  rewrite Hfetch. cbn [negb]. rewrite Hparse.
  now rewrite candidate_text_absent.
Qed.
End RestFacts.

Lemma rest_response_example :
  Rest.callGeminiREST as_written (Some "key") empty_fetch "model" "prompt"
    None
  = (Rest.RestSuccess (Json.Str EmptyString) "model",
     [Called (make_request "model" "prompt" None) 1]).
Proof.
  apply (rest_response_without_candidates_is_an_empty_success as_written
           "key" empty_fetch "model" "prompt" None 200
           ("{" +:+ quoted "promptFeedback" +:+ ": {}}") "unused"
           [("promptFeedback", Json.Object [])]).
  - discriminate.
  - reflexivity.
  - vm_compute. reflexivity.
  - reflexivity.
Defined.
